(** * PLY chunker: a shallow embedding of [tools/ply_chunker.py]

    The development follows the Python source function by function.

    Conventions of the embedding.
    - A Python [float] is the rational it denotes ([Q]), and every
      arithmetic operation of the source on floats is followed by the
      rounding of IEEE 754 double precision ([round_double]: to the nearest
      double, ties to even, subnormal numbers included).  What lies beyond
      the finite doubles is outside the model: infinities, NaN, and results
      of a magnitude no double has; the theorems that depend on it bound
      their inputs.  Comparisons are the decidable comparisons of [Q], so
      two representations of one number compare equal, as two floats of one
      value do.
    - [math.sqrt] is a parameter of the development: nothing proved below
      depends on what it computes, except where a premise says so.
    - [random.random] is a parameter too: a sequence of draws, read through a
      counter that every call advances.  The counter is threaded through the
      functions that draw.
    - A Python exception is a [Raise] result.  The two [while] loops of the
      source are run on fuel; [OutOfFuel] is the model's only artefact and
      the theorems say when it cannot happen and when it always does.
    - [print] calls are dropped, with the values computed only for them. *)

From Stdlib Require Import String Ascii.
From Stdlib Require DecimalString DecimalNat.
From Stdlib Require Import List ZArith QArith Qround Qpower Qabs.
From Stdlib Require Import Bool Lia Lqa Permutation Sorted.
Import ListNotations.

Set Implicit Arguments.

(** ** Results of fallible code *)

Inductive exn : Type :=
| ZeroDivisionError
| IndexError
| StructError
| UnicodeDecodeError
| ValueError
| OverflowError.

Inductive result (A : Type) : Type :=
| Ok (a : A)
| Raise (e : exn)
| OutOfFuel.

Arguments Ok {A} a.
Arguments Raise {A} e.
Arguments OutOfFuel {A}.

Definition bind {A B : Type} (m : result A) (f : A -> result B) : result B :=
  match m with
  | Ok a => f a
  | Raise e => Raise e
  | OutOfFuel => OutOfFuel
  end.

Notation "'let*' p ':=' m 'in' k" := (bind m (fun p => k))
  (at level 10, p pattern, m at level 100, k at level 200, only parsing).

(** ** Python's two-argument [min] and [max]

    [min(a, b)] keeps [a] unless [b < a]; [max(a, b)] keeps [a] unless
    [b > a]. *)

Definition Qlt_bool (a b : Q) : bool := negb (Qle_bool b a).

Definition pymin (a b : Q) : Q := if Qlt_bool b a then b else a.
Definition pymax (a b : Q) : Q := if Qlt_bool a b then b else a.

(** ** Double-precision arithmetic

    [binade q] is the exponent [e] with [2^e <= q < 2^(e+1)], for a positive
    [q].  A double has 53 significant bits and none below [2^-1074], so the
    doubles next to [q] are the multiples of [2^quantum q]. *)

Definition binade (q : Q) : Z :=
  let e0 := (Z.log2 (Qnum q) - Z.log2 (Zpos (Qden q)))%Z in
  if Qle_bool (2 ^ e0) q then e0 else (e0 - 1)%Z.

Definition quantum (q : Q) : Z := Z.max (binade q - 52) (-1074).

(** The nearest integer, the even one when two are as near. *)
Definition round_half_even (q : Q) : Z :=
  let f := Qfloor q in
  match Qcompare (q - inject_Z f) (1 # 2) with
  | Lt => f
  | Gt => (f + 1)%Z
  | Eq => if Z.even f then f else (f + 1)%Z
  end.

Definition round_positive (q : Q) : Q :=
  inject_Z (round_half_even (q / 2 ^ quantum q)) * 2 ^ quantum q.

(** The double nearest to [q]. *)
Definition round_double (q : Q) : Q :=
  match Qnum q with
  | Z0 => 0
  | Zpos _ => Qred (round_positive q)
  | Zneg _ => Qred (- round_positive (- q))
  end.

(** [a + b], [a - b], [a * b] and [a / b] on floats; the source never
    reaches [fdiv] with a zero divisor, which raises before. *)
Definition fadd (a b : Q) : Q := round_double (a + b).
Definition fsub (a b : Q) : Q := round_double (a - b).
Definition fmul (a b : Q) : Q := round_double (a * b).
Definition fdiv (a b : Q) : Q := round_double (a / b).

(** [float(n)] of an integer, as in [n * 0.1]. *)
Definition float_of_int (n : Z) : Q := round_double (inject_Z n).

(** The literals [0.1], [0.3] and [0.8] are the doubles nearest to them. *)
Definition literal_0_1 : Q := round_double (1 # 10).
Definition literal_0_3 : Q := round_double (3 # 10).
Definition literal_0_8 : Q := round_double (8 # 10).

(** ** Data model *)

(** [class Vertex]: position, colour (default white) and the raw fields of an
    ASCII line. *)
Record Vertex : Type := mkVertex {
  x : Q;
  y : Q;
  z : Q;
  r : Z;
  g : Z;
  b : Z;
  full_data : option (list string)
}.

(** [Vertex(px, py, pz, cr, cg, cb)]: [full_data] keeps its default [None]. *)
Definition Vertex6 (px py pz : Q) (cr cg cb : Z) : Vertex :=
  mkVertex px py pz cr cg cb None.

(** The dictionary [{"x": _, "y": _, "z": _}]. *)
Record Coords : Type := mkCoords {
  cx : Q;
  cy : Q;
  cz : Q
}.

(** The dictionary [{"min": _, "max": _}]. *)
Record BoundingBox : Type := mkBox {
  bb_min : Coords;
  bb_max : Coords
}.

(** [class PLYChunker]: the two attributes set by [__init__]. *)
Record PLYChunker : Type := mkPLYChunker {
  target_chunk_size_mb : Q;
  target_chunk_size_bytes : Z
}.

(** [int(q)] truncates toward zero. *)
Definition py_int (q : Q) : Z := Z.quot (Qnum q) (Zpos (Qden q)).

(** [PLYChunker.__init__] *)
Definition PLYChunker_init (mb : Q) : PLYChunker :=
  mkPLYChunker mb (py_int (fmul (fmul mb 1024) 1024)).

(** ** [calculate_bounding_box] *)

Definition bbox_step (acc : BoundingBox) (vertex : Vertex) : BoundingBox :=
  mkBox
    (mkCoords (pymin (cx (bb_min acc)) (x vertex))
              (pymin (cy (bb_min acc)) (y vertex))
              (pymin (cz (bb_min acc)) (z vertex)))
    (mkCoords (pymax (cx (bb_max acc)) (x vertex))
              (pymax (cy (bb_max acc)) (y vertex))
              (pymax (cz (bb_max acc)) (z vertex))).

(** The source starts the six accumulators at [inf] and [-inf].  The first
    iteration replaces each of them by the first vertex's coordinate
    ([min(inf, c) = c], [max(-inf, c) = c] for every number [c]), so the
    fold below starts there and runs over the rest.  A NaN coordinate is
    never taken by the source's [min] and [max]; it is not a value of the
    model, and what is proved of the box is proved for coordinates that are
    numbers. *)
Definition calculate_bounding_box (vertices : list Vertex) : BoundingBox :=
  match vertices with
  | [] => mkBox (mkCoords 0 0 0) (mkCoords 0 0 0)
  | v0 :: rest =>
      fold_left bbox_step rest
        (mkBox (mkCoords (x v0) (y v0) (z v0)) (mkCoords (x v0) (y v0) (z v0)))
  end.

(** ** List operations of the partitioner *)

(** [l.pop(i)] for a non-negative [i]: the list without its [i]-th element,
    [IndexError] out of range. *)
Fixpoint pop {A : Type} (l : list A) (i : nat) : result (list A) :=
  match l, i with
  | [], _ => Raise IndexError
  | _ :: t, O => Ok t
  | a :: t, S j => let* t' := pop t j in Ok (a :: t')
  end.

(** [for i in idxs: l.pop(i)] *)
Fixpoint pop_all {A : Type} (idxs : list nat) (l : list A) : result (list A) :=
  match idxs with
  | [] => Ok l
  | i :: rest => let* l' := pop l i in pop_all rest l'
  end.

(** An element of [vertex_distances]: [(distance, i, vertex)]. *)
Definition entry : Type := (Q * nat * Vertex)%type.

Definition distance_of (e : entry) : Q := fst (fst e).
Definition index_of (e : entry) : nat := snd (fst e).
Definition vertex_of (e : entry) : Vertex := snd e.

(** [list.sort(key=lambda x: x[0])]: a stable sort by ascending distance.
    The result of a stable sort does not depend on the algorithm; this is
    insertion from the right, each element placed before the first element
    whose key is not smaller. *)
Fixpoint insert_by_distance (e : entry) (l : list entry) : list entry :=
  match l with
  | [] => [e]
  | h :: t =>
      if Qlt_bool (distance_of h) (distance_of e)
      then h :: insert_by_distance e t
      else e :: h :: t
  end.

Definition sort_by_distance (l : list entry) : list entry :=
  fold_right insert_by_distance [] l.

Definition nonempty {A : Type} (l : list A) : bool :=
  match l with [] => false | _ :: _ => true end.

(** ** [analyze_ply_file]

    The file opened with ['rb'] is the string of its bytes; the file object
    is the part of it not yet read. *)

(** [class PLYHeader] *)
Record PLYHeader : Type := mkPLYHeader {
  format_type : option string;
  vertex_count : Z;
  properties : list string;
  header_size : nat
}.

Definition newline : ascii := ascii_of_nat 10.

(** [f.readline()]: the bytes up to and including the next newline, or what
    is left; the empty string at the end of the file. *)
Fixpoint readline (f : string) : string * string :=
  match f with
  | EmptyString => (EmptyString, EmptyString)
  | String c rest =>
      if Ascii.eqb c newline then (String c EmptyString, rest)
      else let (line, f') := readline rest in (String c line, f')
  end.

Definition is_ascii (c : ascii) : bool := (nat_of_ascii c <? 128)%nat.

(** [line.decode('ascii')] *)
Fixpoint decode_ascii (line : string) : result string :=
  match line with
  | EmptyString => Ok EmptyString
  | String c rest =>
      if is_ascii c then let* rest' := decode_ascii rest in Ok (String c rest')
      else Raise UnicodeDecodeError
  end.

(** The characters [str.isspace] accepts below 128: tab, newline, vertical
    tab, form feed, carriage return, the four separators 28 to 31, space. *)
Definition is_space (c : ascii) : bool :=
  let n := nat_of_ascii c in
  ((9 <=? n) && (n <=? 13) || (28 <=? n) && (n <=? 32))%nat.

Fixpoint lstrip (s : string) : string :=
  match s with
  | EmptyString => EmptyString
  | String c rest => if is_space c then lstrip rest else s
  end.

Fixpoint rstrip (s : string) : string :=
  match s with
  | EmptyString => EmptyString
  | String c rest =>
      match rstrip rest with
      | EmptyString => if is_space c then EmptyString else String c EmptyString
      | rest' => String c rest'
      end
  end.

(** [s.strip()] *)
Definition strip (s : string) : string := rstrip (lstrip s).

(** [s.split()]: the maximal runs of non-space characters.  [word] holds the
    run being read, reversed. *)
Fixpoint split_from (s : string) (word : list ascii) : list string :=
  let flush :=
    match word with
    | [] => []
    | _ :: _ => [string_of_list_ascii (rev word)]
    end in
  match s with
  | EmptyString => flush
  | String c rest =>
      if is_space c then flush ++ split_from rest []
      else split_from rest (c :: word)
  end.

Definition split (s : string) : list string := split_from s [].

(** [l[i]] *)
Definition getitem {A : Type} (l : list A) (i : nat) : result A :=
  match nth_error l i with
  | Some a => Ok a
  | None => Raise IndexError
  end.

(** The [while True:] loop that reads the header, on fuel. *)
Fixpoint read_header (fuel : nat) (f : string) (header_lines : list string)
         (header_size : nat) : result (list string * nat) :=
  match fuel with
  | O => OutOfFuel
  | S fuel' =>
      let (line, f') := readline f in
      let header_size := (header_size + String.length line)%nat in
      let* line_str := decode_ascii line in
      let line_str := strip line_str in
      let header_lines := header_lines ++ [line_str] in
      if String.eqb line_str "end_header" then Ok (header_lines, header_size)
      else read_header fuel' f' header_lines header_size
  end.

(** The [for line in header_lines:] loop.  [int] is Python's conversion of a
    token to an integer, a parameter. *)
Fixpoint parse_header (int : string -> result Z) (header_lines : list string)
         (format_type : option string) (vertex_count : Z)
         (properties : list string)
  : result (option string * Z * list string) :=
  match header_lines with
  | [] => Ok (format_type, vertex_count, properties)
  | line :: rest =>
      if String.prefix "format" line then
        let* t := getitem (split line) 1 in
        parse_header int rest (Some t) vertex_count properties
      else if String.prefix "element vertex" line then
        let* t := getitem (split line) 2 in
        let* n := int t in
        parse_header int rest format_type n properties
      else if String.prefix "property" line then
        parse_header int rest format_type vertex_count (properties ++ [line])
      else parse_header int rest format_type vertex_count properties
  end.

(** [analyze_ply_file], given the bytes of the file at [filepath]. *)
Definition analyze_ply_file (int : string -> result Z) (fuel : nat)
           (file : string) : result PLYHeader :=
  let* (header_lines, header_size) := read_header fuel file [] 0 in
  let* (format_type, vertex_count, properties) :=
    parse_header int header_lines None 0 [] in
  Ok (mkPLYHeader format_type vertex_count properties header_size).

(** The lines [readline] returns before the end of the file; [n] bounds
    their number. *)
Fixpoint lines_from (n : nat) (f : string) : list string :=
  match n with
  | O => []
  | S n' =>
      match f with
      | EmptyString => []
      | String _ _ => let (line, f') := readline f in line :: lines_from n' f'
      end
  end.

Definition file_lines (f : string) : list string :=
  lines_from (String.length f) f.

(** A line after which the header loop goes on: it decodes and does not
    strip to [end_header]. *)
Definition continues_header (line : string) : bool :=
  match decode_ascii line with
  | Ok line_str => negb (String.eqb (strip line_str) "end_header")
  | _ => false
  end.

(** ** Chunk files and the manifest *)

(** The file [write_ply_chunk] writes: the header text and, for each vertex
    packed with [struct.pack('<fffBBB', ...)], the vertex. *)
Record PlyFile : Type := mkPlyFile {
  header_text : string;
  records : list Vertex
}.

(** [class ChunkInfo] *)
Record ChunkInfo : Type := mkChunkInfo {
  filename : string;
  ci_vertex_count : nat;
  bounding_box : BoundingBox;
  priority : nat;
  file_size : nat
}.

(** An element of the manifest's ["chunks"] list. *)
Record ManifestChunk : Type := mkManifestChunk {
  m_filename : string;
  m_vertex_count : nat;
  m_bounding_box : BoundingBox;
  m_priority : nat;
  m_file_size_bytes : nat
}.

(** The manifest dictionary. *)
Record Manifest : Type := mkManifest {
  original_file : string;
  total_vertices : nat;
  chunk_count : nat;
  overall_bounding_box : BoundingBox;
  m_target_chunk_size_mb : Q;
  chunks : list ManifestChunk
}.

Definition string_of_nat (n : nat) : string :=
  DecimalString.NilZero.string_of_uint (Nat.to_uint n).

(** [f"{i:03d}"] *)
Definition format_03d (i : nat) : string :=
  let s := string_of_nat i in
  (string_of_list_ascii (repeat "0"%char (3 - String.length s)) ++ s)%string.

(** The byte [struct.pack] writes for format [B]; [struct.error] outside
    0..255. *)
Definition pack_uchar (c : Z) : result Z :=
  if ((0 <=? c) && (c <=? 255))%Z then Ok c else Raise StructError.

(** The least magnitude that [struct.pack] refuses for the format [f]: half
    way between the largest 32-bit float and [2^128], which rounds to
    infinity. *)
Definition float32_limit : Q := inject_Z (2 ^ 128 - 2 ^ 103).

Definition pack_float32 (q : Q) : result Q :=
  if Qlt_bool (Qabs q) float32_limit then Ok q else Raise OverflowError.

(** [struct.pack('<fffBBB', ...)] of one vertex: 15 bytes, here the vertex
    itself once its six fields, taken in order, are known to fit. *)
Definition pack_vertex (vertex : Vertex) : result Vertex :=
  let* _ := pack_float32 (x vertex) in
  let* _ := pack_float32 (y vertex) in
  let* _ := pack_float32 (z vertex) in
  let* _ := pack_uchar (r vertex) in
  let* _ := pack_uchar (g vertex) in
  let* _ := pack_uchar (b vertex) in
  Ok vertex.

Fixpoint pack_all (chunk_vertices : list Vertex) : result (list Vertex) :=
  match chunk_vertices with
  | [] => Ok []
  | vertex :: rest =>
      let* vertex_data := pack_vertex vertex in
      let* written := pack_all rest in
      Ok (vertex_data :: written)
  end.

Definition anchor_points (overall_bbox : BoundingBox) : list Vertex :=
  let min_x := cx (bb_min overall_bbox) in
  let min_y := cy (bb_min overall_bbox) in
  let min_z := cz (bb_min overall_bbox) in
  let max_x := cx (bb_max overall_bbox) in
  let max_y := cy (bb_max overall_bbox) in
  let max_z := cz (bb_max overall_bbox) in
  [ Vertex6 min_x min_y min_z 0 0 0;
    Vertex6 max_x min_y min_z 0 0 0;
    Vertex6 min_x max_y min_z 0 0 0;
    Vertex6 min_x min_y max_z 0 0 0;
    Vertex6 max_x max_y min_z 0 0 0;
    Vertex6 max_x min_y max_z 0 0 0;
    Vertex6 min_x max_y max_z 0 0 0;
    Vertex6 max_x max_y max_z 0 0 0 ].

(** The list [write_ply_chunk] encodes: a copy of [vertices], extended by the
    anchors when [overall_bbox] is given (a dictionary with two keys is
    true). *)
Definition chunk_vertices_of (vertices : list Vertex)
           (overall_bbox : option BoundingBox) : list Vertex :=
  match overall_bbox with
  | Some bbox => vertices ++ anchor_points bbox
  | None => vertices
  end.

(** [write_ply_chunk]: the file written and its size, which is what
    [os.path.getsize] returns. *)
Definition write_ply_chunk (vertices : list Vertex)
           (overall_bbox : option BoundingBox) : result (PlyFile * nat) :=
  let chunk_vertices := chunk_vertices_of vertices overall_bbox in
  let header_text :=
    ("ply" ++ String newline ""
     ++ "format binary_little_endian 1.0" ++ String newline ""
     ++ "element vertex " ++ string_of_nat (List.length chunk_vertices)
     ++ String newline ""
     ++ "property float x" ++ String newline ""
     ++ "property float y" ++ String newline ""
     ++ "property float z" ++ String newline ""
     ++ "property uchar red" ++ String newline ""
     ++ "property uchar green" ++ String newline ""
     ++ "property uchar blue" ++ String newline ""
     ++ "end_header" ++ String newline "")%string in
  let* written := pack_all chunk_vertices in
  Ok (mkPlyFile header_text written,
      (String.length header_text + 15 * List.length written)%nat).

(** ** Scale normalisation (the opening of [chunk_ply_file]) *)

Definition max_dimension_of (original_bbox : BoundingBox) : Q :=
  let min_coords := bb_min original_bbox in
  let max_coords := bb_max original_bbox in
  let size_x := fsub (cx max_coords) (cx min_coords) in
  let size_y := fsub (cy max_coords) (cy min_coords) in
  let size_z := fsub (cz max_coords) (cz min_coords) in
  pymax (pymax size_x size_y) size_z.

(** [vertex.x *= scale_factor] and the same for [y] and [z]. *)
Definition scale_vertex (scale_factor : Q) (vertex : Vertex) : Vertex :=
  mkVertex (fmul (x vertex) scale_factor) (fmul (y vertex) scale_factor)
           (fmul (z vertex) scale_factor)
           (r vertex) (g vertex) (b vertex) (full_data vertex).

(** The scale factor and the vertex list after the [if max_dimension > 50]
    statement.  The vertices are updated in place; the reader builds one
    object per record, so no vertex is updated twice. *)
Definition normalize_scale (vertices : list Vertex) : Q * list Vertex :=
  let original_bbox := calculate_bounding_box vertices in
  let max_dimension := max_dimension_of original_bbox in
  if Qlt_bool 50 max_dimension then
    let scale_factor := fdiv 20 max_dimension in
    (scale_factor, map (scale_vertex scale_factor) vertices)
  else (1, vertices).

(** The [for i, chunk_vertices in enumerate(vertex_chunks):] loop of
    [chunk_ply_file]: the descriptors and the files written, in order. *)
Fixpoint write_chunks (base_name : string) (overall_bbox : BoundingBox)
         (i : nat) (vertex_chunks : list (list Vertex))
         (chunk_infos : list ChunkInfo) (files : list (string * PlyFile))
  : result (list ChunkInfo * list (string * PlyFile)) :=
  match vertex_chunks with
  | [] => Ok (chunk_infos, files)
  | chunk_vertices :: rest =>
      let chunk_filename :=
        (base_name ++ "_chunk_" ++ format_03d i ++ ".ply")%string in
      let* (file, file_size) :=
        write_ply_chunk chunk_vertices (Some overall_bbox) in
      let chunk_bbox := calculate_bounding_box chunk_vertices in
      let chunk_info :=
        mkChunkInfo chunk_filename (List.length chunk_vertices) chunk_bbox i
                    file_size in
      write_chunks base_name overall_bbox (S i) rest
                   (chunk_infos ++ [chunk_info])
                   (files ++ [(chunk_filename, file)])
  end.

Definition manifest_chunk (chunk : ChunkInfo) : ManifestChunk :=
  mkManifestChunk (filename chunk) (ci_vertex_count chunk)
                  (bounding_box chunk) (priority chunk) (file_size chunk).

(** ** [chunk_vertices_radial] *)

Section Partitioner.

(** [math.sqrt] and the sequence of values [random.random()] returns. *)
Variable sqrt : Q -> Q.
Variable random : nat -> Q.

Definition vertices_per_chunk_of (self : PLYChunker) : Z :=
  let bytes_per_vertex := 20%Z in
  Z.max 1 (target_chunk_size_bytes self / bytes_per_vertex).

Definition origin_distance (vertex : Vertex) : Q :=
  sqrt (fadd (fadd (fmul (x vertex) (x vertex)) (fmul (y vertex) (y vertex)))
             (fmul (z vertex) (z vertex))).

(** The first [for] loop: [vertex_distances] and [max_distance]. *)
Fixpoint measure_from (i : nat) (vertices : list Vertex)
         (vertex_distances : list entry) (max_distance : Q)
  : list entry * Q :=
  match vertices with
  | [] => (vertex_distances, max_distance)
  | vertex :: rest =>
      let distance := origin_distance vertex in
      measure_from (S i) rest
        (vertex_distances ++ [(distance, i, vertex)])
        (pymax max_distance distance)
  end.

Section Pass.

Variable vertices_per_chunk : Z.
Variable max_distance : Q.
(** [len(remaining_vertices)]: the list is not changed during the scan. *)
Variable n_remaining : nat.
Variable chunk_num : Z.

(** The selection probability of one vertex.  The division comes first
    and raises when [max_distance] is zero.  In the last test
    [vertices_per_chunk * 1.5] is taken exactly, as the source has it for
    every number of vertices per chunk below [2^51]. *)
Definition final_probability (distance : Q) : result Q :=
  if Qeq_bool max_distance 0 then Raise ZeroDivisionError
  else
    let base_probability :=
      fsub 1 (fmul (fdiv distance max_distance) literal_0_8) in
    let chunk_boost :=
      pymin literal_0_3 (fmul (float_of_int (chunk_num - 1)) literal_0_1) in
    let final_probability := pymin 1 (fadd base_probability chunk_boost) in
    if Qle_bool (inject_Z (Z.of_nat n_remaining))
                (inject_Z vertices_per_chunk * (15 # 10))
    then Ok 1
    else Ok final_probability.

(** The inner [for i, (distance, original_index, vertex) in
    enumerate(remaining_vertices)] loop, from position [i] on; [k] counts
    the draws made so far. *)
Fixpoint scan_pass (entries : list entry) (i : nat)
         (current_chunk : list Vertex) (vertices_to_remove : list nat)
         (k : nat) : result (list Vertex * list nat * nat) :=
  match entries with
  | [] => Ok (current_chunk, vertices_to_remove, k)
  | e :: rest =>
      let* p := final_probability (distance_of e) in
      if Qlt_bool (random k) p then
        let current_chunk' := current_chunk ++ [vertex_of e] in
        let vertices_to_remove' := vertices_to_remove ++ [i] in
        if (vertices_per_chunk <=? Z.of_nat (length current_chunk'))%Z
        then Ok (current_chunk', vertices_to_remove', S k)
        else scan_pass rest (S i) current_chunk' vertices_to_remove' (S k)
      else scan_pass rest (S i) current_chunk vertices_to_remove (S k)
  end.

End Pass.

(** The [while remaining_vertices:] loop. *)
Fixpoint chunk_loop (fuel : nat) (vertices_per_chunk : Z) (max_distance : Q)
         (remaining_vertices : list entry) (chunk_num : Z)
         (chunks : list (list Vertex)) (k : nat)
  : result (list (list Vertex) * nat) :=
  match fuel with
  | O => OutOfFuel
  | S fuel' =>
      match remaining_vertices with
      | [] => Ok (chunks, k)
      | _ :: _ =>
          let chunk_num := (chunk_num + 1)%Z in
          let* (current_chunk, vertices_to_remove, k') :=
            scan_pass vertices_per_chunk max_distance
                      (length remaining_vertices) chunk_num
                      remaining_vertices 0 [] [] k in
          let* remaining_vertices' :=
            pop_all (rev vertices_to_remove) remaining_vertices in
          let chunks' :=
            if nonempty current_chunk then chunks ++ [current_chunk]
            else chunks in
          if (length vertices_to_remove =? 0)%nat
             && nonempty remaining_vertices'
          then
            let final_chunk := map vertex_of remaining_vertices' in
            Ok (if nonempty final_chunk then chunks' ++ [final_chunk]
                else chunks', k')
          else
            chunk_loop fuel' vertices_per_chunk max_distance
                       remaining_vertices' chunk_num chunks' k'
      end
  end.

(** [chunk_vertices_radial]: the groups, and the draw counter after the
    run.  Every pass that does not leave the loop removes a vertex, so
    one unit of fuel per vertex and one for the last test are enough
    (see [chunk_loop_fuel]). *)
Definition chunk_vertices_radial (self : PLYChunker) (vertices : list Vertex)
           (k : nat) : result (list (list Vertex) * nat) :=
  let vertices_per_chunk := vertices_per_chunk_of self in
  let '(vertex_distances, max_distance) := measure_from 0 vertices [] 0 in
  let vertex_distances := sort_by_distance vertex_distances in
  let remaining_vertices := vertex_distances in
  chunk_loop (S (length remaining_vertices)) vertices_per_chunk max_distance
             remaining_vertices 0 [] k.

(** [chunk_ply_file], from the vertices [read_vertices_from_ply] decoded:
    [input_name] is [os.path.basename(input_path)] and [base_name] the same
    without its extension.  The result is the manifest, the chunk files
    written (name and content) and the draw counter. *)
Definition chunk_ply_file (self : PLYChunker) (input_name base_name : string)
           (vertices : list Vertex) (k : nat)
  : result (Manifest * list (string * PlyFile) * nat) :=
  let (scale_factor, vertices) := normalize_scale vertices in
  let overall_bbox := calculate_bounding_box vertices in
  let* (vertex_chunks, k') := chunk_vertices_radial self vertices k in
  let* (chunk_infos, files) :=
    write_chunks base_name overall_bbox 0 vertex_chunks [] [] in
  let manifest :=
    mkManifest input_name (List.length vertices) (List.length chunk_infos)
               overall_bbox (target_chunk_size_mb self)
               (map manifest_chunk chunk_infos) in
  Ok (manifest, files, k').

End Partitioner.

(** ** [read_vertices_from_ply]

    [float] and [int] are Python's conversions of a field to a number and
    [unpack_float] the decoding of four bytes as a little-endian float;
    the three are parameters. *)

(** [f.read(n)]: the next [n] bytes, fewer at the end of the file, and the
    rest of the file. *)
Fixpoint read (n : nat) (f : string) : string * string :=
  match n, f with
  | S n', String c rest =>
      let (bytes, f') := read n' rest in (String c bytes, f')
  | _, _ => (EmptyString, f)
  end.

(** [f.seek(offset)] on a file just opened: what is left to read. *)
Fixpoint seek (offset : nat) (file : string) : string :=
  match offset, file with
  | S offset', String _ rest => seek offset' rest
  | _, _ => file
  end.

(** [int(values[i]) if len(values) > i else 255] *)
Definition colour_field (int : string -> result Z) (values : list string)
           (i : nat) : result Z :=
  if (i <? List.length values)%nat
  then let* t := getitem values i in int t
  else Ok 255%Z.

(** One turn of the ASCII loop: the vertex of the next line. *)
Definition read_ascii_vertex (float : string -> result Q)
           (int : string -> result Z) (f : string)
  : result (Vertex * string) :=
  let (raw, f') := readline f in
  let* line := decode_ascii raw in
  let values := split (strip line) in
  let* t0 := getitem values 0 in
  let* vx := float t0 in
  let* t1 := getitem values 1 in
  let* vy := float t1 in
  let* t2 := getitem values 2 in
  let* vz := float t2 in
  let* vr := colour_field int values 3 in
  let* vg := colour_field int values 4 in
  let* vb := colour_field int values 5 in
  Ok (mkVertex vx vy vz vr vg vb (Some values), f').

(** [struct.unpack('<fff', bytes)]: [struct.error] unless there are twelve
    bytes. *)
Definition unpack_fff (unpack_float : string -> Q) (bytes : string)
  : result (Q * Q * Q) :=
  if (String.length bytes =? 12)%nat
  then Ok (unpack_float (substring 0 4 bytes),
           unpack_float (substring 4 4 bytes),
           unpack_float (substring 8 4 bytes))
  else Raise StructError.

Definition byte_value (c : ascii) : Z := Z.of_nat (nat_of_ascii c).

(** [struct.unpack('<BBB', bytes)]: [struct.error] unless there are three
    bytes. *)
Definition unpack_BBB (bytes : string) : result (Z * Z * Z) :=
  match bytes with
  | String c1 (String c2 (String c3 EmptyString)) =>
      Ok (byte_value c1, byte_value c2, byte_value c3)
  | _ => Raise StructError
  end.

(** One turn of the binary loop.  The [try] around the colours turns any
    error into white. *)
Definition read_binary_vertex (unpack_float : string -> Q) (f : string)
  : result (Vertex * string) :=
  let (position, f1) := read 12 f in
  let* (vx, vy, vz) := unpack_fff unpack_float position in
  let (colour, f2) := read 3 f1 in
  let '(vr, vg, vb) :=
    match unpack_BBB colour with
    | Ok rgb => rgb
    | _ => (255, 255, 255)%Z
    end in
  Ok (Vertex6 vx vy vz vr vg vb, f2).

(** [for i in range(count):] with the body [read_one], which both loops of
    the source share in shape. *)
Fixpoint read_vertices_loop (read_one : string -> result (Vertex * string))
         (count : nat) (f : string) (vertices : list Vertex)
  : result (list Vertex) :=
  match count with
  | O => Ok vertices
  | S count' =>
      let* (vertex, f') := read_one f in
      read_vertices_loop read_one count' f' (vertices ++ [vertex])
  end.

(** [read_vertices_from_ply], given the bytes of the file at [filepath]. *)
Definition read_vertices_from_ply (float : string -> result Q)
           (int : string -> result Z) (unpack_float : string -> Q)
           (file : string) (header : PLYHeader) : result (list Vertex) :=
  let f := seek (header_size header) file in
  let count := Z.to_nat (vertex_count header) in
  match format_type header with
  | Some format =>
      if String.eqb format "ascii"
      then read_vertices_loop (read_ascii_vertex float int) count f []
      else if String.eqb format "binary_little_endian"
      then read_vertices_loop (read_binary_vertex unpack_float) count f []
      else Ok []
  | None => Ok []
  end.

(** ** The bytes of a chunk file

    [pack_float] is the encoding of a number as a little-endian float of
    four bytes, a parameter. *)

Definition uchar_byte (c : Z) : ascii := ascii_of_nat (Z.to_nat c).

(** The bytes [struct.pack('<fffBBB', ...)] returns for a vertex whose
    colours are bytes. *)
Definition pack_fffBBB (pack_float : Q -> string) (vertex : Vertex) : string :=
  (pack_float (x vertex) ++ pack_float (y vertex) ++ pack_float (z vertex)
   ++ String (uchar_byte (r vertex))
        (String (uchar_byte (g vertex))
           (String (uchar_byte (b vertex)) EmptyString)))%string.

(** The content of the file [write_ply_chunk] wrote: the header text, then
    the packed vertices. *)
Definition ply_bytes (pack_float : Q -> string) (file : PlyFile) : string :=
  (header_text file
   ++ fold_right append EmptyString
                 (map (pack_fffBBB pack_float) (records file)))%string.

(** ** [chunk_vertices_sequential] *)

(** [range(start, stop, step)] for a positive [step], with one unit of fuel
    per element: the range has at most [stop - start] of them. *)
Fixpoint range_from (fuel start stop step : nat) : list nat :=
  match fuel with
  | O => []
  | S fuel' =>
      if (start <? stop)%nat
      then start :: range_from fuel' (start + step) stop step
      else []
  end.

(** [range(start, stop, step)]; a zero step is a [ValueError]. *)
Definition py_range (start stop step : nat) : result (list nat) :=
  if (step =? 0)%nat then Raise ValueError
  else Ok (range_from (stop - start) start stop step).

(** [l[lo:hi]] for [0 <= lo <= hi]: a slice stops at the end of the list. *)
Definition slice {A : Type} (l : list A) (lo hi : nat) : list A :=
  firstn (hi - lo) (skipn lo l).

(** [chunk_vertices_sequential]: the estimate of the vertices per chunk is
    the one of [chunk_vertices_radial]. *)
Definition chunk_vertices_sequential (self : PLYChunker)
           (vertices : list Vertex) : result (list (list Vertex)) :=
  let vertices_per_chunk := Z.to_nat (vertices_per_chunk_of self) in
  let* starts := py_range 0 (List.length vertices) vertices_per_chunk in
  Ok (map (fun i => slice vertices i (i + vertices_per_chunk)) starts).

(** ** Specification vocabulary *)

(** [picks i entries rm sel keep]: a scan of [entries], whose first element
    has position [i], that selects the elements [sel], found at the positions
    [rm], and leaves the elements [keep], both in list order. *)
Inductive picks {A : Type} : nat -> list A -> list nat -> list A -> list A -> Prop :=
| picks_stop : forall i entries, picks i entries [] [] entries
| picks_take : forall i e entries rm sel keep,
    picks (S i) entries rm sel keep ->
    picks i (e :: entries) (i :: rm) (e :: sel) keep
| picks_skip : forall i e entries rm sel keep,
    picks (S i) entries rm sel keep ->
    picks i (e :: entries) rm sel (e :: keep).

(** A stall: a pass over the non-empty list [remaining_vertices] that
    selects nothing.  [forced_by_stall] describes what the loop appends for
    it: nothing when there was no stall, else one group holding the whole
    list. *)
Definition stalled_on (random : nat -> Q) (vertices_per_chunk : Z)
           (max_distance : Q) (remaining_vertices : list entry) : Prop :=
  remaining_vertices <> [] /\
  exists chunk_num j j',
    scan_pass random vertices_per_chunk max_distance
              (List.length remaining_vertices) chunk_num
              remaining_vertices 0 [] [] j
    = Ok ([], [], j').

Definition forced_by_stall (random : nat -> Q) (vertices_per_chunk : Z)
           (max_distance : Q) (forced : list (list entry)) : Prop :=
  forced = [] \/
  exists remaining_vertices,
    forced = [remaining_vertices] /\
    stalled_on random vertices_per_chunk max_distance remaining_vertices.

(** [cut step l]: the list [l] cut in consecutive pieces of [step] elements,
    the last one shorter when [step] does not divide the length; this is
    the list [chunk_vertices_sequential] builds. *)
Definition cut {A : Type} (step : nat) (l : list A) : list (list A) :=
  map (fun i => slice l i (i + step))
      (range_from (List.length l) 0 (List.length l) step).

(** The groups partition the input by position: there is a list of index
    groups, one per group, that together list every position of [vertices]
    exactly once, and each group holds the vertices at its indices. *)
Definition partitions_by_index (vertices : list Vertex)
           (groups : list (list Vertex)) : Prop :=
  exists idx : list (list nat),
    Permutation (concat idx) (seq 0 (List.length vertices)) /\
    Forall2 (fun ids group => map (nth_error vertices) ids = map Some group)
            idx groups.

(** [vertex_distances] as the first loop builds it, from position [i]. *)
Fixpoint entries_from (sqrt : Q -> Q) (i : nat) (vertices : list Vertex)
  : list entry :=
  match vertices with
  | [] => []
  | vertex :: rest =>
      (origin_distance sqrt vertex, i, vertex) :: entries_from sqrt (S i) rest
  end.

(** [max_distance] after the first loop. *)
Definition max_distance_of (sqrt : Q -> Q) (vertices : list Vertex) : Q :=
  fold_left (fun m vertex => pymax m (origin_distance sqrt vertex)) vertices 0.

Definition at_origin (vertex : Vertex) : Prop :=
  x vertex == 0 /\ y vertex == 0 /\ z vertex == 0.

(** Coordinate-wise equality of bounding boxes as numbers. *)
Definition coords_eq (p q : Coords) : Prop :=
  cx p == cx q /\ cy p == cy q /\ cz p == cz q.

Definition bbox_eq (a c : BoundingBox) : Prop :=
  coords_eq (bb_min a) (bb_min c) /\ coords_eq (bb_max a) (bb_max c).

(** A square root on three decimals, to run the partitioner on examples. *)
Definition sqrt_milli (q : Q) : Q :=
  Z.sqrt (Qnum q * 1000000 / Zpos (Qden q)) # 1000.

(** The three axes, to state facts about bounding boxes once. *)
Inductive axis : Type := AxisX | AxisY | AxisZ.

Definition coord (a : axis) (p : Coords) : Q :=
  match a with AxisX => cx p | AxisY => cy p | AxisZ => cz p end.

Definition vcoord (a : axis) (vertex : Vertex) : Q :=
  match a with AxisX => x vertex | AxisY => y vertex | AxisZ => z vertex end.

(** [m] is the least (greatest) of the numbers [qs], and one of them. *)
Definition is_min (qs : list Q) (m : Q) : Prop :=
  (forall q, In q qs -> m <= q) /\ In m qs.

Definition is_max (qs : list Q) (m : Q) : Prop :=
  (forall q, In q qs -> q <= m) /\ In m qs.

(** The box whose corners are those of [bbox] multiplied by
    [scale_factor], as floats. *)
Definition scale_coords (scale_factor : Q) (p : Coords) : Coords :=
  mkCoords (fmul (cx p) scale_factor) (fmul (cy p) scale_factor)
           (fmul (cz p) scale_factor).

Definition scale_box (scale_factor : Q) (bbox : BoundingBox) : BoundingBox :=
  mkBox (scale_coords scale_factor (bb_min bbox))
        (scale_coords scale_factor (bb_max bbox)).

(** The rounding error of a double: relative, [2^-53] of the number, and
    never less than half of the least quantum, [2^-1075]. *)
Definition unit_roundoff : Q := Eval vm_compute in (1 # 2 ^ 53).
Definition least_quantum_half : Q := Eval vm_compute in (1 # 2 ^ 1075).

Definition rounding_rate : Q := Eval vm_compute in (1 # 2 ^ 50).
Definition rounding_slack : Q := Eval vm_compute in (1 # 2 ^ 1070).

(** How far from 20 the largest size of a scaled model may be, when the
    magnitudes of the six bounds of its box, once scaled, add up to
    [reach]: [2^-50 * (20 + reach) + 2^-1070]. *)
Definition scaling_tolerance (reach : Q) : Q :=
  rounding_rate * (20 + reach) + rounding_slack.

(** The sum of the magnitudes of the six bounds of a box. *)
Definition box_reach (bbox : BoundingBox) : Q :=
  Qabs (cx (bb_min bbox)) + Qabs (cx (bb_max bbox))
  + Qabs (cy (bb_min bbox)) + Qabs (cy (bb_max bbox))
  + Qabs (cz (bb_min bbox)) + Qabs (cz (bb_max bbox)).

(** Example data. *)

(** A white vertex at integer coordinates. *)
Definition vertex_at (px py pz : Z) : Vertex :=
  Vertex6 (inject_Z px) (inject_Z py) (inject_Z pz) 255 255 255.

(** A chunker whose byte budget is 40, so that a chunk has two vertices, and
    one whose budget is 20, for chunks of one vertex. *)
Definition chunker_of_two : PLYChunker := mkPLYChunker (40 # 1048576) 40.
Definition chunker_of_one : PLYChunker := mkPLYChunker (20 # 1048576) 20.

(** Three vertices on the x axis, at distances 1, 2 and 3. *)
Definition three_on_axis : list Vertex :=
  [vertex_at 1 0 0; vertex_at 2 0 0; vertex_at 3 0 0].

(** Three vertices whose largest extent is 59. *)
Definition wide_model : list Vertex :=
  [vertex_at 1 0 0; vertex_at 2 5 0; vertex_at 60 0 (-3)].

(** Draws that are all one half. *)
Definition draws_half : nat -> Q := fun _ => 1 # 2.

Definition nl : string := String newline EmptyString.

(** A file that ends before any [end_header] line. *)
Definition headerless_file : string :=
  ("ply" ++ nl ++ "format ascii 1.0" ++ nl ++ "element vertex 1" ++ nl
   ++ "0 0 0" ++ nl)%string.

(** The least selection probability: the float [1.0 - 0.8], which is
    0.19999999999999996. *)
Definition least_probability : Q := fsub 1 literal_0_8.

(** A colour that [struct.pack] accepts for the format [B]. *)
Definition uchar (c : Z) : Prop := (0 <= c <= 255)%Z.

Definition colours_fit (vertex : Vertex) : Prop :=
  uchar (r vertex) /\ uchar (g vertex) /\ uchar (b vertex).

(** A coordinate that [struct.pack] accepts for the format [f]. *)
Definition float32 (q : Q) : Prop := Qabs q < float32_limit.

Definition coords_fit (vertex : Vertex) : Prop :=
  float32 (x vertex) /\ float32 (y vertex) /\ float32 (z vertex).

(** A vertex no coordinate of which exceeds [2^48] in magnitude. *)
Definition coordinate_limit : Q := inject_Z (2 ^ 48).

Definition coords_within_limit (vertex : Vertex) : Prop :=
  Qabs (x vertex) <= coordinate_limit /\
  Qabs (y vertex) <= coordinate_limit /\
  Qabs (z vertex) <= coordinate_limit.

(** A vertex that [struct.pack('<fffBBB', ...)] accepts. *)
Definition packable (vertex : Vertex) : Prop :=
  coords_fit vertex /\ colours_fit vertex.

(** A box whose six bounds are in the range of a 32-bit float. *)
Definition box_fits (bbox : BoundingBox) : Prop :=
  forall a, float32 (coord a (bb_min bbox)) /\ float32 (coord a (bb_max bbox)).

(** The header [write_ply_chunk] writes, as a function of the decimal text
    of the vertex count. *)
Definition chunk_header (count : string) : string :=
  ("ply" ++ nl
   ++ "format binary_little_endian 1.0" ++ nl
   ++ "element vertex " ++ count ++ nl
   ++ "property float x" ++ nl
   ++ "property float y" ++ nl
   ++ "property float z" ++ nl
   ++ "property uchar red" ++ nl
   ++ "property uchar green" ++ nl
   ++ "property uchar blue" ++ nl
   ++ "end_header" ++ nl)%string.

(** A character of a token: ASCII and not white space.  [all_token s]: the
    string [s] is made of such characters. *)
Definition token_char (c : ascii) : bool := is_ascii c && negb (is_space c).

Fixpoint all_token (s : string) : bool :=
  match s with
  | EmptyString => true
  | String c rest => token_char c && all_token rest
  end.

(** [int] on the strings of decimal digits, for examples. *)
Definition decimal_int (s : string) : result Z :=
  match DecimalString.NilZero.uint_of_string s with
  | Some d => Ok (Z.of_nat (Nat.of_uint d))
  | None => Raise ValueError
  end.

(** A vertex written with [pack_float] and read again with
    [unpack_float]: its coordinates go through the four-byte encoding, its
    colours come back as they are, its raw fields are lost. *)
Definition read_back (pack_float : Q -> string) (unpack_float : string -> Q)
           (vertex : Vertex) : Vertex :=
  Vertex6 (unpack_float (pack_float (x vertex)))
          (unpack_float (pack_float (y vertex)))
          (unpack_float (pack_float (z vertex)))
          (r vertex) (g vertex) (b vertex).

(** The name of the chunk file of index [i]. *)
Definition chunk_filename (base_name : string) (i : nat) : string :=
  (base_name ++ "_chunk_" ++ format_03d i ++ ".ply")%string.

(** ** Rounding to a double *)

Lemma pow2_pos (t : Z) : 0 < 2 ^ t.
Proof. apply Qpower_0_lt. reflexivity. Qed.

Lemma pow2_le (a b : Z) : (a <= b)%Z -> 2 ^ a <= 2 ^ b.
Proof. intro H. apply Qpower_le_compat_l; [exact H|discriminate]. Qed.

Lemma pow2_lt (a b : Z) : (a < b)%Z -> 2 ^ a < 2 ^ b.
Proof. intro H. apply Qpower_lt_compat_l; [exact H|reflexivity]. Qed.

Lemma pow2_plus (a b : Z) : 2 ^ (a + b) == 2 ^ a * 2 ^ b.
Proof. apply Qpower_plus. discriminate. Qed.

Lemma pow2_Z (k : Z) : (0 <= k)%Z -> inject_Z (2 ^ k) == 2 ^ k.
Proof. intro H. rewrite Zpower_Qpower by exact H. reflexivity. Qed.

Lemma binade_spec (q : Q) :
  0 < q -> 2 ^ binade q <= q /\ q < 2 ^ (binade q + 1).
Proof.
  intro Hq. unfold binade.
  destruct q as [n d]. simpl Qnum. simpl Qden.
  assert (Hn : (0 < n)%Z).
  { unfold Qlt in Hq. simpl in Hq. lia. }
  destruct (Z.log2_spec n Hn) as [Hn1 Hn2].
  destruct (Z.log2_spec (Zpos d) (Pos2Z.is_pos d)) as [Hd1 Hd2].
  pose proof (Z.log2_nonneg n) as Hln.
  pose proof (Z.log2_nonneg (Zpos d)) as Hld.
  set (ln := Z.log2 n) in *. set (ld := Z.log2 (Zpos d)) in *.
  assert (Eq : n # d == inject_Z n / inject_Z (Zpos d)) by apply Qmake_Qdiv.
  assert (Hdpos : 0 < inject_Z (Zpos d)) by reflexivity.
  assert (Qn1 : 2 ^ ln <= inject_Z n).
  { rewrite <- pow2_Z by exact Hln. rewrite <- Zle_Qle. exact Hn1. }
  assert (Qn2 : inject_Z n < 2 ^ (ln + 1)).
  { rewrite <- pow2_Z by lia. rewrite <- Zlt_Qlt.
    replace (ln + 1)%Z with (Z.succ ln) by lia. exact Hn2. }
  assert (Qd1 : 2 ^ ld <= inject_Z (Zpos d)).
  { rewrite <- pow2_Z by exact Hld. rewrite <- Zle_Qle. exact Hd1. }
  assert (Qd2 : inject_Z (Zpos d) < 2 ^ (ld + 1)).
  { rewrite <- pow2_Z by lia. rewrite <- Zlt_Qlt.
    replace (ld + 1)%Z with (Z.succ ld) by lia. exact Hd2. }
  destruct (Qle_bool (2 ^ (ln - ld)) (n # d)) eqn:E.
  - apply Qle_bool_iff in E. split; [exact E|].
    rewrite Eq. apply Qlt_shift_div_r; [exact Hdpos|].
    replace (ln - ld + 1)%Z with ((ln + 1) + - ld)%Z by lia.
    rewrite pow2_plus, Qpower_opp.
    pose proof (pow2_pos ld) as Hp. pose proof (pow2_pos (ln + 1)) as Hp'.
    assert (Hi : 0 < / 2 ^ ld) by (apply Qinv_lt_0_compat; exact Hp).
    assert (K : 2 ^ (ln + 1) * / 2 ^ ld * 2 ^ ld == 2 ^ (ln + 1))
      by (field; apply Qnot_eq_sym, Qlt_not_eq, Hp).
    apply Qlt_le_trans with (2 ^ (ln + 1)); [exact Qn2|].
    rewrite <- K at 1. apply Qmult_le_l; [|exact Qd1].
    apply Qmult_lt_0_compat; assumption.
  - assert (E' : n # d < 2 ^ (ln - ld)).
    { apply Qnot_le_lt. intro H. apply Qle_bool_iff in H. congruence. }
    split.
    + rewrite Eq. apply Qle_shift_div_l; [exact Hdpos|].
      replace (ln - ld - 1)%Z with (ln + - (ld + 1))%Z by lia.
      rewrite pow2_plus, Qpower_opp.
      pose proof (pow2_pos (ld + 1)) as Hp. pose proof (pow2_pos ln) as Hp'.
      assert (Hi : 0 < / 2 ^ (ld + 1)) by (apply Qinv_lt_0_compat; exact Hp).
      assert (K : 2 ^ ln * / 2 ^ (ld + 1) * 2 ^ (ld + 1) == 2 ^ ln)
        by (field; apply Qnot_eq_sym, Qlt_not_eq, Hp).
      apply Qle_trans with (2 ^ ln); [|exact Qn1].
      rewrite <- K at 2. apply Qmult_le_l; [|apply Qlt_le_weak; exact Qd2].
      apply Qmult_lt_0_compat; assumption.
    + replace (ln - ld - 1 + 1)%Z with (ln - ld)%Z by lia. exact E'.
Qed.

Lemma binade_unique (q : Q) (e : Z) :
  2 ^ e <= q -> q < 2 ^ (e + 1) -> binade q = e.
Proof.
  intros H1 H2.
  assert (Hq : 0 < q) by (eapply Qlt_le_trans; [apply pow2_pos|exact H1]).
  destruct (binade_spec Hq) as [H3 H4].
  destruct (Z.lt_trichotomy (binade q) e) as [Hlt|[Heq|Hgt]]; [|exact Heq|].
  - exfalso. assert (2 ^ (binade q + 1) <= 2 ^ e) by (apply pow2_le; lia).
    lra.
  - exfalso. assert (2 ^ (e + 1) <= 2 ^ binade q) by (apply pow2_le; lia).
    lra.
Qed.

Lemma binade_le (q1 q2 : Q) :
  0 < q1 -> q1 <= q2 -> (binade q1 <= binade q2)%Z.
Proof.
  intros H1 H12.
  assert (H2 : 0 < q2) by lra.
  destruct (binade_spec H1) as [A1 B1].
  destruct (binade_spec H2) as [A2 B2].
  destruct (Z_le_gt_dec (binade q1) (binade q2)) as [H|H]; [exact H|].
  exfalso. assert (2 ^ (binade q2 + 1) <= 2 ^ binade q1) by (apply pow2_le; lia).
  lra.
Qed.

Lemma round_half_even_bounds (q : Q) :
  (Qfloor q <= round_half_even q <= Qfloor q + 1)%Z.
Proof.
  unfold round_half_even.
  destruct (Qcompare _ _); [destruct (Z.even _)| |]; lia.
Qed.

Lemma round_half_even_Z (k : Z) : round_half_even (inject_Z k) = k.
Proof.
  unfold round_half_even. rewrite Qfloor_Z.
  destruct (Qcompare_spec (inject_Z k - inject_Z k) (1 # 2)) as [C|C|C];
    [exfalso; lra|reflexivity|exfalso; lra].
Qed.

Lemma round_half_even_le (q1 q2 : Q) :
  q1 <= q2 -> (round_half_even q1 <= round_half_even q2)%Z.
Proof.
  intro H.
  pose proof (Qfloor_resp_le _ _ H) as Hf.
  pose proof (round_half_even_bounds q1) as B1.
  pose proof (round_half_even_bounds q2) as B2.
  destruct (Z.eq_dec (Qfloor q1) (Qfloor q2)) as [E|N]; [|lia].
  unfold round_half_even in *. rewrite E in *.
  set (f := Qfloor q2) in *.
  destruct (Qcompare_spec (q1 - inject_Z f) (1 # 2)) as [C1|C1|C1];
    destruct (Qcompare_spec (q2 - inject_Z f) (1 # 2)) as [C2|C2|C2];
    try lia; try (destruct (Z.even f); lia); exfalso; lra.
Qed.

Lemma round_half_even_eq (q1 q2 : Q) :
  q1 == q2 -> round_half_even q1 = round_half_even q2.
Proof.
  intro H. apply Z.le_antisymm; apply round_half_even_le; rewrite H;
    apply Qle_refl.
Qed.

Lemma round_positive_unfold (q : Q) :
  round_positive q
  = inject_Z (round_half_even (q / 2 ^ quantum q)) * 2 ^ quantum q.
Proof. reflexivity. Qed.

(** Below a multiple of the quantum, the rounded value stays below it. *)
Lemma round_positive_le_grid (q : Q) (k t : Z) :
  (quantum q <= t)%Z -> q <= inject_Z k * 2 ^ t ->
  round_positive q <= inject_Z k * 2 ^ t.
Proof.
  intros Ht Hq. rewrite round_positive_unfold.
  set (u := quantum q) in *.
  pose proof (pow2_pos u) as Hu.
  assert (E : 2 ^ t == inject_Z (2 ^ (t - u)) * 2 ^ u).
  { rewrite pow2_Z by lia. rewrite <- pow2_plus. f_equiv. lia. }
  rewrite E, Qmult_assoc. apply Qmult_le_compat_r; [|lra].
  rewrite <- inject_Z_mult, <- Zle_Qle.
  rewrite <- (round_half_even_Z (k * 2 ^ (t - u))).
  apply round_half_even_le. apply Qle_shift_div_r; [exact Hu|].
  rewrite inject_Z_mult, <- Qmult_assoc, <- E. exact Hq.
Qed.

Lemma round_positive_ge_grid (q : Q) (k t : Z) :
  (quantum q <= t)%Z -> inject_Z k * 2 ^ t <= q ->
  inject_Z k * 2 ^ t <= round_positive q.
Proof.
  intros Ht Hq. rewrite round_positive_unfold.
  set (u := quantum q) in *.
  pose proof (pow2_pos u) as Hu.
  assert (E : 2 ^ t == inject_Z (2 ^ (t - u)) * 2 ^ u).
  { rewrite pow2_Z by lia. rewrite <- pow2_plus. f_equiv. lia. }
  rewrite E, Qmult_assoc. apply Qmult_le_compat_r; [|lra].
  rewrite <- inject_Z_mult, <- Zle_Qle.
  rewrite <- (round_half_even_Z (k * 2 ^ (t - u))).
  apply round_half_even_le. apply Qle_shift_div_l; [exact Hu|].
  rewrite inject_Z_mult, <- Qmult_assoc, <- E. exact Hq.
Qed.

Lemma round_positive_le (q1 q2 : Q) :
  0 < q1 -> q1 <= q2 -> round_positive q1 <= round_positive q2.
Proof.
  intros H1 H12.
  assert (H2 : 0 < q2) by lra.
  pose proof (binade_le H1 H12) as Hb.
  destruct (Z.eq_dec (quantum q1) (quantum q2)) as [E|N].
  - rewrite !round_positive_unfold, E.
    pose proof (pow2_pos (quantum q2)) as Hu.
    apply Qmult_le_compat_r; [|lra].
    rewrite <- Zle_Qle. apply round_half_even_le.
    apply Qmult_le_compat_r; [exact H12|].
    apply Qlt_le_weak, Qinv_lt_0_compat, Hu.
  - assert (Hq : (quantum q1 < quantum q2)%Z) by (unfold quantum in *; lia).
    assert (He : quantum q2 = (binade q2 - 52)%Z) by (unfold quantum in *; lia).
    assert (Hlt : (binade q1 < binade q2)%Z) by (unfold quantum in *; lia).
    destruct (binade_spec H1) as [_ B1]. destruct (binade_spec H2) as [A2 _].
    apply Qle_trans with (inject_Z 1 * 2 ^ binade q2).
    + apply round_positive_le_grid; [unfold quantum in *; lia|].
      assert (2 ^ (binade q1 + 1) <= 2 ^ binade q2) by (apply pow2_le; lia).
      change (inject_Z 1) with 1. lra.
    + apply round_positive_ge_grid; [lia|]. change (inject_Z 1) with 1. lra.
Qed.

Lemma round_positive_nonneg (q : Q) : 0 < q -> 0 <= round_positive q.
Proof.
  intro H. rewrite round_positive_unfold.
  pose proof (pow2_pos (quantum q)) as Hu.
  apply Qmult_le_0_compat; [|lra].
  change 0 with (inject_Z 0). rewrite <- Zle_Qle.
  rewrite <- (round_half_even_Z 0). apply round_half_even_le.
  apply Qle_shift_div_l; [exact Hu|]. change (inject_Z 0) with 0. lra.
Qed.

Lemma Qnum_sign (q : Q) :
  match Qnum q with
  | Z0 => q == 0
  | Zpos _ => 0 < q
  | Zneg _ => q < 0
  end.
Proof.
  destruct q as [[|n|n] d]; unfold Qeq, Qlt; simpl; lia.
Qed.

Lemma round_double_zero (q : Q) : q == 0 -> round_double q == 0.
Proof.
  intro H. unfold round_double. pose proof (Qnum_sign q) as S.
  destruct (Qnum q); [reflexivity|exfalso; lra|exfalso; lra].
Qed.

Lemma round_double_pos (q : Q) : 0 < q -> round_double q == round_positive q.
Proof.
  intro H. unfold round_double. pose proof (Qnum_sign q) as S.
  destruct (Qnum q); [exfalso; lra|apply Qred_correct|exfalso; lra].
Qed.

Lemma round_double_neg (q : Q) :
  q < 0 -> round_double q == - round_positive (- q).
Proof.
  intro H. unfold round_double. pose proof (Qnum_sign q) as S.
  destruct (Qnum q); [exfalso; lra|exfalso; lra|apply Qred_correct].
Qed.

(** Rounding is monotone. *)
Lemma round_double_le (q1 q2 : Q) :
  q1 <= q2 -> round_double q1 <= round_double q2.
Proof.
  intro H.
  destruct (Qlt_le_dec 0 q1) as [P1|N1].
  - assert (P2 : 0 < q2) by lra.
    rewrite (round_double_pos P1), (round_double_pos P2).
    apply round_positive_le; assumption.
  - destruct (Qlt_le_dec q1 0) as [L1|Z1].
    + rewrite (round_double_neg L1).
      assert (Hn : 0 < - q1) by lra.
      pose proof (round_positive_nonneg Hn) as Hr.
      destruct (Qlt_le_dec 0 q2) as [P2|N2].
      * rewrite (round_double_pos P2).
        pose proof (round_positive_nonneg P2). lra.
      * destruct (Qlt_le_dec q2 0) as [L2|Z2].
        -- rewrite (round_double_neg L2).
           assert (Hn2 : 0 < - q2) by lra.
           assert (Hle : - q2 <= - q1) by lra.
           pose proof (round_positive_le Hn2 Hle). lra.
        -- assert (E : q2 == 0) by lra.
           rewrite (round_double_zero E). lra.
    + assert (E : q1 == 0) by lra. rewrite (round_double_zero E).
      destruct (Qlt_le_dec 0 q2) as [P2|N2].
      * rewrite (round_double_pos P2). apply round_positive_nonneg, P2.
      * assert (E2 : q2 == 0) by lra. rewrite (round_double_zero E2). lra.
Qed.

#[global] Instance round_double_compat : Proper (Qeq ==> Qeq) round_double.
Proof.
  intros q1 q2 H. apply Qle_antisym; apply round_double_le; rewrite H;
    apply Qle_refl.
Qed.

Lemma round_half_even_error (q : Q) :
  inject_Z (round_half_even q) - q <= 1 # 2 /\
  q - inject_Z (round_half_even q) <= 1 # 2.
Proof.
  unfold round_half_even.
  pose proof (Qfloor_le q) as Hlo. pose proof (Qlt_floor q) as Hhi.
  rewrite inject_Z_plus in Hhi. change (inject_Z 1) with 1 in Hhi.
  set (f := Qfloor q) in *.
  destruct (Qcompare_spec (q - inject_Z f) (1 # 2)) as [C|C|C];
    [destruct (Z.even f)| |];
    rewrite ?inject_Z_plus; change (inject_Z 1) with 1; split; lra.
Qed.

(** Half a quantum bounds the rounding error. *)
Lemma round_positive_error (q : Q) :
  Qabs (round_positive q - q) <= (1 # 2) * 2 ^ quantum q.
Proof.
  unfold round_positive.
  set (t := quantum q). pose proof (pow2_pos t) as Ht.
  destruct (round_half_even_error (q / 2 ^ t)) as [H1 H2].
  set (m := inject_Z (round_half_even (q / 2 ^ t))) in *.
  assert (Hne : ~ 2 ^ t == 0) by lra.
  apply Qabs_Qle_condition. split.
  - setoid_replace (m * 2 ^ t - q) with (- ((q / 2 ^ t - m) * 2 ^ t))
      by (field; exact Hne).
    apply Qopp_le_compat. apply Qmult_le_compat_r; lra.
  - setoid_replace (m * 2 ^ t - q) with ((m - q / 2 ^ t) * 2 ^ t)
      by (field; exact Hne).
    apply Qmult_le_compat_r; lra.
Qed.

Lemma round_positive_relative (q : Q) :
  0 < q -> (-1022 <= binade q)%Z ->
  Qabs (round_positive q - q) <= unit_roundoff * q.
Proof.
  intros Hq Hb. eapply Qle_trans; [apply round_positive_error|].
  destruct (binade_spec Hq) as [Hlo _].
  unfold quantum. rewrite Z.max_l by lia.
  replace (binade q - 52)%Z with (binade q + -52)%Z by lia.
  rewrite pow2_plus. change (2 ^ (-52)) with (1 # 2 ^ 52).
  unfold unit_roundoff.
  assert (C : (1 # 2) * (1 # 2 ^ 52) == 1 # 2 ^ 53) by reflexivity.
  setoid_replace ((1 # 2) * (2 ^ binade q * (1 # 2 ^ 52)))
    with ((1 # 2) * (1 # 2 ^ 52) * 2 ^ binade q) by ring.
  rewrite C. apply Qmult_le_l; [reflexivity|exact Hlo].
Qed.

Lemma round_positive_absolute (q : Q) :
  0 < q ->
  Qabs (round_positive q - q) <= unit_roundoff * q + least_quantum_half.
Proof.
  intro Hq. destruct (Z_le_gt_dec (-1022) (binade q)) as [Hb|Hb].
  - pose proof (round_positive_relative Hq Hb).
    assert (0 <= least_quantum_half) by discriminate. lra.
  - eapply Qle_trans; [apply round_positive_error|].
    unfold quantum. rewrite Z.max_r by lia.
    assert (0 <= unit_roundoff * q)
      by (apply Qmult_le_0_compat; [discriminate|lra]).
    change ((1 # 2) * 2 ^ (-1074)) with ((1 # 2) * (1 # 2 ^ 1074)).
    assert ((1 # 2) * (1 # 2 ^ 1074) == least_quantum_half)
      by (vm_compute; reflexivity).
    lra.
Qed.

(** The error of one rounding: relative for a number of a magnitude no
    less than [2^-1022], the least normal double; with half the least
    quantum added, for any number. *)
Lemma round_double_error (q : Q) :
  Qabs (round_double q - q)
  <= unit_roundoff * Qabs q + least_quantum_half.
Proof.
  destruct (Qlt_le_dec 0 q) as [P|N].
  - rewrite (round_double_pos P), (Qabs_pos q) by lra.
    apply round_positive_absolute, P.
  - destruct (Qlt_le_dec q 0) as [L|Z].
    + rewrite (round_double_neg L), (Qabs_neg q) by lra.
      assert (Hn : 0 < - q) by lra.
      pose proof (round_positive_absolute Hn) as H.
      setoid_replace (- round_positive (- q) - q)
        with (- (round_positive (- q) - - q)) by ring.
      rewrite Qabs_opp. exact H.
    + assert (E : q == 0) by lra.
      rewrite (round_double_zero E), E. vm_compute. discriminate.
Qed.

Lemma round_double_error_normal (q : Q) :
  2 ^ (-1022) <= q ->
  Qabs (round_double q - q) <= unit_roundoff * q.
Proof.
  intro H. assert (P : 0 < q).
  { eapply Qlt_le_trans; [apply (pow2_pos (-1022))|exact H]. }
  rewrite (round_double_pos P).
  apply round_positive_relative; [exact P|].
  destruct (binade_spec P) as [_ Hhi].
  destruct (Z_le_gt_dec (-1022) (binade q)) as [Hb|Hb]; [exact Hb|].
  exfalso.
  assert (2 ^ (binade q + 1) <= 2 ^ (-1022)) by (apply pow2_le; lia).
  lra.
Qed.

Lemma round_double_between (q : Q) :
  q - (unit_roundoff * Qabs q + least_quantum_half) <= round_double q /\
  round_double q <= q + (unit_roundoff * Qabs q + least_quantum_half).
Proof.
  pose proof (round_double_error q) as H.
  apply Qabs_Qle_condition in H. destruct H as [H1 H2]. split; lra.
Qed.

#[global] Instance fadd_compat : Proper (Qeq ==> Qeq ==> Qeq) fadd.
Proof. intros a a' Ha c c' Hc. unfold fadd. rewrite Ha, Hc. reflexivity. Qed.

#[global] Instance fsub_compat : Proper (Qeq ==> Qeq ==> Qeq) fsub.
Proof. intros a a' Ha c c' Hc. unfold fsub. rewrite Ha, Hc. reflexivity. Qed.

#[global] Instance fmul_compat : Proper (Qeq ==> Qeq ==> Qeq) fmul.
Proof. intros a a' Ha c c' Hc. unfold fmul. rewrite Ha, Hc. reflexivity. Qed.

#[global] Instance fdiv_compat : Proper (Qeq ==> Qeq ==> Qeq) fdiv.
Proof. intros a a' Ha c c' Hc. unfold fdiv. rewrite Ha, Hc. reflexivity. Qed.

Lemma round_double_nonneg (q : Q) : 0 <= q -> 0 <= round_double q.
Proof.
  intro H. rewrite <- (round_double_zero (Qeq_refl 0)).
  apply round_double_le, H.
Qed.

Lemma fmul_zero (a c : Q) : a == 0 -> fmul a c == 0.
Proof. intro H. apply round_double_zero. rewrite H. ring. Qed.

Lemma fadd_zero (a c : Q) : a == 0 -> c == 0 -> fadd a c == 0.
Proof. intros Ha Hc. apply round_double_zero. rewrite Ha, Hc. ring. Qed.

(** ** Comparisons *)

Lemma Qlt_bool_iff (a c : Q) : Qlt_bool a c = true <-> a < c.
Proof.
  unfold Qlt_bool. rewrite negb_true_iff.
  split; intro H.
  - apply Qnot_le_lt. intro Hle. apply Qle_bool_iff in Hle. congruence.
  - destruct (Qle_bool c a) eqn:E; [|reflexivity].
    apply Qle_bool_iff in E. exfalso. exact (Qlt_not_le _ _ H E).
Qed.

Lemma Qlt_bool_false_iff (a c : Q) : Qlt_bool a c = false <-> c <= a.
Proof.
  unfold Qlt_bool. rewrite negb_false_iff. apply Qle_bool_iff.
Qed.

Lemma pymin_le_l (a c : Q) : pymin a c <= a.
Proof.
  unfold pymin. destruct (Qlt_bool c a) eqn:E.
  - apply Qlt_le_weak, Qlt_bool_iff, E.
  - apply Qle_refl.
Qed.

Lemma pymin_le_r (a c : Q) : pymin a c <= c.
Proof.
  unfold pymin. destruct (Qlt_bool c a) eqn:E.
  - apply Qle_refl.
  - apply Qlt_bool_false_iff, E.
Qed.

Lemma pymin_cases (a c : Q) : pymin a c = a \/ pymin a c = c.
Proof. unfold pymin. destruct (Qlt_bool c a); auto. Qed.

Lemma pymax_ge_l (a c : Q) : a <= pymax a c.
Proof.
  unfold pymax. destruct (Qlt_bool a c) eqn:E.
  - apply Qlt_le_weak, Qlt_bool_iff, E.
  - apply Qle_refl.
Qed.

Lemma pymax_ge_r (a c : Q) : c <= pymax a c.
Proof.
  unfold pymax. destruct (Qlt_bool a c) eqn:E.
  - apply Qle_refl.
  - apply Qlt_bool_false_iff, E.
Qed.

Lemma pymax_cases (a c : Q) : pymax a c = a \/ pymax a c = c.
Proof. unfold pymax. destruct (Qlt_bool a c); auto. Qed.

(** ** [pop] and the removal loop *)

Lemma pop_middle {A : Type} (pre : list A) (a : A) (post : list A) :
  pop (pre ++ a :: post) (List.length pre) = Ok (pre ++ post).
Proof.
  induction pre as [|h pre IH]; simpl.
  - reflexivity.
  - rewrite IH. reflexivity.
Qed.

Lemma pop_all_app {A : Type} (idxs1 idxs2 : list nat) (l : list A) :
  pop_all (idxs1 ++ idxs2) l = bind (pop_all idxs1 l) (pop_all idxs2).
Proof.
  revert l. induction idxs1 as [|i idxs1 IH]; intro l; simpl.
  - reflexivity.
  - destruct (pop l i); simpl; auto.
Qed.

Lemma picks_length {A : Type} i (entries : list A) rm sel keep :
  picks i entries rm sel keep -> List.length rm = List.length sel.
Proof. induction 1; simpl; auto. Qed.

Lemma picks_none {A : Type} i (entries : list A) keep :
  picks i entries [] [] keep -> keep = entries.
Proof.
  revert i keep. induction entries as [|e entries IH]; intros i keep H.
  - inversion H. reflexivity.
  - inversion H; subst; [reflexivity|].
    f_equal. eapply IH. eassumption.
Qed.

Lemma picks_perm {A : Type} i (entries : list A) rm sel keep :
  picks i entries rm sel keep -> Permutation (sel ++ keep) entries.
Proof.
  induction 1; simpl.
  - apply Permutation_refl.
  - apply perm_skip. assumption.
  - apply Permutation_sym, Permutation_cons_app, Permutation_sym. assumption.
Qed.

Lemma picks_keep_length {A : Type} i (entries : list A) rm sel keep :
  picks i entries rm sel keep ->
  (List.length sel + List.length keep = List.length entries)%nat.
Proof.
  intro H. apply picks_perm, Permutation_length in H.
  rewrite length_app in H. exact H.
Qed.

(** Popping the selected positions from the last to the first leaves the
    elements the scan did not select: no index is out of range and no index
    is shifted by an earlier removal. *)
Lemma picks_pop_all {A : Type} i (entries : list A) rm sel keep :
  picks i entries rm sel keep ->
  forall pre, List.length pre = i ->
  pop_all (rev rm) (pre ++ entries) = Ok (pre ++ keep).
Proof.
  induction 1 as [i entries | i e entries rm sel keep _ IH
                 | i e entries rm sel keep _ IH]; intros pre Hpre.
  - reflexivity.
  - simpl rev. rewrite pop_all_app.
    replace (pre ++ e :: entries) with ((pre ++ [e]) ++ entries)
      by (rewrite <- app_assoc; reflexivity).
    rewrite IH by (rewrite length_app; simpl; lia).
    simpl. rewrite <- app_assoc. simpl.
    rewrite <- Hpre, pop_middle. reflexivity.
  - replace (pre ++ e :: entries) with ((pre ++ [e]) ++ entries)
      by (rewrite <- app_assoc; reflexivity).
    rewrite IH by (rewrite length_app; simpl; lia).
    rewrite <- app_assoc. reflexivity.
Qed.

(** ** One pass of the scan *)

Section PassFacts.

Variable random : nat -> Q.
Variable vertices_per_chunk : Z.
Variable max_distance : Q.
Variable n_remaining : nat.
Variable chunk_num : Z.

Let scan := scan_pass random vertices_per_chunk max_distance n_remaining
                      chunk_num.
Let probability := final_probability vertices_per_chunk max_distance
                                     n_remaining chunk_num.

Lemma final_probability_ok (distance : Q) :
  Qeq_bool max_distance 0 = false ->
  exists p, probability distance = Ok p.
Proof.
  intro H. subst probability. unfold final_probability. rewrite H.
  destruct (Qle_bool _ _); eauto.
Qed.

Lemma final_probability_raises (distance : Q) :
  Qeq_bool max_distance 0 = true ->
  probability distance = Raise ZeroDivisionError.
Proof.
  intro H. subst probability. unfold final_probability. rewrite H.
  reflexivity.
Qed.

Lemma final_probability_flush (distance : Q) :
  Qeq_bool max_distance 0 = false ->
  Qle_bool (inject_Z (Z.of_nat n_remaining))
           (inject_Z vertices_per_chunk * (15 # 10)) = true ->
  probability distance = Ok 1.
Proof.
  intros H Hflush. subst probability. unfold final_probability.
  rewrite H, Hflush. reflexivity.
Qed.

(** What a pass returns is a selection of the scanned list: the group
    holds the vertices of the selected entries and [vertices_to_remove]
    their positions. *)
Lemma scan_pass_picks entries :
  forall i current_chunk vertices_to_remove k current_chunk' rm' k',
  scan entries i current_chunk vertices_to_remove k
    = Ok (current_chunk', rm', k') ->
  exists rm sel keep,
    picks i entries rm sel keep /\
    current_chunk' = current_chunk ++ map vertex_of sel /\
    rm' = vertices_to_remove ++ rm.
Proof.
  subst scan.
  induction entries as [|e rest IH]; intros i cur rm k cur' rm' k' H.
  - simpl in H. inversion H; subst.
    exists [], [], []. repeat split; try constructor;
      rewrite ?app_nil_r; reflexivity.
  - simpl in H.
    destruct (final_probability _ _ _ _ _) as [p| |]; simpl in H;
      try discriminate.
    destruct (Qlt_bool (random k) p).
    + destruct (vertices_per_chunk <=? _)%Z.
      * inversion H; subst.
        exists [i], [e], rest. repeat split.
        apply picks_take, picks_stop.
      * apply IH in H. destruct H as (rm1 & sel & keep & Hp & Hc & Hr).
        exists (i :: rm1), (e :: sel), keep. repeat split.
        -- apply picks_take, Hp.
        -- rewrite Hc, <- app_assoc. reflexivity.
        -- rewrite Hr, <- app_assoc. reflexivity.
    + apply IH in H. destruct H as (rm1 & sel & keep & Hp & Hc & Hr).
      exists rm1, sel, (e :: keep). repeat split; auto.
      apply picks_skip, Hp.
Qed.

(** The scan stops at [vertices_per_chunk] selected vertices, whatever the
    probabilities and the draws. *)
Lemma scan_pass_cap entries :
  forall i current_chunk vertices_to_remove k current_chunk' rm' k',
  (Z.of_nat (List.length current_chunk) < vertices_per_chunk)%Z ->
  scan entries i current_chunk vertices_to_remove k
    = Ok (current_chunk', rm', k') ->
  (Z.of_nat (List.length current_chunk') <= vertices_per_chunk)%Z.
Proof.
  subst scan.
  induction entries as [|e rest IH]; intros i cur rm k cur' rm' k' Hlt H.
  - simpl in H. inversion H; subst. lia.
  - simpl in H.
    destruct (final_probability _ _ _ _ _) as [p| |]; simpl in H;
      try discriminate.
    destruct (Qlt_bool (random k) p).
    + destruct (vertices_per_chunk <=? _)%Z eqn:E.
      * inversion H; subst. rewrite length_app. simpl. lia.
      * apply Z.leb_gt in E. eapply IH; [|exact H]. exact E.
    + eapply IH; [|exact H]. exact Hlt.
Qed.

Lemma scan_pass_ok entries :
  Qeq_bool max_distance 0 = false ->
  forall i current_chunk vertices_to_remove k,
  exists res, scan entries i current_chunk vertices_to_remove k = Ok res.
Proof.
  intro Hmd. subst scan.
  induction entries as [|e rest IH]; intros i cur rm k; simpl.
  - eauto.
  - destruct (final_probability_ok (distance_of e) Hmd) as [p Hp].
    subst probability. rewrite Hp. simpl.
    destruct (Qlt_bool (random k) p); [destruct (_ <=? _)%Z|]; eauto.
Qed.

Lemma scan_pass_raises e rest i current_chunk vertices_to_remove k :
  Qeq_bool max_distance 0 = true ->
  scan (e :: rest) i current_chunk vertices_to_remove k
    = Raise ZeroDivisionError.
Proof.
  intro Hmd. subst scan. simpl.
  pose proof (final_probability_raises (distance_of e) Hmd) as Hp.
  subst probability. rewrite Hp. reflexivity.
Qed.

(** A flush pass takes the entries in list order until the group is full:
    with [m] places left in the group, it takes the first [m] entries, or
    all of them when there are fewer. *)
Lemma scan_pass_flush entries :
  Qeq_bool max_distance 0 = false ->
  Qle_bool (inject_Z (Z.of_nat n_remaining))
           (inject_Z vertices_per_chunk * (15 # 10)) = true ->
  (forall j, random j < 1) ->
  forall i current_chunk vertices_to_remove k,
  (List.length current_chunk < Z.to_nat vertices_per_chunk)%nat ->
  let m := (Z.to_nat vertices_per_chunk - List.length current_chunk)%nat in
  scan entries i current_chunk vertices_to_remove k
    = Ok (current_chunk ++ map vertex_of (firstn m entries),
          vertices_to_remove ++ seq i (Nat.min m (List.length entries)),
          (k + Nat.min m (List.length entries))%nat).
Proof.
  intros Hmd Hflush Hdraw. subst scan.
  induction entries as [|e rest IH]; intros i cur rm k Hlt m.
  - simpl. rewrite firstn_nil, Nat.min_0_r. simpl.
    rewrite !app_nil_r, Nat.add_0_r. reflexivity.
  - simpl scan_pass.
    pose proof (final_probability_flush (distance_of e) Hmd Hflush) as Hp.
    subst probability. rewrite Hp. simpl bind.
    assert (Hsel : Qlt_bool (random k) 1 = true)
      by (apply Qlt_bool_iff, Hdraw).
    rewrite Hsel.
    destruct (vertices_per_chunk <=? _)%Z eqn:E.
    + apply Z.leb_le in E. rewrite length_app in E. simpl in E.
      assert (Hm : m = 1%nat) by (subst m; lia).
      rewrite Hm. simpl. rewrite Nat.add_1_r. reflexivity.
    + apply Z.leb_gt in E. rewrite length_app in E. simpl in E.
      rewrite IH by (rewrite length_app; simpl; lia).
      rewrite length_app. simpl List.length.
      assert (Hm : m = S (Z.to_nat vertices_per_chunk
                          - (List.length cur + 1))) by (subst m; lia).
      rewrite Hm. simpl.
      rewrite <- !app_assoc. simpl.
      repeat f_equal. lia.
Qed.

End PassFacts.

(** ** The [while] loop *)

Section LoopFacts.

Variable random : nat -> Q.
Variable vertices_per_chunk : Z.
Variable max_distance : Q.

Let loop fuel := chunk_loop random fuel vertices_per_chunk max_distance.

(** The groups a run of the loop appends: first the groups of the passes
    ([scanned]), then at most one group forced by a stall ([forced]).
    Together they are the entries that were remaining, each once; none is
    empty; a scanned group has at most [vertices_per_chunk] vertices. *)
Lemma chunk_loop_groups fuel :
  forall remaining_vertices chunk_num chunks k res k',
  loop fuel remaining_vertices chunk_num chunks k = Ok (res, k') ->
  exists scanned forced : list (list entry),
    res = chunks ++ map (map vertex_of) (scanned ++ forced) /\
    Permutation (concat (scanned ++ forced)) remaining_vertices /\
    Forall (fun group => group <> []) (scanned ++ forced) /\
    ((1 <= vertices_per_chunk)%Z ->
     Forall (fun group =>
               (Z.of_nat (List.length group) <= vertices_per_chunk)%Z)
            scanned) /\
    forced_by_stall random vertices_per_chunk max_distance forced.
Proof.
  subst loop.
  induction fuel as [|fuel IH]; intros rem cn chunks k res k' H.
  - discriminate.
  - simpl in H. destruct rem as [|e rest].
    + inversion H; subst. exists [], []. simpl.
      rewrite app_nil_r.
      split; [reflexivity|]. split; [constructor|]. split; [constructor|].
      split; [constructor|left; reflexivity].
    + destruct (scan_pass _ _ _ _ _ _ _ _ _ _) as [[[cur rm] k1]| |] eqn:Hscan;
        simpl in H; try discriminate.
      pose proof Hscan as Hcap.
      apply scan_pass_picks in Hscan.
      destruct Hscan as (rm1 & sel & keep & Hp & Hcur & Hrm).
      simpl in Hcur, Hrm. subst cur rm.
      pose proof (picks_pop_all Hp [] eq_refl) as Hpop. simpl in Hpop.
      rewrite Hpop in H. simpl in H.
      pose proof (picks_length Hp) as Hlen.
      pose proof (picks_perm Hp) as Hperm.
      destruct sel as [|s sel].
      * (* nothing selected: the pass stalls *)
        destruct rm1; [|discriminate].
        apply picks_none in Hp. subst keep.
        simpl in H. inversion H; subst.
        exists [], [e :: rest]. simpl. rewrite app_nil_r.
        split; [reflexivity|]. split; [apply Permutation_refl|].
        split; [constructor; [discriminate|constructor]|].
        split; [constructor|].
        right. exists (e :: rest). split; [reflexivity|].
        split; [discriminate|]. exists (cn + 1)%Z, k, k'. exact Hcap.
      * (* a group was selected *)
        destruct rm1 as [|i rm1]; [discriminate|].
        assert (Hsel : (1 <= vertices_per_chunk)%Z ->
                       (Z.of_nat (List.length (s :: sel))
                        <= vertices_per_chunk)%Z).
        { intro Hv. apply scan_pass_cap in Hcap; [|simpl; lia].
          simpl app in Hcap. rewrite length_map in Hcap. exact Hcap. }
        simpl in H.
        apply IH in H.
        destruct H as (scanned & forced & Hres & Hp' & Hne & Hcapr & Hf).
        exists ((s :: sel) :: scanned), forced.
        split; [rewrite Hres, <- app_assoc; reflexivity|].
        split.
        { simpl. eapply Permutation_trans; [|exact Hperm].
          simpl. apply perm_skip, Permutation_app_head, Hp'. }
        split; [simpl; constructor; [discriminate|exact Hne]|].
        split; [|exact Hf].
        intro Hv. constructor; auto.
Qed.

(** The loop returns once it has a unit of fuel more than there are
    remaining vertices, unless the division raises. *)
Lemma chunk_loop_fuel fuel :
  Qeq_bool max_distance 0 = false ->
  forall remaining_vertices chunk_num chunks k,
  (List.length remaining_vertices < fuel)%nat ->
  exists res, loop fuel remaining_vertices chunk_num chunks k = Ok res.
Proof.
  intro Hmd. subst loop.
  induction fuel as [|fuel IH]; intros rem cn chunks k Hfuel.
  - lia.
  - simpl. destruct rem as [|e rest]; [eauto|].
    destruct (@scan_pass_ok random vertices_per_chunk max_distance
                (List.length (e :: rest)) (cn + 1)%Z (e :: rest) Hmd
                0%nat [] [] k) as [[[cur rm] k1] Hscan].
    rewrite Hscan. simpl bind.
    apply scan_pass_picks in Hscan.
    destruct Hscan as (rm1 & sel & keep & Hp & Hcur & Hrm).
    simpl in Hcur, Hrm. subst cur rm.
    pose proof (picks_pop_all Hp [] eq_refl) as Hpop. simpl in Hpop.
    rewrite Hpop. simpl bind.
    destruct ((List.length rm1 =? 0)%nat && nonempty keep) eqn:E;
      [eauto|].
    apply IH. simpl.
    pose proof (picks_length Hp) as Hlen.
    pose proof (picks_keep_length Hp) as Hkeep.
    simpl in Hfuel, Hkeep.
    apply andb_false_iff in E. destruct E as [E|E].
    + apply Nat.eqb_neq in E. lia.
    + destruct keep; [simpl; lia|discriminate].
Qed.

Lemma chunk_loop_raises fuel e rest chunk_num chunks k :
  Qeq_bool max_distance 0 = true ->
  loop (S fuel) (e :: rest) chunk_num chunks k = Raise ZeroDivisionError.
Proof.
  intro Hmd. subst loop. cbn [chunk_loop].
  rewrite scan_pass_raises by exact Hmd. reflexivity.
Qed.

End LoopFacts.

(** ** Distances and the sort *)

Section MeasureFacts.

Variable sqrt : Q -> Q.

Lemma measure_from_spec vertices :
  forall i vertex_distances max_distance,
  measure_from sqrt i vertices vertex_distances max_distance
  = (vertex_distances ++ entries_from sqrt i vertices,
     fold_left (fun m vertex => pymax m (origin_distance sqrt vertex))
               vertices max_distance).
Proof.
  induction vertices as [|v rest IH]; intros i acc md; simpl.
  - rewrite app_nil_r. reflexivity.
  - rewrite IH, <- app_assoc. reflexivity.
Qed.

Lemma entries_from_length vertices :
  forall i, List.length (entries_from sqrt i vertices) = List.length vertices.
Proof. induction vertices; intro i; simpl; auto. Qed.

Lemma entries_from_indices vertices :
  forall i,
  map index_of (entries_from sqrt i vertices) = seq i (List.length vertices).
Proof.
  induction vertices as [|v rest IH]; intro i; simpl.
  - reflexivity.
  - rewrite IH. reflexivity.
Qed.

(** The index an entry carries is the position of its vertex in the
    input. *)
Lemma entries_from_lookup vertices :
  forall i e, In e (entries_from sqrt i vertices) ->
  (i <= index_of e)%nat /\
  nth_error vertices (index_of e - i) = Some (vertex_of e).
Proof.
  induction vertices as [|v rest IH]; intros i e Hin; simpl in Hin.
  - contradiction.
  - destruct Hin as [<-|Hin].
    + unfold index_of, vertex_of. simpl. rewrite Nat.sub_diag. auto.
    + apply IH in Hin. destruct Hin as [Hle Hnth]. split; [lia|].
      replace (index_of e - i)%nat with (S (index_of e - S i)) by lia.
      exact Hnth.
Qed.

Lemma max_distance_origin vertices :
  (forall q, q == 0 -> sqrt q == 0) ->
  Forall at_origin vertices ->
  forall m, m == 0 ->
  fold_left (fun m vertex => pymax m (origin_distance sqrt vertex))
            vertices m == 0.
Proof.
  intros Hsqrt Hall. induction Hall as [|v rest Hv _ IH]; intros m Hm; simpl.
  - exact Hm.
  - apply IH.
    assert (Hd : origin_distance sqrt v == 0).
    { unfold origin_distance. apply Hsqrt.
      destruct Hv as (Hx & Hy & Hz).
      apply fadd_zero; [apply fadd_zero|]; apply fmul_zero; assumption. }
    destruct (pymax_cases m (origin_distance sqrt v)) as [-> | ->];
      assumption.
Qed.

End MeasureFacts.

Lemma insert_by_distance_perm e l :
  Permutation (insert_by_distance e l) (e :: l).
Proof.
  induction l as [|h t IH]; simpl.
  - apply Permutation_refl.
  - destruct (Qlt_bool _ _).
    + eapply Permutation_trans; [apply perm_skip, IH|apply perm_swap].
    + apply Permutation_refl.
Qed.

Lemma sort_by_distance_perm l : Permutation (sort_by_distance l) l.
Proof.
  induction l as [|e l IH]; simpl.
  - apply Permutation_refl.
  - eapply Permutation_trans; [apply insert_by_distance_perm|].
    apply perm_skip, IH.
Qed.

Lemma sort_by_distance_length l :
  List.length (sort_by_distance l) = List.length l.
Proof. apply Permutation_length, sort_by_distance_perm. Qed.

(** The sort is ascending in the distance. *)
Lemma insert_by_distance_sorted e l :
  StronglySorted (fun a c => distance_of a <= distance_of c) l ->
  StronglySorted (fun a c => distance_of a <= distance_of c)
                 (insert_by_distance e l).
Proof.
  induction 1 as [|h t Ht IH Hh]; simpl.
  - repeat constructor.
  - destruct (Qlt_bool (distance_of h) (distance_of e)) eqn:E.
    + constructor; [exact IH|].
      apply Forall_forall. intros c Hc.
      apply (Permutation_in _ (insert_by_distance_perm e t)) in Hc.
      destruct Hc as [<-|Hc].
      * apply Qlt_le_weak, Qlt_bool_iff, E.
      * rewrite Forall_forall in Hh. apply Hh, Hc.
    + apply Qlt_bool_false_iff in E.
      constructor; [constructor; assumption|].
      constructor; [exact E|].
      apply Forall_forall. intros c Hc. rewrite Forall_forall in Hh.
      eapply Qle_trans; [exact E|apply Hh, Hc].
Qed.

Lemma sort_by_distance_sorted l :
  StronglySorted (fun a c => distance_of a <= distance_of c)
                 (sort_by_distance l).
Proof.
  induction l as [|e l IH]; simpl.
  - constructor.
  - apply insert_by_distance_sorted, IH.
Qed.

(** ** [chunk_vertices_radial] as a whole *)

Lemma vertices_per_chunk_positive self :
  (1 <= vertices_per_chunk_of self)%Z.
Proof. unfold vertices_per_chunk_of. apply Z.le_max_l. Qed.

Lemma Forall2_map_entries (vertices : list Vertex) (groups : list (list entry)) :
  (forall e, In e (concat groups) ->
             nth_error vertices (index_of e) = Some (vertex_of e)) ->
  Forall2 (fun ids group => map (nth_error vertices) ids = map Some group)
          (map (map index_of) groups) (map (map vertex_of) groups).
Proof.
  induction groups as [|grp groups IH]; intro H; simpl.
  - constructor.
  - constructor.
    + rewrite !map_map. apply map_ext_in. intros e He.
      apply H. simpl. apply in_or_app. left. exact He.
    + apply IH. intros e He. apply H. simpl. apply in_or_app. right. exact He.
Qed.

Section ChunkerFacts.

Variable sqrt : Q -> Q.
Variable random : nat -> Q.

Lemma chunk_vertices_radial_unfold self vertices k :
  chunk_vertices_radial sqrt random self vertices k
  = chunk_loop random (S (List.length vertices)) (vertices_per_chunk_of self)
               (max_distance_of sqrt vertices)
               (sort_by_distance (entries_from sqrt 0 vertices)) 0 [] k.
Proof.
  unfold chunk_vertices_radial. rewrite measure_from_spec. simpl app.
  rewrite sort_by_distance_length, entries_from_length. reflexivity.
Qed.

(** The groups returned, read as groups of entries of [vertex_distances]. *)
Lemma chunk_vertices_radial_groups self vertices k chunks k' :
  chunk_vertices_radial sqrt random self vertices k = Ok (chunks, k') ->
  exists scanned forced : list (list entry),
    chunks = map (map vertex_of) (scanned ++ forced) /\
    Permutation (concat (scanned ++ forced)) (entries_from sqrt 0 vertices) /\
    Forall (fun group => group <> []) (scanned ++ forced) /\
    Forall (fun group =>
              (Z.of_nat (List.length group) <= vertices_per_chunk_of self)%Z)
           scanned /\
    forced_by_stall random (vertices_per_chunk_of self)
                    (max_distance_of sqrt vertices) forced.
Proof.
  rewrite chunk_vertices_radial_unfold. intro H.
  apply chunk_loop_groups in H.
  destruct H as (scanned & forced & Hres & Hperm & Hne & Hcap & Hf).
  exists scanned, forced. repeat split; auto.
  - eapply Permutation_trans; [exact Hperm|apply sort_by_distance_perm].
  - apply Hcap, vertices_per_chunk_positive.
Qed.

(** Whenever the partitioner returns, its groups partition the input by
    position: every input position lies in exactly one group, once. *)
Theorem chunk_vertices_radial_partition self vertices k chunks k' :
  chunk_vertices_radial sqrt random self vertices k = Ok (chunks, k') ->
  partitions_by_index vertices chunks.
Proof.
  intro H. apply chunk_vertices_radial_groups in H.
  destruct H as (scanned & forced & Hres & Hperm & _).
  exists (map (map index_of) (scanned ++ forced)). split.
  - rewrite <- concat_map, <- (entries_from_indices sqrt vertices 0).
    apply Permutation_map, Hperm.
  - rewrite Hres. apply Forall2_map_entries. intros e He.
    apply (Permutation_in _ Hperm) in He.
    apply entries_from_lookup in He. destruct He as [_ He].
    rewrite Nat.sub_0_r in He. exact He.
Qed.

(** The same, on the values: the groups together are a rearrangement of
    the input list. *)
Lemma chunk_vertices_radial_perm self vertices k chunks k' :
  chunk_vertices_radial sqrt random self vertices k = Ok (chunks, k') ->
  Permutation (concat chunks) vertices.
Proof.
  intro H. apply chunk_vertices_radial_groups in H.
  destruct H as (scanned & forced & Hres & Hperm & _).
  rewrite Hres, <- concat_map.
  apply (Permutation_map vertex_of) in Hperm.
  eapply Permutation_trans; [exact Hperm|].
  clear. generalize 0%nat.
  induction vertices as [|v rest IH]; intro i; simpl.
  - constructor.
  - apply perm_skip, IH.
Qed.

(** The partitioner returns on every input on which the division does not
    raise: the fuel never runs out. *)
Theorem chunk_vertices_radial_returns self vertices k :
  vertices = [] \/ Qeq_bool (max_distance_of sqrt vertices) 0 = false ->
  exists chunks k',
    chunk_vertices_radial sqrt random self vertices k = Ok (chunks, k').
Proof.
  intros [-> | Hmd].
  - exists [], k. reflexivity.
  - rewrite chunk_vertices_radial_unfold.
    destruct (@chunk_loop_fuel random (vertices_per_chunk_of self)
                (max_distance_of sqrt vertices) (S (List.length vertices))
                Hmd (sort_by_distance (entries_from sqrt 0 vertices))
                0%Z [] k) as [[chunks k'] Hres].
    + rewrite sort_by_distance_length, entries_from_length. lia.
    + eauto.
Qed.

(** On a non-empty input whose largest distance is zero the first
    probability computed divides by zero. *)
Theorem chunk_vertices_radial_raises self vertices k :
  vertices <> [] ->
  Qeq_bool (max_distance_of sqrt vertices) 0 = true ->
  chunk_vertices_radial sqrt random self vertices k
  = Raise ZeroDivisionError.
Proof.
  intros Hne Hmd. rewrite chunk_vertices_radial_unfold.
  destruct (sort_by_distance (entries_from sqrt 0 vertices)) as [|e rest] eqn:E.
  - apply (f_equal (@List.length entry)) in E.
    rewrite sort_by_distance_length, entries_from_length in E.
    destruct vertices; [contradiction|discriminate].
  - apply chunk_loop_raises, Hmd.
Qed.

Lemma max_distance_all_origin vertices :
  (forall q, q == 0 -> sqrt q == 0) ->
  Forall at_origin vertices ->
  Qeq_bool (max_distance_of sqrt vertices) 0 = true.
Proof.
  intros Hsqrt Hall. apply Qeq_bool_iff.
  unfold max_distance_of. apply max_distance_origin; auto. reflexivity.
Qed.

End ChunkerFacts.

(** ** Bounding boxes *)

Lemma bbox_step_min a acc vertex :
  coord a (bb_min (bbox_step acc vertex))
  = pymin (coord a (bb_min acc)) (vcoord a vertex).
Proof. destruct a; reflexivity. Qed.

Lemma bbox_step_max a acc vertex :
  coord a (bb_max (bbox_step acc vertex))
  = pymax (coord a (bb_max acc)) (vcoord a vertex).
Proof. destruct a; reflexivity. Qed.

Lemma bbox_fold_min a vertices :
  forall acc,
  coord a (bb_min (fold_left bbox_step vertices acc))
  = fold_left pymin (map (vcoord a) vertices) (coord a (bb_min acc)).
Proof.
  induction vertices as [|v rest IH]; intro acc; simpl.
  - reflexivity.
  - rewrite IH, bbox_step_min. reflexivity.
Qed.

Lemma bbox_fold_max a vertices :
  forall acc,
  coord a (bb_max (fold_left bbox_step vertices acc))
  = fold_left pymax (map (vcoord a) vertices) (coord a (bb_max acc)).
Proof.
  induction vertices as [|v rest IH]; intro acc; simpl.
  - reflexivity.
  - rewrite IH, bbox_step_max. reflexivity.
Qed.

Lemma fold_pymin_is_min qs :
  forall q0, is_min (q0 :: qs) (fold_left pymin qs q0).
Proof.
  induction qs as [|q qs IH]; intro q0; simpl fold_left.
  - split; [|left; reflexivity].
    intros q [<-|[]]. apply Qle_refl.
  - destruct (IH (pymin q0 q)) as [Hlow Hin]. split.
    + intros c [<-|[<-|Hc]].
      * eapply Qle_trans; [apply Hlow; left; reflexivity|apply pymin_le_l].
      * eapply Qle_trans; [apply Hlow; left; reflexivity|apply pymin_le_r].
      * apply Hlow. right. exact Hc.
    + destruct Hin as [Hin|Hin].
      * rewrite <- Hin.
        destruct (pymin_cases q0 q) as [-> | ->]; simpl; auto.
      * right. right. exact Hin.
Qed.

Lemma fold_pymax_is_max qs :
  forall q0, is_max (q0 :: qs) (fold_left pymax qs q0).
Proof.
  induction qs as [|q qs IH]; intro q0; simpl fold_left.
  - split; [|left; reflexivity].
    intros q [<-|[]]. apply Qle_refl.
  - destruct (IH (pymax q0 q)) as [Hup Hin]. split.
    + intros c [<-|[<-|Hc]].
      * eapply Qle_trans; [apply pymax_ge_l|apply Hup; left; reflexivity].
      * eapply Qle_trans; [apply pymax_ge_r|apply Hup; left; reflexivity].
      * apply Hup. right. exact Hc.
    + destruct Hin as [Hin|Hin].
      * rewrite <- Hin.
        destruct (pymax_cases q0 q) as [-> | ->]; simpl; auto.
      * right. right. exact Hin.
Qed.

(** On a non-empty list the box holds, on each axis, the least and the
    greatest coordinate. *)
Lemma calculate_bounding_box_min a vertices :
  vertices <> [] ->
  is_min (map (vcoord a) vertices)
         (coord a (bb_min (calculate_bounding_box vertices))).
Proof.
  destruct vertices as [|v0 rest]; [contradiction|intros _].
  unfold calculate_bounding_box. rewrite bbox_fold_min.
  replace (coord a (bb_min _)) with (vcoord a v0) by (destruct a; reflexivity).
  apply fold_pymin_is_min.
Qed.

Lemma calculate_bounding_box_max a vertices :
  vertices <> [] ->
  is_max (map (vcoord a) vertices)
         (coord a (bb_max (calculate_bounding_box vertices))).
Proof.
  destruct vertices as [|v0 rest]; [contradiction|intros _].
  unfold calculate_bounding_box. rewrite bbox_fold_max.
  replace (coord a (bb_max _)) with (vcoord a v0) by (destruct a; reflexivity).
  apply fold_pymax_is_max.
Qed.

Lemma is_min_eq qs m m' :
  is_min qs m -> is_min qs m' -> m == m'.
Proof.
  intros [Hl Hi] [Hl' Hi']. apply Qle_antisym; auto.
Qed.

Lemma is_max_eq qs m m' :
  is_max qs m -> is_max qs m' -> m == m'.
Proof.
  intros [Hl Hi] [Hl' Hi']. apply Qle_antisym; auto.
Qed.

Lemma bbox_eq_axes (a c : BoundingBox) :
  (forall ax, coord ax (bb_min a) == coord ax (bb_min c)) ->
  (forall ax, coord ax (bb_max a) == coord ax (bb_max c)) ->
  bbox_eq a c.
Proof.
  intros Hmin Hmax. split; repeat split.
  - apply (Hmin AxisX).
  - apply (Hmin AxisY).
  - apply (Hmin AxisZ).
  - apply (Hmax AxisX).
  - apply (Hmax AxisY).
  - apply (Hmax AxisZ).
Qed.

Lemma anchor_points_coord a bbox vertex :
  In vertex (anchor_points bbox) ->
  vcoord a vertex = coord a (bb_min bbox) \/
  vcoord a vertex = coord a (bb_max bbox).
Proof.
  unfold anchor_points. simpl.
  intros H. repeat (destruct H as [<-|H]; [destruct a; simpl; auto|]).
  contradiction.
Qed.

Lemma anchor_points_min a bbox :
  In (coord a (bb_min bbox)) (map (vcoord a) (anchor_points bbox)).
Proof. left. destruct a; reflexivity. Qed.

Lemma anchor_points_max a bbox :
  In (coord a (bb_max bbox)) (map (vcoord a) (anchor_points bbox)).
Proof. do 7 right. left. destruct a; reflexivity. Qed.

(** The anchors pin the box of a chunk file: a group of vertices of the
    model, extended by the anchors of the model's box, has the model's
    box. *)
Lemma anchored_bounding_box vertices group :
  (forall vertex, In vertex group -> In vertex vertices) ->
  vertices <> [] ->
  bbox_eq (calculate_bounding_box
             (group ++ anchor_points (calculate_bounding_box vertices)))
          (calculate_bounding_box vertices).
Proof.
  intros Hsub Hne.
  set (overall := calculate_bounding_box vertices).
  assert (Hne' : group ++ anchor_points overall <> [])
    by (destruct group; discriminate).
  assert (Horder : forall a, coord a (bb_min overall) <= coord a (bb_max overall)).
  { intro a.
    destruct (calculate_bounding_box_min a Hne) as [Hlow _].
    destruct (calculate_bounding_box_max a Hne) as [Hup _].
    destruct vertices as [|v0 rest]; [contradiction|].
    eapply Qle_trans; [apply Hlow|apply Hup]; left; reflexivity. }
  apply bbox_eq_axes; intro a.
  - destruct (calculate_bounding_box_min a Hne') as [Hlow Hin].
    destruct (calculate_bounding_box_min a Hne) as [Hlow0 _].
    apply Qle_antisym.
    + apply Hlow. rewrite map_app. apply in_or_app. right.
      apply anchor_points_min.
    + apply in_map_iff in Hin. destruct Hin as (v & Hv & Hin).
      fold overall. rewrite <- Hv.
      apply in_app_or in Hin. destruct Hin as [Hin|Hin].
      * apply Hlow0, in_map, Hsub, Hin.
      * destruct (anchor_points_coord a Hin) as [-> | ->];
          [apply Qle_refl|apply Horder].
  - destruct (calculate_bounding_box_max a Hne') as [Hup Hin].
    destruct (calculate_bounding_box_max a Hne) as [Hup0 _].
    apply Qle_antisym.
    + apply in_map_iff in Hin. destruct Hin as (v & Hv & Hin).
      fold overall. rewrite <- Hv.
      apply in_app_or in Hin. destruct Hin as [Hin|Hin].
      * apply Hup0, in_map, Hsub, Hin.
      * destruct (anchor_points_coord a Hin) as [-> | ->];
          [apply Horder|apply Qle_refl].
    + apply Hup. rewrite map_app. apply in_or_app. right.
      apply anchor_points_max.
Qed.

(** ** Scaling *)

Lemma Qlt_bool_compat (a a' c c' : Q) :
  a == a' -> c == c' -> Qlt_bool a c = Qlt_bool a' c'.
Proof.
  intros Ha Hc.
  destruct (Qlt_bool a c) eqn:E1, (Qlt_bool a' c') eqn:E2; auto; exfalso.
  - apply Qlt_bool_iff in E1. apply Qlt_bool_false_iff in E2.
    rewrite Ha, Hc in E1. exact (Qlt_not_le _ _ E1 E2).
  - apply Qlt_bool_iff in E2. apply Qlt_bool_false_iff in E1.
    rewrite Ha, Hc in E1. exact (Qlt_not_le _ _ E2 E1).
Qed.

Lemma pymax_compat (a a' c c' : Q) :
  a == a' -> c == c' -> pymax a c == pymax a' c'.
Proof.
  intros Ha Hc. unfold pymax.
  rewrite (Qlt_bool_compat Ha Hc). destruct (Qlt_bool a' c'); assumption.
Qed.

Lemma fmul_le_r (s a c : Q) : 0 <= s -> a <= c -> fmul a s <= fmul c s.
Proof.
  intros Hs Hac. apply round_double_le, Qmult_le_compat_r; assumption.
Qed.

Lemma in_map_fmul (s q : Q) qs :
  In q (map (fun c => fmul c s) qs) -> exists c, q = fmul c s /\ In c qs.
Proof.
  intro H. apply in_map_iff in H. destruct H as (c & <- & Hc). eauto.
Qed.

Lemma is_min_scale (s : Q) qs m :
  0 <= s -> is_min qs m -> is_min (map (fun c => fmul c s) qs) (fmul m s).
Proof.
  intros Hs [Hlow Hin]. split.
  - intros q Hq. apply in_map_fmul in Hq. destruct Hq as (c & -> & Hc).
    apply fmul_le_r; auto.
  - apply (in_map (fun c => fmul c s)), Hin.
Qed.

Lemma is_max_scale (s : Q) qs m :
  0 <= s -> is_max qs m -> is_max (map (fun c => fmul c s) qs) (fmul m s).
Proof.
  intros Hs [Hup Hin]. split.
  - intros q Hq. apply in_map_fmul in Hq. destruct Hq as (c & -> & Hc).
    apply fmul_le_r; auto.
  - apply (in_map (fun c => fmul c s)), Hin.
Qed.

Lemma vcoord_scale_vertex a (s : Q) vertices :
  map (vcoord a) (map (scale_vertex s) vertices)
  = map (fun c => fmul c s) (map (vcoord a) vertices).
Proof.
  rewrite !map_map. apply map_ext. intro v. destruct a; reflexivity.
Qed.

Lemma coord_scale_coords a (s : Q) p :
  coord a (scale_coords s p) = fmul (coord a p) s.
Proof. destruct a; reflexivity. Qed.

(** Scaling by a factor that is not negative scales the box: rounding
    keeps the order of the coordinates. *)
Lemma calculate_bounding_box_scale (s : Q) vertices :
  0 <= s -> vertices <> [] ->
  bbox_eq (calculate_bounding_box (map (scale_vertex s) vertices))
          (scale_box s (calculate_bounding_box vertices)).
Proof.
  intros Hs Hne.
  assert (Hne' : map (scale_vertex s) vertices <> [])
    by (destruct vertices; [contradiction|discriminate]).
  apply bbox_eq_axes; intro a; unfold scale_box; simpl bb_min; simpl bb_max;
    rewrite coord_scale_coords.
  - pose proof (calculate_bounding_box_min a Hne') as H1.
    rewrite vcoord_scale_vertex in H1.
    exact (is_min_eq H1 (is_min_scale Hs (calculate_bounding_box_min a Hne))).
  - pose proof (calculate_bounding_box_max a Hne') as H1.
    rewrite vcoord_scale_vertex in H1.
    exact (is_max_eq H1 (is_max_scale Hs (calculate_bounding_box_max a Hne))).
Qed.

Lemma max_dimension_of_compat (a c : BoundingBox) :
  bbox_eq a c -> max_dimension_of a == max_dimension_of c.
Proof.
  intros [(Hx & Hy & Hz) (Hx' & Hy' & Hz')]. unfold max_dimension_of.
  apply pymax_compat; [apply pymax_compat|]; apply fsub_compat; assumption.
Qed.

(** The factor of a model wider than 50: between 0 and the float [0.4]. *)
Lemma scale_factor_range (extent : Q) :
  50 < extent -> 0 <= fdiv 20 extent /\ fdiv 20 extent <= round_double (4 # 10).
Proof.
  intro H. assert (Hpos : 0 < extent) by lra.
  unfold fdiv. split.
  - rewrite <- (round_double_zero (Qeq_refl 0)). apply round_double_le.
    apply Qle_shift_div_l; [exact Hpos|]. lra.
  - apply round_double_le. apply Qle_shift_div_r; [exact Hpos|]. lra.
Qed.

(** *** The size of a scaled box *)

Section ScaledSize.

Variables a b e : Q.
Hypothesis bounds_ordered : a <= b.
Hypothesis extent_wide : 50 < e.
Hypothesis extent_finite : e <= 2 ^ 1024.

Let s := fdiv 20 e.
Let reach := Qabs (a * s) + Qabs (b * s).

Lemma scale_factor_error :
  20 / e * (1 - unit_roundoff) <= s /\ s <= 20 / e * (1 + unit_roundoff).
Proof.
  assert (He : 0 < e) by lra.
  assert (Hq : 2 ^ (-1022) <= 20 / e).
  { apply Qle_shift_div_l; [exact He|].
    apply Qle_trans with (2 ^ (-1022) * 2 ^ 1024).
    - apply Qmult_le_l; [apply pow2_pos|exact extent_finite].
    - rewrite <- pow2_plus. vm_compute. discriminate. }
  pose proof (round_double_error_normal Hq) as H.
  apply Qabs_Qle_condition in H. destruct H as [H1 H2].
  unfold s, fdiv. split; lra.
Qed.

Lemma scale_factor_small : 0 <= s /\ 20 / e <= 1.
Proof.
  assert (He : 0 < e) by lra.
  assert (H : 20 / e <= 1)
    by (apply Qle_shift_div_r; [exact He|lra]).
  assert (H0 : 0 <= 20 / e)
    by (apply Qle_shift_div_l; [exact He|lra]).
  destruct scale_factor_error as [Hlo _].
  split; [|exact H].
  apply Qle_trans with (20 / e * (1 - unit_roundoff)); [|exact Hlo].
  apply Qmult_le_0_compat; [exact H0|vm_compute; discriminate].
Qed.

(** The exact product of the size and the factor, from the float size. *)
Lemma exact_scaled_size_upper :
  fsub b a <= e ->
  (1 - unit_roundoff) * ((b - a) * s)
  <= (20 + least_quantum_half) * (1 + unit_roundoff).
Proof.
  intro Hsize.
  assert (He : 0 < e) by lra.
  destruct scale_factor_small as [Hs Hq].
  destruct scale_factor_error as [_ Hhi].
  destruct (round_double_between (b - a)) as [Hlo _].
  rewrite (Qabs_pos (b - a)) in Hlo by lra.
  fold (fsub b a) in Hlo.
  assert (H1 : (1 - unit_roundoff) * (b - a) <= e + least_quantum_half)
    by lra.
  apply Qle_trans with ((e + least_quantum_half) * s).
  - setoid_replace ((1 - unit_roundoff) * ((b - a) * s))
      with ((1 - unit_roundoff) * (b - a) * s) by ring.
    apply Qmult_le_compat_r; assumption.
  - apply Qle_trans
      with ((e + least_quantum_half) * (20 / e * (1 + unit_roundoff))).
    + apply Qmult_le_l; [|exact Hhi].
      assert (0 < least_quantum_half) by reflexivity. lra.
    + setoid_replace ((e + least_quantum_half)
                      * (20 / e * (1 + unit_roundoff)))
        with ((20 + least_quantum_half * (20 / e)) * (1 + unit_roundoff))
        by (field; lra).
      apply Qmult_le_compat_r; [|vm_compute; discriminate].
      assert (least_quantum_half * (20 / e) <= least_quantum_half * 1)
        by (apply Qmult_le_l; [reflexivity|exact Hq]).
      lra.
Qed.

Lemma exact_scaled_size_lower :
  fsub b a == e ->
  (20 - least_quantum_half) * (1 - unit_roundoff)
  <= (1 + unit_roundoff) * ((b - a) * s).
Proof.
  intro Hsize.
  assert (He : 0 < e) by lra.
  destruct scale_factor_small as [Hs Hq].
  destruct scale_factor_error as [Hlo _].
  destruct (round_double_between (b - a)) as [_ Hhi].
  rewrite (Qabs_pos (b - a)) in Hhi by lra.
  fold (fsub b a) in Hhi. rewrite Hsize in Hhi.
  assert (H1 : e - least_quantum_half <= (1 + unit_roundoff) * (b - a))
    by lra.
  apply Qle_trans with ((e - least_quantum_half) * s).
  - apply Qle_trans
      with ((e - least_quantum_half) * (20 / e * (1 - unit_roundoff))).
    + setoid_replace ((e - least_quantum_half)
                      * (20 / e * (1 - unit_roundoff)))
        with ((20 - least_quantum_half * (20 / e)) * (1 - unit_roundoff))
        by (field; lra).
      apply Qmult_le_compat_r; [|vm_compute; discriminate].
      assert (least_quantum_half * (20 / e) <= least_quantum_half * 1)
        by (apply Qmult_le_l; [reflexivity|exact Hq]).
      lra.
    + apply Qmult_le_l; [|exact Hlo].
      assert (least_quantum_half < 50) by reflexivity. lra.
  - setoid_replace ((1 + unit_roundoff) * ((b - a) * s))
      with ((1 + unit_roundoff) * (b - a) * s) by ring.
    apply Qmult_le_compat_r; assumption.
Qed.

(** The float size of the scaled bounds, from the exact product. *)
Lemma scaled_size_error :
  let size := (b - a) * s in
  let slack := unit_roundoff * reach + 2 * least_quantum_half in
  (1 - unit_roundoff) * size - (1 + unit_roundoff) * slack
  - least_quantum_half
  <= fsub (fmul b s) (fmul a s) /\
  fsub (fmul b s) (fmul a s)
  <= (1 + unit_roundoff) * (size + slack) + least_quantum_half.
Proof.
  intros size slack.
  destruct scale_factor_small as [Hs _].
  assert (Hsize : 0 <= size)
    by (apply Qmult_le_0_compat; [lra|exact Hs]).
  destruct (round_double_between (a * s)) as [A1 A2].
  destruct (round_double_between (b * s)) as [B1 B2].
  fold (fmul a s) in A1, A2. fold (fmul b s) in B1, B2.
  assert (Hdiff : b * s - a * s == size) by (unfold size; ring).
  set (pa := Qabs (a * s)) in *. set (pb := Qabs (b * s)) in *.
  assert (Hreach : reach == pa + pb) by reflexivity.
  assert (Hpa : 0 <= pa) by apply Qabs_nonneg.
  assert (Hpb : 0 <= pb) by apply Qabs_nonneg.
  set (D := fmul b s - fmul a s).
  assert (D1 : size - slack <= D)
    by (unfold D, slack, unit_roundoff, least_quantum_half in *; lra).
  assert (D2 : D <= size + slack)
    by (unfold D, slack, unit_roundoff, least_quantum_half in *; lra).
  assert (Hslack : 0 <= slack).
  { unfold slack. assert (0 <= least_quantum_half) by discriminate.
    assert (0 <= unit_roundoff * reach)
      by (apply Qmult_le_0_compat; [discriminate|lra]).
    lra. }
  assert (HabsD : Qabs D <= size + slack)
    by (apply Qabs_Qle_condition; split; lra).
  destruct (round_double_between D) as [S1 S2].
  change (round_double D) with (fsub (fmul b s) (fmul a s)) in S1, S2.
  assert (HuD : unit_roundoff * Qabs D <= unit_roundoff * (size + slack))
    by (apply Qmult_le_l; [reflexivity|exact HabsD]).
  assert (HuD0 : 0 <= unit_roundoff * Qabs D)
    by (apply Qmult_le_0_compat; [discriminate|apply Qabs_nonneg]).
  set (uD := unit_roundoff * Qabs D) in *.
  unfold slack, unit_roundoff, least_quantum_half in *.
  split; lra.
Qed.

Lemma scaled_size_upper :
  fsub b a <= e ->
  fsub (fmul b s) (fmul a s) <= 20 + scaling_tolerance reach.
Proof.
  intro Hsize. pose proof (exact_scaled_size_upper Hsize) as HX.
  destruct scaled_size_error as [_ H]. cbv zeta in H.
  assert (Hreach : 0 <= reach).
  { unfold reach. pose proof (Qabs_nonneg (a * s)).
    pose proof (Qabs_nonneg (b * s)). lra. }
  set (X := (b - a) * s) in *. unfold scaling_tolerance.
  unfold unit_roundoff, least_quantum_half, rounding_rate, rounding_slack
    in *.
  lra.
Qed.

Lemma scaled_size_lower :
  fsub b a == e ->
  20 - scaling_tolerance reach <= fsub (fmul b s) (fmul a s).
Proof.
  intro Hsize. pose proof (exact_scaled_size_lower Hsize) as HX.
  assert (Hle : fsub b a <= e) by (rewrite Hsize; apply Qle_refl).
  pose proof (exact_scaled_size_upper Hle) as HX'.
  destruct scaled_size_error as [H _]. cbv zeta in H.
  assert (Hreach : 0 <= reach).
  { unfold reach. pose proof (Qabs_nonneg (a * s)).
    pose proof (Qabs_nonneg (b * s)). lra. }
  set (X := (b - a) * s) in *. unfold scaling_tolerance.
  unfold unit_roundoff, least_quantum_half, rounding_rate, rounding_slack
    in *.
  lra.
Qed.

End ScaledSize.

Lemma pymax3_cases (p q r : Q) :
  let m := pymax (pymax p q) r in
  (m = p \/ m = q \/ m = r) /\ p <= m /\ q <= m /\ r <= m.
Proof.
  intro m. subst m.
  pose proof (pymax_ge_l p q). pose proof (pymax_ge_r p q).
  pose proof (pymax_ge_l (pymax p q) r). pose proof (pymax_ge_r (pymax p q) r).
  split; [|repeat split; lra].
  destruct (pymax_cases (pymax p q) r) as [-> | ->]; [|auto].
  destruct (pymax_cases p q) as [-> | ->]; auto.
Qed.

Lemma scaling_tolerance_le (r r' : Q) :
  r <= r' -> scaling_tolerance r <= scaling_tolerance r'.
Proof.
  intro H. unfold scaling_tolerance, rounding_rate, rounding_slack. lra.
Qed.

Lemma reach_scaled (a b s : Q) :
  0 <= s -> Qabs (a * s) + Qabs (b * s) == (Qabs a + Qabs b) * s.
Proof.
  intro Hs. rewrite !Qabs_Qmult, (Qabs_pos s) by exact Hs. ring.
Qed.

(** The largest size of a box wider than 50, once its bounds are scaled,
    is 20 up to the tolerance of its reach. *)
Lemma scaled_extent_tolerance (bbox : BoundingBox) :
  (forall a, coord a (bb_min bbox) <= coord a (bb_max bbox)) ->
  let extent := max_dimension_of bbox in
  let scale_factor := fdiv 20 extent in
  50 < extent -> extent <= 2 ^ 1024 ->
  Qabs (max_dimension_of (scale_box scale_factor bbox) - 20)
  <= scaling_tolerance (scale_factor * box_reach bbox).
Proof.
  intros Hbox extent s Hwide Hfinite.
  pose proof (Hbox AxisX) as Hx. pose proof (Hbox AxisY) as Hy.
  pose proof (Hbox AxisZ) as Hz. simpl in Hx, Hy, Hz.
  destruct (scale_factor_small Hwide Hfinite) as [Hs _]. fold s in Hs.
  unfold max_dimension_of, scale_box, scale_coords.
  cbn [bb_min bb_max cx cy cz].
  set (ax := cx (bb_min bbox)) in *. set (bx := cx (bb_max bbox)) in *.
  set (ay := cy (bb_min bbox)) in *. set (by' := cy (bb_max bbox)) in *.
  set (az := cz (bb_min bbox)) in *. set (bz := cz (bb_max bbox)) in *.
  assert (Hext : extent
                 = pymax (pymax (fsub bx ax) (fsub by' ay)) (fsub bz az))
    by reflexivity.
  destruct (pymax3_cases (fsub bx ax) (fsub by' ay) (fsub bz az))
    as (Hwhich & Hpx & Hpy & Hpz).
  cbv zeta in Hwhich, Hpx, Hpy, Hpz. rewrite <- Hext in *.
  assert (Hreach : box_reach bbox
                   == (Qabs ax + Qabs bx) + (Qabs ay + Qabs by')
                      + (Qabs az + Qabs bz))
    by (unfold box_reach; fold ax bx ay by' az bz; ring).
  pose proof (Qabs_nonneg ax). pose proof (Qabs_nonneg bx).
  pose proof (Qabs_nonneg ay). pose proof (Qabs_nonneg by').
  pose proof (Qabs_nonneg az). pose proof (Qabs_nonneg bz).
  assert (Rx : Qabs (ax * s) + Qabs (bx * s) <= s * box_reach bbox).
  { rewrite (reach_scaled _ _ Hs), Hreach, (Qmult_comm s).
    apply Qmult_le_compat_r; [lra|exact Hs]. }
  assert (Ry : Qabs (ay * s) + Qabs (by' * s) <= s * box_reach bbox).
  { rewrite (reach_scaled _ _ Hs), Hreach, (Qmult_comm s).
    apply Qmult_le_compat_r; [lra|exact Hs]. }
  assert (Rz : Qabs (az * s) + Qabs (bz * s) <= s * box_reach bbox).
  { rewrite (reach_scaled _ _ Hs), Hreach, (Qmult_comm s).
    apply Qmult_le_compat_r; [lra|exact Hs]. }
  apply scaling_tolerance_le in Rx, Ry, Rz.
  pose proof (scaled_size_upper Hx Hwide Hfinite Hpx) as Ux.
  pose proof (scaled_size_upper Hy Hwide Hfinite Hpy) as Uy.
  pose proof (scaled_size_upper Hz Hwide Hfinite Hpz) as Uz.
  fold s in Ux, Uy, Uz.
  destruct (pymax3_cases (fsub (fmul bx s) (fmul ax s))
                         (fsub (fmul by' s) (fmul ay s))
                         (fsub (fmul bz s) (fmul az s)))
    as (Hwhich' & Hpx' & Hpy' & Hpz').
  cbv zeta in Hwhich', Hpx', Hpy', Hpz'.
  set (m' := pymax (pymax (fsub (fmul bx s) (fmul ax s))
                          (fsub (fmul by' s) (fmul ay s)))
                   (fsub (fmul bz s) (fmul az s))) in *.
  apply Qabs_Qle_condition. split.
  - destruct Hwhich as [E|[E|E]].
    + assert (E' : fsub bx ax == extent) by (rewrite E; reflexivity).
      pose proof (scaled_size_lower Hx Hwide Hfinite E') as L.
      fold s in L. lra.
    + assert (E' : fsub by' ay == extent) by (rewrite E; reflexivity).
      pose proof (scaled_size_lower Hy Hwide Hfinite E') as L.
      fold s in L. lra.
    + assert (E' : fsub bz az == extent) by (rewrite E; reflexivity).
      pose proof (scaled_size_lower Hz Hwide Hfinite E') as L.
      fold s in L. lra.
  - destruct Hwhich' as [E|[E|E]]; rewrite E; lra.
Qed.

Lemma max_dimension_of_empty :
  max_dimension_of (calculate_bounding_box []) = 0.
Proof. reflexivity. Qed.

(** ** Writing the chunks *)

Lemma pack_all_ok chunk_vertices written :
  pack_all chunk_vertices = Ok written -> written = chunk_vertices.
Proof.
  revert written. induction chunk_vertices as [|v rest IH]; intros w H.
  - inversion H. reflexivity.
  - simpl in H. unfold pack_vertex in H.
    destruct (pack_float32 (x v)); simpl in H; try discriminate.
    destruct (pack_float32 (y v)); simpl in H; try discriminate.
    destruct (pack_float32 (z v)); simpl in H; try discriminate.
    destruct (pack_uchar (r v)); simpl in H; try discriminate.
    destruct (pack_uchar (g v)); simpl in H; try discriminate.
    destruct (pack_uchar (b v)); simpl in H; try discriminate.
    destruct (pack_all rest) as [w'| |]; simpl in H; try discriminate.
    inversion H. f_equal. apply IH. reflexivity.
Qed.

Lemma write_ply_chunk_records vertices overall_bbox file file_size :
  write_ply_chunk vertices (Some overall_bbox) = Ok (file, file_size) ->
  records file = vertices ++ anchor_points overall_bbox.
Proof.
  unfold write_ply_chunk. simpl chunk_vertices_of.
  destruct (pack_all _) as [w| |] eqn:E; simpl; try discriminate.
  intro H. inversion H. simpl. apply pack_all_ok, E.
Qed.

(** What the writing loop adds: one descriptor and one file per group, in
    order; the descriptor counts and boxes the group alone, the file holds
    the group and the anchors. *)
Lemma write_chunks_spec base_name overall_bbox vertex_chunks :
  forall i chunk_infos files chunk_infos' files',
  write_chunks base_name overall_bbox i vertex_chunks chunk_infos files
    = Ok (chunk_infos', files') ->
  exists new_infos new_files,
    chunk_infos' = chunk_infos ++ new_infos /\
    files' = files ++ new_files /\
    Forall2 (fun group info =>
               ci_vertex_count info = List.length group /\
               bounding_box info = calculate_bounding_box group)
            vertex_chunks new_infos /\
    Forall2 (fun info file =>
               exists group,
                 In group vertex_chunks /\
                 records (snd file) = group ++ anchor_points overall_bbox /\
                 ci_vertex_count info = List.length group /\
                 bounding_box info = calculate_bounding_box group /\
                 filename info = fst file)
            new_infos new_files.
Proof.
  induction vertex_chunks as [|group rest IH];
    intros i infos files infos' files' H; simpl in H.
  - inversion H; subst. exists [], []. rewrite !app_nil_r.
    repeat split; constructor.
  - destruct (write_ply_chunk group (Some overall_bbox)) as [[file size]| |]
      eqn:Hw; simpl in H; try discriminate.
    apply IH in H.
    destruct H as (new_infos & new_files & Hi & Hf & Hcount & Hfiles).
    eexists (_ :: new_infos), (_ :: new_files).
    rewrite <- !app_assoc in Hi, Hf. simpl in Hi, Hf.
    split; [exact Hi|]. split; [exact Hf|]. split.
    + constructor; [simpl; auto|exact Hcount].
    + constructor.
      * exists group. simpl. repeat split; auto.
        apply write_ply_chunk_records in Hw. exact Hw.
      * eapply Forall2_impl; [|exact Hfiles].
        intros info f (grp & Hin & Hrest). exists grp. split; [right|]; auto.
Qed.

(** ** The header loop *)

Lemma readline_rest_length f :
  (String.length (snd (readline f)) <= pred (String.length f))%nat.
Proof.
  induction f as [|c rest IH]; simpl.
  - lia.
  - destruct (Ascii.eqb c newline); simpl.
    + lia.
    + destruct (readline rest) as [line f']. simpl in *. lia.
Qed.

(** At the end of the file [readline] returns the empty line for ever, and
    the loop goes on reading it. *)
Lemma read_header_eof fuel :
  forall header_lines header_size,
  read_header fuel EmptyString header_lines header_size = OutOfFuel.
Proof.
  induction fuel as [|fuel IH]; intros lines size; simpl.
  - reflexivity.
  - apply IH.
Qed.

(** When no line of the file ends the header and every line decodes, the
    loop does not end, whatever the fuel. *)
Lemma read_header_loops fuel :
  forall n f header_lines header_size,
  (String.length f <= n)%nat ->
  forallb continues_header (lines_from n f) = true ->
  read_header fuel f header_lines header_size = OutOfFuel.
Proof.
  induction fuel as [|fuel IH]; intros n f lines size Hn Hall.
  - reflexivity.
  - destruct f as [|c rest].
    + apply read_header_eof.
    + destruct n as [|n]; [simpl in Hn; lia|].
      cbn [read_header lines_from] in *.
      pose proof (readline_rest_length (String c rest)) as Hlen.
      destruct (readline (String c rest)) as [line f'].
      cbn [forallb] in Hall. apply andb_true_iff in Hall.
      destruct Hall as [Hline Hall].
      unfold continues_header in Hline.
      destruct (decode_ascii line) as [line_str| |]; try discriminate.
      cbn [bind]. apply negb_true_iff in Hline. rewrite Hline.
      apply (IH n); [|exact Hall].
      simpl in Hlen, Hn. lia.
Qed.

Lemma analyze_ply_file_loops int f :
  forallb continues_header (file_lines f) = true ->
  forall fuel, analyze_ply_file int fuel f = OutOfFuel.
Proof.
  intros Hall fuel. unfold analyze_ply_file.
  rewrite (@read_header_loops fuel (String.length f) f [] 0%nat);
    [reflexivity|lia|exact Hall].
Qed.

(** A non-ASCII byte met before any [end_header] line raises. *)
Lemma read_header_decode_error fuel f header_lines header_size :
  decode_ascii (fst (readline f)) = Raise UnicodeDecodeError ->
  read_header (S fuel) f header_lines header_size = Raise UnicodeDecodeError.
Proof.
  intro H. cbn [read_header].
  destruct (readline f) as [line f']. simpl in H. rewrite H. reflexivity.
Qed.

(** ** The pipeline *)

Lemma normalize_scale_length vertices :
  List.length (snd (normalize_scale vertices)) = List.length vertices.
Proof.
  unfold normalize_scale. destruct (Qlt_bool 50 _); simpl.
  - apply length_map.
  - reflexivity.
Qed.

Lemma firstn_min {A : Type} (n : nat) (l : list A) :
  firstn (Nat.min n (List.length l)) l = firstn n l.
Proof.
  destruct (Nat.le_ge_cases n (List.length l)) as [H|H].
  - rewrite Nat.min_l by exact H. reflexivity.
  - rewrite Nat.min_r by exact H.
    rewrite firstn_all, firstn_all2 by exact H. reflexivity.
Qed.

(** Taking a prefix is a selection: the positions are the first ones and the
    rest is kept. *)
Lemma picks_prefix {A : Type} (l : list A) :
  forall i m,
  picks i l (seq i (Nat.min m (List.length l))) (firstn m l) (skipn m l).
Proof.
  induction l as [|a l IH]; intros i m.
  - rewrite Nat.min_0_r, firstn_nil, skipn_nil. constructor.
  - destruct m as [|m]; simpl.
    + constructor.
    + apply picks_take, IH.
Qed.

Section PipelineFacts.

Variable sqrt : Q -> Q.
Variable random : nat -> Q.

Lemma chunk_vertices_radial_no_empty_group self vertices k chunks k' :
  chunk_vertices_radial sqrt random self vertices k = Ok (chunks, k') ->
  Forall (fun group => group <> []) chunks.
Proof.
  intro H. apply chunk_vertices_radial_groups in H.
  destruct H as (scanned & forced & Hres & _ & Hne & _).
  subst chunks. apply Forall_map.
  eapply Forall_impl; [|exact Hne].
  intros [|e grp] Hg; [contradiction|discriminate].
Qed.

Lemma chunk_vertices_radial_group_incl self vertices k chunks k' :
  chunk_vertices_radial sqrt random self vertices k = Ok (chunks, k') ->
  forall group vertex, In group chunks -> In vertex group -> In vertex vertices.
Proof.
  intros H group v Hg Hv.
  apply (Permutation_in _ (chunk_vertices_radial_perm _ _ _ _ _ H)).
  apply in_concat. eauto.
Qed.

(** The steps of [chunk_ply_file] after decoding, one by one. *)
Lemma chunk_ply_file_steps self input_name base_name vertices k
      manifest files k' :
  chunk_ply_file sqrt random self input_name base_name vertices k
    = Ok (manifest, files, k') ->
  let scaled := snd (normalize_scale vertices) in
  let overall_bbox := calculate_bounding_box scaled in
  exists vertex_chunks chunk_infos,
    chunk_vertices_radial sqrt random self scaled k = Ok (vertex_chunks, k') /\
    write_chunks base_name overall_bbox 0 vertex_chunks [] []
      = Ok (chunk_infos, files) /\
    manifest = mkManifest input_name (List.length scaled)
                          (List.length chunk_infos) overall_bbox
                          (target_chunk_size_mb self)
                          (map manifest_chunk chunk_infos).
Proof.
  unfold chunk_ply_file.
  destruct (normalize_scale vertices) as [scale_factor scaled]. simpl snd.
  destruct (chunk_vertices_radial _ _ _ _ _) as [[vertex_chunks k1]| |];
    simpl; try discriminate.
  destruct (write_chunks _ _ _ _ _ _) as [[chunk_infos files1]| |] eqn:Hw;
    simpl; try discriminate.
  intro H. inversion H; subst. eauto.
Qed.

End PipelineFacts.

Lemma sqrt_milli_zero (q : Q) : q == 0 -> sqrt_milli q == 0.
Proof.
  intro H. unfold Qeq in H. simpl in H. rewrite Z.mul_1_r in H.
  unfold sqrt_milli. rewrite H. reflexivity.
Qed.

(** * The claims *)

(** C1 (the code departs from the claim).  A single vertex at the origin is
    a non-empty input on which [chunk_vertices_radial] returns no groups at
    all: the first probability it computes divides the distance by
    [max_distance], which is zero, and the call raises [ZeroDivisionError].
    The vertex is therefore in no group.  On every input on which the call
    returns, the groups do partition the input by position
    ([chunk_vertices_radial_partition]). *)
Theorem chunk_vertices_radial_origin_vertex
        (sqrt : Q -> Q) (random : nat -> Q) (self : PLYChunker) (k : nat) :
  sqrt 0 == 0 ->
  chunk_vertices_radial sqrt random self [Vertex6 0 0 0 255 255 255] k
  = Raise ZeroDivisionError.
Proof.
  intro Hsqrt. apply chunk_vertices_radial_raises; [discriminate|].
  apply Qeq_bool_iff. unfold max_distance_of, origin_distance.
  cbn [fold_left x y z Vertex6].
  change (fadd (fadd (fmul 0 0) (fmul 0 0)) (fmul 0 0)) with 0.
  destruct (pymax_cases 0 (sqrt 0)) as [-> | ->];
    [reflexivity|exact Hsqrt].
Qed.

Lemma chunk_vertices_radial_origin_vertex_witness :
  sqrt_milli 0 == 0 /\
  chunk_vertices_radial sqrt_milli draws_half chunker_of_two
                        [Vertex6 0 0 0 255 255 255] 0
  = Raise ZeroDivisionError.
Proof.
  split; [reflexivity|].
  apply (chunk_vertices_radial_origin_vertex sqrt_milli draws_half
           chunker_of_two 0).
  reflexivity.
Defined.

(** C2 (the code departs from the claim).  When every vertex of a non-empty
    input lies at the origin, [max_distance] is zero and the partitioner
    does not return normally: it raises [ZeroDivisionError] in its first
    pass.  On every other input it returns
    ([chunk_vertices_radial_returns]), equidistant vertices included. *)
Theorem chunk_vertices_radial_all_at_origin
        (sqrt : Q -> Q) (random : nat -> Q) (self : PLYChunker)
        (vertices : list Vertex) (k : nat) :
  (forall q, q == 0 -> sqrt q == 0) ->
  vertices <> [] ->
  Forall at_origin vertices ->
  chunk_vertices_radial sqrt random self vertices k = Raise ZeroDivisionError.
Proof.
  intros Hsqrt Hne Hall.
  apply chunk_vertices_radial_raises; [exact Hne|].
  apply max_distance_all_origin; assumption.
Qed.

Lemma chunk_vertices_radial_all_at_origin_witness :
  (forall q, q == 0 -> sqrt_milli q == 0) /\
  [vertex_at 0 0 0; vertex_at 0 0 0] <> [] /\
  Forall at_origin [vertex_at 0 0 0; vertex_at 0 0 0] /\
  chunk_vertices_radial sqrt_milli draws_half chunker_of_one
                        [vertex_at 0 0 0; vertex_at 0 0 0] 0
  = Raise ZeroDivisionError.
Proof.
  assert (Hne : [vertex_at 0 0 0; vertex_at 0 0 0] <> []) by discriminate.
  assert (Hall : Forall at_origin [vertex_at 0 0 0; vertex_at 0 0 0])
    by (repeat constructor; reflexivity).
  split; [exact sqrt_milli_zero|]. split; [exact Hne|].
  split; [exact Hall|].
  exact (@chunk_vertices_radial_all_at_origin sqrt_milli draws_half
           chunker_of_one [vertex_at 0 0 0; vertex_at 0 0 0] 0%nat
           sqrt_milli_zero Hne Hall).
Defined.

(** C3, as stated, fails: with room for two vertices per chunk and three
    vertices remaining, the pass is a flush pass (3 <= 1.5 * 2), yet its
    group holds the first two vertices only; the third is left for the next
    pass. *)
Lemma flush_pass_leaves_vertex :
  let remaining_vertices : list entry :=
    [(1, 0%nat, vertex_at 1 0 0); (2, 1%nat, vertex_at 2 0 0);
     (3, 2%nat, vertex_at 3 0 0)] in
  Qle_bool (inject_Z (Z.of_nat (List.length remaining_vertices)))
           (inject_Z 2 * (15 # 10)) = true /\
  scan_pass draws_half 2 3 (List.length remaining_vertices) 1
            remaining_vertices 0 [] [] 0
  = Ok ([vertex_at 1 0 0; vertex_at 2 0 0], [0%nat; 1%nat], 2%nat) /\
  In (vertex_at 3 0 0) (map vertex_of remaining_vertices) /\
  ~ In (vertex_at 3 0 0) [vertex_at 1 0 0; vertex_at 2 0 0] /\
  chunk_vertices_radial sqrt_milli draws_half chunker_of_two three_on_axis 0
  = Ok ([[vertex_at 1 0 0; vertex_at 2 0 0]; [vertex_at 3 0 0]], 3%nat).
Proof.
  cbv zeta. split; [reflexivity|]. split; [reflexivity|].
  split; [right; right; left; reflexivity|].
  split; [|vm_compute; reflexivity].
  intros [H|[H|[]]]; discriminate H.
Qed.

(** C3 (amended).  In a pass in which the number of remaining vertices is at
    most 1.5 times [vertices_per_chunk], every vertex the scan reaches is
    selected whatever the draw, but the scan still stops once the group
    holds [vertices_per_chunk] vertices.  The group is the first
    [min(vertices_per_chunk, remaining)] remaining vertices in list order,
    the vertices after them stay in the list, and the group holds all the
    remaining vertices when there are at most [vertices_per_chunk] of
    them. *)
Theorem flush_pass_takes_prefix
        (random : nat -> Q) (vertices_per_chunk : Z) (max_distance : Q)
        (chunk_num : Z) (remaining_vertices : list entry) (k : nat) :
  (1 <= vertices_per_chunk)%Z ->
  Qeq_bool max_distance 0 = false ->
  (forall j, random j < 1) ->
  Qle_bool (inject_Z (Z.of_nat (List.length remaining_vertices)))
           (inject_Z vertices_per_chunk * (15 # 10)) = true ->
  let m := Nat.min (Z.to_nat vertices_per_chunk)
                   (List.length remaining_vertices) in
  scan_pass random vertices_per_chunk max_distance
            (List.length remaining_vertices) chunk_num
            remaining_vertices 0 [] [] k
  = Ok (map vertex_of (firstn m remaining_vertices), seq 0 m, (k + m)%nat) /\
  pop_all (rev (seq 0 m)) remaining_vertices
  = Ok (skipn m remaining_vertices) /\
  ((List.length remaining_vertices <= Z.to_nat vertices_per_chunk)%nat ->
   firstn m remaining_vertices = remaining_vertices).
Proof.
  intros Hv Hmd Hdraw Hflush m. repeat split.
  - rewrite (@scan_pass_flush random vertices_per_chunk max_distance
               (List.length remaining_vertices) chunk_num remaining_vertices
               Hmd Hflush Hdraw 0%nat [] [] k) by (simpl; lia).
    simpl List.length. rewrite Nat.sub_0_r. fold m. simpl app.
    subst m. rewrite firstn_min. reflexivity.
  - pose proof (picks_prefix remaining_vertices 0 m) as Hp.
    rewrite (Nat.min_l m) in Hp by (subst m; lia).
    exact (picks_pop_all Hp [] eq_refl).
  - intro Hle. subst m. rewrite firstn_min. apply firstn_all2, Hle.
Qed.

Lemma flush_pass_takes_prefix_witness :
  let remaining_vertices : list entry :=
    [(1, 0%nat, vertex_at 1 0 0); (2, 1%nat, vertex_at 2 0 0);
     (3, 2%nat, vertex_at 3 0 0)] in
  (1 <= 2)%Z /\
  Qeq_bool 3 0 = false /\
  (forall j, draws_half j < 1) /\
  Qle_bool (inject_Z (Z.of_nat (List.length remaining_vertices)))
           (inject_Z 2 * (15 # 10)) = true /\
  scan_pass draws_half 2 3 3 1 remaining_vertices 0 [] [] 0
  = Ok ([vertex_at 1 0 0; vertex_at 2 0 0], [0%nat; 1%nat], 2%nat) /\
  pop_all [1%nat; 0%nat] remaining_vertices = Ok [(3, 2%nat, vertex_at 3 0 0)].
Proof.
  intro remaining_vertices.
  assert (Hv : (1 <= 2)%Z) by lia.
  assert (Hmd : Qeq_bool 3 0 = false) by reflexivity.
  assert (Hdraw : forall j, draws_half j < 1) by (intro j; reflexivity).
  assert (Hflush : Qle_bool (inject_Z (Z.of_nat
                                         (List.length remaining_vertices)))
                            (inject_Z 2 * (15 # 10)) = true) by reflexivity.
  split; [exact Hv|]. split; [exact Hmd|]. split; [exact Hdraw|].
  split; [exact Hflush|].
  destruct (@flush_pass_takes_prefix draws_half 2 3 1 remaining_vertices
              0%nat Hv Hmd Hdraw Hflush) as (Hscan & Hpop & _).
  split; [exact Hscan|exact Hpop].
Defined.

(** C4.  Every group in the sequence [chunk_vertices_radial] returns holds at
    least one vertex, for any input and any draws. *)
Theorem chunks_nonempty
        (sqrt : Q -> Q) (random : nat -> Q) (self : PLYChunker)
        (vertices : list Vertex) (k : nat)
        (chunks : list (list Vertex)) (k' : nat) :
  chunk_vertices_radial sqrt random self vertices k = Ok (chunks, k') ->
  Forall (fun group => (1 <= List.length group)%nat) chunks.
Proof.
  intro H. apply chunk_vertices_radial_no_empty_group in H.
  eapply Forall_impl; [|exact H].
  intros [|v group] Hg; [contradiction|simpl; lia].
Qed.

Lemma chunks_nonempty_witness :
  chunk_vertices_radial sqrt_milli draws_half chunker_of_two three_on_axis 0
  = Ok ([[vertex_at 1 0 0; vertex_at 2 0 0]; [vertex_at 3 0 0]], 3%nat) /\
  Forall (fun group => (1 <= List.length group)%nat)
         [[vertex_at 1 0 0; vertex_at 2 0 0]; [vertex_at 3 0 0]].
Proof.
  split; [vm_compute; reflexivity|].
  apply (@chunks_nonempty sqrt_milli draws_half chunker_of_two three_on_axis
           0%nat _ 3%nat).
  vm_compute. reflexivity.
Defined.

(** C5.  On the empty vertex set the bounding box is all zero, the
    partitioner returns no chunk and draws nothing, and the pipeline returns
    a manifest that counts no chunk and no vertex and writes no chunk
    file. *)
Theorem empty_vertex_set
        (sqrt : Q -> Q) (random : nat -> Q) (self : PLYChunker)
        (input_name base_name : string) (k : nat) :
  calculate_bounding_box [] = mkBox (mkCoords 0 0 0) (mkCoords 0 0 0) /\
  chunk_vertices_radial sqrt random self [] k = Ok ([], k) /\
  chunk_ply_file sqrt random self input_name base_name [] k
  = Ok (mkManifest input_name 0 0 (mkBox (mkCoords 0 0 0) (mkCoords 0 0 0))
                   (target_chunk_size_mb self) [],
        [], k).
Proof.
  repeat split.
Qed.

(** C6.  In the manifest a run returns, [total_vertices] is the sum of the
    [vertex_count] fields of the chunk descriptors, and both are the number
    of vertices decoded from the input file. *)
Theorem manifest_vertex_totals
        (sqrt : Q -> Q) (random : nat -> Q) (self : PLYChunker)
        (input_name base_name : string) (vertices : list Vertex) (k : nat)
        (manifest : Manifest) (files : list (string * PlyFile)) (k' : nat) :
  chunk_ply_file sqrt random self input_name base_name vertices k
    = Ok (manifest, files, k') ->
  total_vertices manifest = list_sum (map m_vertex_count (chunks manifest)) /\
  total_vertices manifest = List.length vertices.
Proof.
  intro H. apply chunk_ply_file_steps in H. cbv zeta in H.
  destruct H as (vertex_chunks & chunk_infos & Hchunk & Hwrite & ->).
  simpl total_vertices. simpl chunks.
  rewrite normalize_scale_length. split; [|reflexivity].
  apply write_chunks_spec in Hwrite.
  destruct Hwrite as (new_infos & new_files & Hi & _ & Hcount & _).
  simpl in Hi. subst chunk_infos.
  apply chunk_vertices_radial_perm, Permutation_length in Hchunk.
  rewrite normalize_scale_length, length_concat in Hchunk.
  rewrite <- Hchunk. f_equal. rewrite map_map.
  clear - Hcount. induction Hcount as [|group info groups infos [Hc _] _ IH].
  - reflexivity.
  - simpl. rewrite Hc, IH. reflexivity.
Qed.

Lemma manifest_vertex_totals_witness :
  exists manifest files k',
    chunk_ply_file sqrt_milli draws_half chunker_of_two "m.ply" "m"
                   wide_model 0 = Ok (manifest, files, k') /\
    total_vertices manifest = 3%nat /\
    list_sum (map m_vertex_count (chunks manifest)) = 3%nat.
Proof.
  destruct (chunk_ply_file sqrt_milli draws_half chunker_of_two "m.ply" "m"
              wide_model 0) as [[[manifest files] k']| |] eqn:E;
    [|vm_compute in E; discriminate E|vm_compute in E; discriminate E].
  exists manifest, files, k'. split; [reflexivity|].
  destruct (manifest_vertex_totals _ _ _ _ _ _ _ E) as [Hsum Hlen].
  split; [exact Hlen|]. rewrite <- Hsum. exact Hlen.
Defined.






(** C9 (the code departs from the claim).  On a file that ends before any
    [end_header] line, here four ASCII lines, [analyze_ply_file] neither
    returns nor raises: whatever the fuel, the header loop is still reading
    empty lines at the end of the file when the fuel runs out. *)
Theorem analyze_ply_file_headerless (int : string -> result Z) (fuel : nat) :
  analyze_ply_file int fuel headerless_file = OutOfFuel.
Proof.
  apply analyze_ply_file_loops. vm_compute. reflexivity.
Qed.

(** C10.  The groups a run returns are the groups of the passes, in order,
    followed by at most one group forced by a stall (a pass that selected
    nothing); every group of a pass holds at most
    [max(1, target_chunk_size_bytes // 20)] vertices.  The bound is that of
    the scan itself: whatever the distances, the number of remaining
    vertices (flush passes included) and the draws, a pass selects at most
    that many vertices. *)
Theorem scanned_groups_capped
        (sqrt : Q -> Q) (random : nat -> Q) (self : PLYChunker)
        (vertices : list Vertex) (k : nat)
        (chunks : list (list Vertex)) (k' : nat) :
  chunk_vertices_radial sqrt random self vertices k = Ok (chunks, k') ->
  let vertices_per_chunk := Z.max 1 (target_chunk_size_bytes self / 20) in
  (exists scanned forced : list (list entry),
     chunks = map (map vertex_of) scanned ++ map (map vertex_of) forced /\
     Forall (fun group =>
               (Z.of_nat (List.length group) <= vertices_per_chunk)%Z)
            scanned /\
     forced_by_stall random vertices_per_chunk
                     (max_distance_of sqrt vertices) forced) /\
  (forall max_distance n_remaining chunk_num entries j group rm j',
     scan_pass random vertices_per_chunk max_distance n_remaining chunk_num
               entries 0 [] [] j = Ok (group, rm, j') ->
     (Z.of_nat (List.length group) <= vertices_per_chunk)%Z).
Proof.
  intros H vpc. split.
  - apply chunk_vertices_radial_groups in H.
    destruct H as (scanned & forced & Hres & _ & _ & Hcap & Hf).
    exists scanned, forced.
    rewrite <- map_app. split; [exact Hres|]. split; assumption.
  - intros md n cn entries j group rm j' Hscan.
    eapply scan_pass_cap; [|exact Hscan].
    simpl. subst vpc. lia.
Qed.

Lemma scanned_groups_capped_witness :
  exists scanned forced : list (list entry),
    [[vertex_at 1 0 0; vertex_at 2 0 0]; [vertex_at 3 0 0]]
    = map (map vertex_of) scanned ++ map (map vertex_of) forced /\
    Forall (fun group => (Z.of_nat (List.length group) <= 2)%Z) scanned /\
    forced_by_stall draws_half 2 (max_distance_of sqrt_milli three_on_axis)
                    forced.
Proof.
  refine (proj1 (@scanned_groups_capped sqrt_milli draws_half chunker_of_two
                   three_on_axis 0%nat _ 3%nat _)).
  vm_compute. reflexivity.
Defined.

(** A stall, for comparison: with one vertex per chunk, three vertices at
    the largest distance and draws of 0.99, the first pass selects nothing
    and the three vertices are forced into one group. *)
Example stall_forces_one_group :
  chunk_vertices_radial sqrt_milli (fun _ => 99 # 100) chunker_of_one
                        [vertex_at 3 0 0; vertex_at 0 3 0; vertex_at 0 0 3] 0
  = Ok ([[vertex_at 3 0 0; vertex_at 0 3 0; vertex_at 0 0 3]], 3%nat).
Proof. vm_compute. reflexivity. Qed.

(** * Further properties of the code *)

(** ** [calculate_bounding_box] *)

(** For vertices whose coordinates are numbers (a NaN, which no comparison
    of the source ever selects, is not a value of the model), the box of a
    vertex list is well formed (its minimum is at most its maximum on each
    axis), it encloses every vertex of the list, and on a non-empty list
    each of its six bounds is the coordinate of some vertex of the list. *)
Theorem calculate_bounding_box_encloses (vertices : list Vertex) (a : axis) :
  let bbox := calculate_bounding_box vertices in
  coord a (bb_min bbox) <= coord a (bb_max bbox) /\
  (forall vertex, In vertex vertices ->
     coord a (bb_min bbox) <= vcoord a vertex /\
     vcoord a vertex <= coord a (bb_max bbox)) /\
  (vertices <> [] ->
   exists lowest highest,
     In lowest vertices /\ In highest vertices /\
     vcoord a lowest = coord a (bb_min bbox) /\
     vcoord a highest = coord a (bb_max bbox)).
Proof.
  intro bbox. subst bbox.
  destruct vertices as [|v0 rest].
  - split; [destruct a; apply Qle_refl|]. split.
    + intros v [].
    + intro H. contradiction.
  - assert (Hne : v0 :: rest <> []) by discriminate.
    destruct (calculate_bounding_box_min a Hne) as [Hlow Hmin].
    destruct (calculate_bounding_box_max a Hne) as [Hup Hmax].
    split; [|split].
    + eapply Qle_trans; [apply Hlow|apply Hup]; left; reflexivity.
    + intros v Hv. split; [apply Hlow|apply Hup]; apply in_map, Hv.
    + intros _. apply in_map_iff in Hmin, Hmax.
      destruct Hmin as (lo & Hlo & Hinlo). destruct Hmax as (hi & Hhi & Hinhi).
      exists lo, hi. auto.
Qed.

Lemma calculate_bounding_box_encloses_witness :
  In (vertex_at 2 5 0) wide_model /\
  coord AxisY (bb_min (calculate_bounding_box wide_model)) <= 5 /\
  5 <= coord AxisY (bb_max (calculate_bounding_box wide_model)).
Proof.
  assert (Hin : In (vertex_at 2 5 0) wide_model) by (right; left; reflexivity).
  split; [exact Hin|].
  exact (proj1 (proj2 (calculate_bounding_box_encloses wide_model AxisY))
               (vertex_at 2 5 0) Hin).
Defined.

(** ** The selection probability *)

Lemma max_distance_of_fold (sqrt : Q -> Q) vertices :
  forall m,
  fold_left (fun m vertex => pymax m (origin_distance sqrt vertex)) vertices m
  = fold_left pymax (map (origin_distance sqrt) vertices) m.
Proof.
  induction vertices as [|v rest IH]; intro m; simpl.
  - reflexivity.
  - apply IH.
Qed.

(** [max_distance] is not negative and no vertex is farther than it. *)
Lemma max_distance_of_bounds (sqrt : Q -> Q) vertices :
  0 <= max_distance_of sqrt vertices /\
  forall vertex, In vertex vertices ->
                 origin_distance sqrt vertex <= max_distance_of sqrt vertices.
Proof.
  unfold max_distance_of. rewrite max_distance_of_fold.
  destruct (fold_pymax_is_max (map (origin_distance sqrt) vertices) 0)
    as [Hup _].
  split.
  - apply Hup. left. reflexivity.
  - intros v Hv. apply Hup. right. apply in_map, Hv.
Qed.

Lemma chunk_boost_nonneg (chunk_num : Z) :
  (1 <= chunk_num)%Z ->
  0 <= pymin literal_0_3 (fmul (float_of_int (chunk_num - 1)) literal_0_1).
Proof.
  intro Hcn.
  destruct (pymin_cases literal_0_3
                        (fmul (float_of_int (chunk_num - 1)) literal_0_1))
    as [-> | ->]; [vm_compute; discriminate|].
  apply round_double_nonneg, Qmult_le_0_compat; [|vm_compute; discriminate].
  apply round_double_nonneg. change 0 with (inject_Z 0).
  rewrite <- Zle_Qle. lia.
Qed.

Lemma final_probability_in_range
      (vertices_per_chunk : Z) (max_distance : Q) (n_remaining : nat)
      (chunk_num : Z) (distance : Q) :
  0 < max_distance ->
  distance <= max_distance ->
  (1 <= chunk_num)%Z ->
  exists p,
    final_probability vertices_per_chunk max_distance n_remaining chunk_num
                      distance = Ok p /\
    least_probability <= p /\ p <= 1.
Proof.
  intros Hpos Hle Hcn.
  assert (Hmd : Qeq_bool max_distance 0 = false).
  { destruct (Qeq_bool max_distance 0) eqn:E; [|reflexivity].
    apply Qeq_bool_iff in E. rewrite E in Hpos. discriminate Hpos. }
  unfold final_probability. rewrite Hmd.
  destruct (Qle_bool _ _).
  - exists 1. split; [reflexivity|].
    split; [vm_compute; discriminate|apply Qle_refl].
  - eexists. split; [reflexivity|]. split; [|apply pymin_le_l].
    assert (Ht : fdiv distance max_distance <= 1).
    { apply Qle_trans with (round_double 1); [|vm_compute; discriminate].
      apply round_double_le.
      apply Qle_shift_div_r; [exact Hpos|]. rewrite Qmult_1_l. exact Hle. }
    assert (Hu : fmul (fdiv distance max_distance) literal_0_8
                 <= literal_0_8).
    { apply Qle_trans with (fmul 1 literal_0_8).
      - apply fmul_le_r; [vm_compute; discriminate|exact Ht].
      - vm_compute. discriminate. }
    assert (Hbase : least_probability
                    <= fsub 1 (fmul (fdiv distance max_distance)
                                    literal_0_8)).
    { apply round_double_le. lra. }
    pose proof (chunk_boost_nonneg Hcn) as Hboost.
    set (base := fsub 1 (fmul (fdiv distance max_distance) literal_0_8)) in *.
    set (boost := pymin literal_0_3
                        (fmul (float_of_int (chunk_num - 1)) literal_0_1))
      in *.
    destruct (pymin_cases 1 (fadd base boost)) as [-> | ->];
      [vm_compute; discriminate|].
    apply Qle_trans with (round_double least_probability);
      [vm_compute; discriminate|].
    apply round_double_le. lra.
Qed.

(** The bound is reached: in the first pass, short of the last passes, a
    vertex at [max_distance] has the probability [1.0 - 0.8]. *)
Lemma final_probability_farthest
      (vertices_per_chunk : Z) (max_distance : Q) (n_remaining : nat) :
  0 < max_distance ->
  Qle_bool (inject_Z (Z.of_nat n_remaining))
           (inject_Z vertices_per_chunk * (15 # 10)) = false ->
  exists p,
    final_probability vertices_per_chunk max_distance n_remaining 1
                      max_distance = Ok p /\
    p == least_probability.
Proof.
  intros Hpos Hflush.
  assert (Hmd : Qeq_bool max_distance 0 = false).
  { destruct (Qeq_bool max_distance 0) eqn:E; [|reflexivity].
    apply Qeq_bool_iff in E. rewrite E in Hpos. discriminate Hpos. }
  unfold final_probability. rewrite Hmd, Hflush.
  eexists. split; [reflexivity|].
  assert (Ht : fdiv max_distance max_distance == 1).
  { unfold fdiv. transitivity (round_double 1); [|vm_compute; reflexivity].
    apply round_double_compat. field. lra. }
  assert (Hbase : fsub 1 (fmul (fdiv max_distance max_distance) literal_0_8)
                  == least_probability).
  { rewrite Ht. vm_compute. reflexivity. }
  change (pymin literal_0_3 (fmul (float_of_int (1 - 1)) literal_0_1))
    with 0.
  assert (Hsum : fadd (fsub 1 (fmul (fdiv max_distance max_distance)
                                    literal_0_8)) 0
                 == least_probability).
  { rewrite Hbase. vm_compute. reflexivity. }
  destruct (pymin_cases 1 (fadd (fsub 1 (fmul (fdiv max_distance max_distance)
                                              literal_0_8)) 0))
    as [E | ->]; [|exact Hsum].
  exfalso. unfold pymin in E.
  destruct (Qlt_bool _ 1) eqn:E1.
  - rewrite E in Hsum. vm_compute in Hsum. discriminate Hsum.
  - apply Qlt_bool_false_iff in E1. rewrite Hsum in E1.
    vm_compute in E1. apply E1. reflexivity.
Qed.

Lemma max_distance_of_positive (sqrt : Q -> Q) vertices :
  Qeq_bool (max_distance_of sqrt vertices) 0 = false ->
  0 < max_distance_of sqrt vertices.
Proof.
  intro Hmd. destruct (max_distance_of_bounds sqrt vertices) as [Hnonneg _].
  apply Qle_lt_or_eq in Hnonneg. destruct Hnonneg as [H|H]; [exact H|].
  apply Qeq_sym, Qeq_bool_iff in H. congruence.
Qed.



(** ** The removal of the selected vertices *)

Lemma picks_indices {A : Type} i (entries : list A) rm sel keep :
  picks i entries rm sel keep ->
  Forall (fun j => (i <= j < i + List.length entries)%nat) rm /\
  StronglySorted lt rm.
Proof.
  induction 1 as [i entries | i e entries rm sel keep _ [IHr IHs]
                 | i e entries rm sel keep _ [IHr IHs]].
  - split; constructor.
  - split.
    + constructor; [simpl; lia|].
      eapply Forall_impl; [|exact IHr]. simpl. intros j Hj. lia.
    + constructor; [exact IHs|].
      eapply Forall_impl; [|exact IHr]. simpl. intros j Hj. lia.
  - split; [|exact IHs].
    eapply Forall_impl; [|exact IHr]. simpl. intros j Hj. lia.
Qed.

Lemma picks_lookup {A : Type} i (entries : list A) rm sel keep :
  picks i entries rm sel keep ->
  forall pre, List.length pre = i ->
  map (nth_error (pre ++ entries)) rm = map Some sel.
Proof.
  induction 1 as [i entries | i e entries rm sel keep _ IH
                 | i e entries rm sel keep _ IH]; intros pre Hpre.
  - reflexivity.
  - simpl. f_equal.
    + rewrite nth_error_app2 by lia. rewrite Hpre, Nat.sub_diag. reflexivity.
    + replace (pre ++ e :: entries) with ((pre ++ [e]) ++ entries)
        by (rewrite <- app_assoc; reflexivity).
      apply IH. rewrite length_app. simpl. lia.
  - replace (pre ++ e :: entries) with ((pre ++ [e]) ++ entries)
      by (rewrite <- app_assoc; reflexivity).
    apply IH. rewrite length_app. simpl. lia.
Qed.

(** After any pass that completes, [vertices_to_remove] lists the positions
    of the selected vertices in increasing order, all within the list, so
    the removal in reverse order never raises [IndexError] and removes
    exactly the selected vertices: what it leaves, together with the group,
    is the list the pass started from. *)
Theorem pass_removal_keeps_unselected
        (random : nat -> Q) (vertices_per_chunk : Z) (max_distance : Q)
        (chunk_num : Z) (remaining_vertices : list entry) (k : nat)
        (current_chunk : list Vertex) (vertices_to_remove : list nat)
        (k' : nat) :
  scan_pass random vertices_per_chunk max_distance
            (List.length remaining_vertices) chunk_num
            remaining_vertices 0 [] [] k
  = Ok (current_chunk, vertices_to_remove, k') ->
  StronglySorted lt vertices_to_remove /\
  Forall (fun i => (i < List.length remaining_vertices)%nat)
         vertices_to_remove /\
  map (nth_error (map vertex_of remaining_vertices)) vertices_to_remove
  = map Some current_chunk /\
  exists remaining_vertices',
    pop_all (rev vertices_to_remove) remaining_vertices
    = Ok remaining_vertices' /\
    Permutation (current_chunk ++ map vertex_of remaining_vertices')
                (map vertex_of remaining_vertices) /\
    (List.length current_chunk + List.length remaining_vertices'
     = List.length remaining_vertices)%nat.
Proof.
  intro H. apply scan_pass_picks in H.
  destruct H as (rm & sel & keep & Hp & Hcur & Hrm).
  simpl in Hcur, Hrm. subst current_chunk vertices_to_remove.
  destruct (picks_indices Hp) as [Hrange Hsorted].
  split; [exact Hsorted|]. split.
  { eapply Forall_impl; [|exact Hrange]. simpl. intros j Hj. lia. }
  split.
  { pose proof (picks_lookup Hp [] eq_refl) as Hl. simpl in Hl.
    apply (f_equal (map (option_map vertex_of))) in Hl.
    rewrite !map_map in Hl. simpl in Hl. rewrite map_map.
    rewrite <- Hl. apply map_ext. intro j.
    rewrite nth_error_map. reflexivity. }
  exists keep. split; [exact (picks_pop_all Hp [] eq_refl)|]. split.
  - rewrite <- map_app. apply Permutation_map, (picks_perm Hp).
  - rewrite length_map. apply (picks_keep_length Hp).
Qed.

Lemma pass_removal_keeps_unselected_witness :
  scan_pass draws_half 2 3 3 1
            [(1, 0%nat, vertex_at 1 0 0); (2, 1%nat, vertex_at 2 0 0);
             (3, 2%nat, vertex_at 3 0 0)] 0 [] [] 0
  = Ok ([vertex_at 1 0 0; vertex_at 2 0 0], [0%nat; 1%nat], 2%nat) /\
  exists remaining_vertices',
    pop_all (rev [0%nat; 1%nat])
            [(1, 0%nat, vertex_at 1 0 0); (2, 1%nat, vertex_at 2 0 0);
             (3, 2%nat, vertex_at 3 0 0)]
    = Ok remaining_vertices' /\
    (2 + List.length remaining_vertices' = 3)%nat.
Proof.
  split; [reflexivity|].
  destruct (@pass_removal_keeps_unselected draws_half 2 3 1
              [(1, 0%nat, vertex_at 1 0 0); (2, 1%nat, vertex_at 2 0 0);
               (3, 2%nat, vertex_at 3 0 0)] 0%nat
              [vertex_at 1 0 0; vertex_at 2 0 0] [0%nat; 1%nat] 2%nat
              eq_refl) as (_ & _ & _ & keep & Hpop & _ & Hlen).
  exists keep. split; [exact Hpop|exact Hlen].
Defined.

(** ** The number of chunks *)

Lemma length_concat_nonempty {A : Type} (groups : list (list A)) :
  Forall (fun group => group <> []) groups ->
  (List.length groups <= List.length (concat groups))%nat.
Proof.
  induction 1 as [|group groups Hg _ IH]; simpl.
  - lia.
  - rewrite length_app. destruct group; [contradiction|simpl; lia].
Qed.

(** The partitioner never returns more chunks than there are vertices, and
    returns at least one chunk when there is a vertex. *)
Theorem chunk_count_bounds
        (sqrt : Q -> Q) (random : nat -> Q) (self : PLYChunker)
        (vertices : list Vertex) (k : nat)
        (chunks : list (list Vertex)) (k' : nat) :
  chunk_vertices_radial sqrt random self vertices k = Ok (chunks, k') ->
  (List.length chunks <= List.length vertices)%nat /\
  (vertices <> [] -> chunks <> []).
Proof.
  intro H.
  pose proof (chunk_vertices_radial_perm _ _ _ _ _ H) as Hperm.
  pose proof (chunk_vertices_radial_no_empty_group _ _ _ _ _ H) as Hne.
  split.
  - rewrite <- (Permutation_length Hperm). apply length_concat_nonempty, Hne.
  - intros Hv Hc. subst chunks. simpl in Hperm.
    apply Permutation_nil in Hperm. contradiction.
Qed.

Lemma chunk_count_bounds_witness :
  (List.length [[vertex_at 1 0 0; vertex_at 2 0 0]; [vertex_at 3 0 0]]
   <= List.length three_on_axis)%nat.
Proof.
  refine (proj1 (@chunk_count_bounds sqrt_milli draws_half chunker_of_two
                   three_on_axis 0%nat _ 3%nat _)).
  vm_compute. reflexivity.
Defined.

(** ** [chunk_vertices_sequential] *)

Section SequentialFacts.

Variable A : Type.
Variable l : list A.
Variable step : nat.
Hypothesis step_positive : (1 <= step)%nat.

Let pieces fuel start :=
  map (fun i => slice l i (i + step)) (range_from fuel start (List.length l) step).

Lemma slice_step i : slice l i (i + step) = firstn step (skipn i l).
Proof. unfold slice. f_equal. lia. Qed.

Lemma range_from_concat fuel :
  forall start,
  (List.length l - start <= fuel)%nat ->
  concat (pieces fuel start) = skipn start l.
Proof.
  subst pieces.
  induction fuel as [|fuel IH]; intros start Hfuel; simpl.
  - symmetry. apply skipn_all2. lia.
  - destruct (start <? List.length l)%nat eqn:E.
    + apply Nat.ltb_lt in E. simpl. rewrite IH by lia.
      rewrite slice_step, Nat.add_comm, <- skipn_skipn.
      apply firstn_skipn.
    + apply Nat.ltb_ge in E. symmetry. apply skipn_all2, E.
Qed.

Lemma range_from_sizes fuel :
  forall start,
  Forall (fun piece => (1 <= List.length piece <= step)%nat)
         (pieces fuel start).
Proof.
  subst pieces.
  induction fuel as [|fuel IH]; intro start; simpl.
  - constructor.
  - destruct (start <? List.length l)%nat eqn:E; [|constructor].
    apply Nat.ltb_lt in E. simpl. constructor; [|apply IH].
    rewrite slice_step, length_firstn, length_skipn. lia.
Qed.

Lemma range_from_full fuel :
  forall start,
  Forall (fun piece => List.length piece = step)
         (removelast (pieces fuel start)).
Proof.
  subst pieces.
  induction fuel as [|fuel IH]; intro start.
  - constructor.
  - cbn [range_from].
    destruct (start <? List.length l)%nat eqn:E; [|constructor].
    cbn [map]. specialize (IH (start + step)%nat).
    destruct fuel as [|fuel]; [constructor|].
    cbn [range_from] in *.
    destruct (start + step <? List.length l)%nat eqn:E2; [|constructor].
    apply Nat.ltb_lt in E2.
    cbn [map removelast] in *.
    constructor; [|exact IH].
    rewrite slice_step, length_firstn, length_skipn. lia.
Qed.

Lemma range_from_count fuel :
  forall start,
  (List.length l - start <= fuel)%nat ->
  List.length (pieces fuel start)
  = ((List.length l - start + step - 1) / step)%nat.
Proof.
  subst pieces.
  induction fuel as [|fuel IH]; intros start Hfuel; rewrite length_map.
  - simpl. symmetry. apply Nat.div_small. lia.
  - cbn [range_from].
    destruct (start <? List.length l)%nat eqn:E.
    + apply Nat.ltb_lt in E. simpl List.length.
      specialize (IH (start + step)%nat). rewrite length_map in IH.
      rewrite IH by lia.
      replace (List.length l - start + step - 1)%nat
        with ((List.length l - start - 1) + 1 * step)%nat by lia.
      rewrite Nat.div_add by lia.
      destruct (Nat.le_gt_cases step (List.length l - start)) as [Hge|Hlt].
      * replace (List.length l - (start + step) + step - 1)%nat
          with (List.length l - start - 1)%nat by lia.
        lia.
      * rewrite (Nat.div_small (List.length l - start - 1)) by lia.
        rewrite Nat.div_small by lia. reflexivity.
    + apply Nat.ltb_ge in E. simpl. symmetry. apply Nat.div_small. lia.
Qed.

End SequentialFacts.

(** [chunk_vertices_sequential] never raises, and cuts the list in place:
    the chunks, one after the other, are the input list in its order. *)
Theorem chunk_vertices_sequential_partition
        (self : PLYChunker) (vertices : list Vertex) :
  exists chunks,
    chunk_vertices_sequential self vertices = Ok chunks /\
    concat chunks = vertices.
Proof.
  unfold chunk_vertices_sequential, py_range.
  pose proof (vertices_per_chunk_positive self) as Hv.
  destruct (Z.to_nat (vertices_per_chunk_of self) =? 0)%nat eqn:E.
  - apply Nat.eqb_eq in E. lia.
  - eexists. split; [reflexivity|].
    rewrite Nat.sub_0_r.
    rewrite (@range_from_concat _ vertices
               (Z.to_nat (vertices_per_chunk_of self))) by lia.
    reflexivity.
Qed.

(** The sizes of the sequential chunks: each holds between one and
    [vertices_per_chunk] vertices, all but the last hold exactly
    [vertices_per_chunk], and their number is the number of vertices divided
    by [vertices_per_chunk], rounded up. *)
Theorem chunk_vertices_sequential_sizes
        (self : PLYChunker) (vertices : list Vertex)
        (chunks : list (list Vertex)) :
  chunk_vertices_sequential self vertices = Ok chunks ->
  let vertices_per_chunk := Z.to_nat (Z.max 1 (target_chunk_size_bytes self / 20)) in
  Forall (fun chunk => (1 <= List.length chunk <= vertices_per_chunk)%nat)
         chunks /\
  Forall (fun chunk => List.length chunk = vertices_per_chunk)
         (removelast chunks) /\
  List.length chunks
  = ((List.length vertices + vertices_per_chunk - 1) / vertices_per_chunk)%nat.
Proof.
  unfold chunk_vertices_sequential, py_range.
  pose proof (vertices_per_chunk_positive self) as Hv.
  change (Z.max 1 (target_chunk_size_bytes self / 20))
    with (vertices_per_chunk_of self).
  destruct (Z.to_nat (vertices_per_chunk_of self) =? 0)%nat eqn:E.
  - apply Nat.eqb_eq in E. lia.
  - simpl bind. intro H. inversion H; subst chunks. clear H.
    rewrite Nat.sub_0_r. cbv zeta.
    assert (Hs : (1 <= Z.to_nat (vertices_per_chunk_of self))%nat) by lia.
    split; [apply range_from_sizes; exact Hs|].
    split; [apply range_from_full; exact Hs|].
    rewrite (@range_from_count _ vertices _ Hs) by lia.
    rewrite Nat.sub_0_r. reflexivity.
Qed.

Lemma chunk_vertices_sequential_sizes_witness :
  chunk_vertices_sequential chunker_of_two three_on_axis
  = Ok [[vertex_at 1 0 0; vertex_at 2 0 0]; [vertex_at 3 0 0]] /\
  List.length [[vertex_at 1 0 0; vertex_at 2 0 0]; [vertex_at 3 0 0]]
  = ((3 + 2 - 1) / 2)%nat.
Proof.
  assert (H : chunk_vertices_sequential chunker_of_two three_on_axis
              = Ok [[vertex_at 1 0 0; vertex_at 2 0 0]; [vertex_at 3 0 0]])
    by reflexivity.
  split; [exact H|].
  exact (proj2 (proj2 (chunk_vertices_sequential_sizes _ _ H))).
Defined.

(** ** Draws below every probability: the radial partitioner cuts the sorted
    list *)

Section CutFacts.

Variable step : nat.
Hypothesis step_positive : (1 <= step)%nat.

Lemma range_from_fuel fuel :
  forall fuel' start stop,
  (stop - start <= fuel)%nat -> (stop - start <= fuel')%nat ->
  range_from fuel start stop step = range_from fuel' start stop step.
Proof.
  induction fuel as [|fuel IH]; intros fuel' start stop H H'.
  - destruct fuel' as [|fuel']; [reflexivity|]. simpl.
    destruct (start <? stop)%nat eqn:E; [|reflexivity].
    apply Nat.ltb_lt in E. lia.
  - simpl. destruct (start <? stop)%nat eqn:E.
    + apply Nat.ltb_lt in E.
      destruct fuel' as [|fuel']; [lia|]. simpl.
      pose proof E as E'. apply Nat.ltb_lt in E'. rewrite E'.
      f_equal. apply IH; lia.
    + destruct fuel' as [|fuel']; [reflexivity|]. simpl. rewrite E.
      reflexivity.
Qed.

Lemma range_from_shift {A : Type} (l : list A) fuel :
  forall a c,
  map (fun i => slice l i (i + step))
      (range_from fuel (a + c) (List.length l) step)
  = map (fun i => slice (skipn a l) i (i + step))
        (range_from fuel c (List.length l - a) step).
Proof.
  induction fuel as [|fuel IH]; intros a c; cbn [range_from].
  - reflexivity.
  - destruct (Nat.ltb_spec (a + c) (List.length l)) as [E1|E1];
      destruct (Nat.ltb_spec c (List.length l - a)) as [E2|E2];
      try lia; [|reflexivity].
    cbn [map]. f_equal.
    + unfold slice. rewrite skipn_skipn.
      replace (c + a)%nat with (a + c)%nat by lia.
      f_equal; lia.
    + rewrite <- Nat.add_assoc. apply IH.
Qed.

Lemma cut_unfold {A : Type} (e : A) (l : list A) :
  cut step (e :: l) = firstn step (e :: l) :: cut step (skipn step (e :: l)).
Proof.
  unfold cut at 1. cbn [List.length range_from].
  change (0 <? S (List.length l))%nat with true. cbn [map]. f_equal.
  - unfold slice. rewrite Nat.add_0_l, Nat.sub_0_r. reflexivity.
  - change (S (List.length l)) with (List.length (e :: l)).
    replace (0 + step)%nat with (step + 0)%nat by lia.
    rewrite range_from_shift. unfold cut. rewrite length_skipn.
    f_equal. apply range_from_fuel; cbn [List.length]; lia.
Qed.

Lemma cut_map {A B : Type} (f : A -> B) (l : list A) :
  cut step (map f l) = map (map f) (cut step l).
Proof.
  unfold cut. rewrite length_map, map_map. apply map_ext. intro i.
  unfold slice. rewrite <- firstn_map, <- skipn_map. reflexivity.
Qed.

End CutFacts.

Lemma chunk_vertices_sequential_cut (self : PLYChunker) (vertices : list Vertex) :
  chunk_vertices_sequential self vertices
  = Ok (cut (Z.to_nat (vertices_per_chunk_of self)) vertices).
Proof.
  unfold chunk_vertices_sequential, py_range, cut.
  pose proof (vertices_per_chunk_positive self) as Hv.
  destruct (Z.to_nat (vertices_per_chunk_of self) =? 0)%nat eqn:E.
  - apply Nat.eqb_eq in E. lia.
  - rewrite Nat.sub_0_r. reflexivity.
Qed.

Section LowDraws.

Variable random : nat -> Q.
Variable vertices_per_chunk : Z.
Variable max_distance : Q.

(** A scan whose every draw falls below the probability takes the entries
    in list order until the group is full. *)
Lemma scan_pass_selects_all n_remaining chunk_num entries :
  (forall e j, In e entries ->
     exists p,
       final_probability vertices_per_chunk max_distance n_remaining
                         chunk_num (distance_of e) = Ok p /\
       random j < p) ->
  forall i current_chunk vertices_to_remove k,
  (List.length current_chunk < Z.to_nat vertices_per_chunk)%nat ->
  let m := (Z.to_nat vertices_per_chunk - List.length current_chunk)%nat in
  scan_pass random vertices_per_chunk max_distance n_remaining chunk_num
            entries i current_chunk vertices_to_remove k
  = Ok (current_chunk ++ map vertex_of (firstn m entries),
        vertices_to_remove ++ seq i (Nat.min m (List.length entries)),
        (k + Nat.min m (List.length entries))%nat).
Proof.
  induction entries as [|e rest IH]; intros Hsel i cur rm k Hlt m.
  - simpl. rewrite firstn_nil, Nat.min_0_r. simpl.
    rewrite !app_nil_r, Nat.add_0_r. reflexivity.
  - cbn [scan_pass].
    destruct (Hsel e k (or_introl eq_refl)) as (p & Hp & Hdraw).
    rewrite Hp. cbn [bind].
    apply Qlt_bool_iff in Hdraw. rewrite Hdraw.
    assert (Hrest : forall e' j, In e' rest ->
              exists p',
                final_probability vertices_per_chunk max_distance n_remaining
                                  chunk_num (distance_of e') = Ok p' /\
                random j < p')
      by (intros e' j He'; apply Hsel; right; exact He').
    destruct (vertices_per_chunk <=? _)%Z eqn:E.
    + apply Z.leb_le in E. rewrite length_app in E. simpl in E.
      assert (Hm : m = 1%nat) by (subst m; lia).
      rewrite Hm. simpl. rewrite Nat.add_1_r. reflexivity.
    + apply Z.leb_gt in E. rewrite length_app in E. simpl in E.
      rewrite (IH Hrest) by (rewrite length_app; simpl; lia).
      rewrite length_app. simpl List.length.
      assert (Hm : m = S (Z.to_nat vertices_per_chunk
                          - (List.length cur + 1))) by (subst m; lia).
      rewrite Hm. simpl.
      rewrite <- !app_assoc. simpl.
      repeat f_equal. lia.
Qed.

Hypothesis vertices_per_chunk_pos : (1 <= vertices_per_chunk)%Z.
Hypothesis max_distance_pos : 0 < max_distance.
Hypothesis low_draws : forall j, random j < least_probability.

(** With such draws no pass stalls: each pass takes the next
    [vertices_per_chunk] entries of the list, and each entry costs one
    draw. *)
Lemma chunk_loop_low_draws fuel :
  forall remaining_vertices chunk_num chunks k,
  (0 <= chunk_num)%Z ->
  Forall (fun e => distance_of e <= max_distance) remaining_vertices ->
  (List.length remaining_vertices < fuel)%nat ->
  chunk_loop random fuel vertices_per_chunk max_distance remaining_vertices
             chunk_num chunks k
  = Ok (chunks ++ map (map vertex_of)
                      (cut (Z.to_nat vertices_per_chunk) remaining_vertices),
        (k + List.length remaining_vertices)%nat).
Proof.
  induction fuel as [|fuel IH]; intros rem cn chunks k Hcn Hdist Hfuel.
  - lia.
  - destruct rem as [|e rest].
    + simpl. rewrite app_nil_r, Nat.add_0_r. reflexivity.
    + cbn [chunk_loop].
      set (rem := e :: rest) in *.
      set (m := Z.to_nat vertices_per_chunk).
      assert (Hm : (1 <= m)%nat) by (subst m; lia).
      assert (Hsel : forall e' j, In e' rem ->
                exists p,
                  final_probability vertices_per_chunk max_distance
                                    (List.length rem) (cn + 1)
                                    (distance_of e') = Ok p /\
                  random j < p).
      { intros e' j He'. rewrite Forall_forall in Hdist.
        destruct (@final_probability_in_range vertices_per_chunk max_distance
                    (List.length rem) (cn + 1)%Z (distance_of e')
                    max_distance_pos (Hdist _ He') ltac:(lia))
          as (p & Hp & Hlow & _).
        exists p. split; [exact Hp|].
        eapply Qlt_le_trans; [apply low_draws|exact Hlow]. }
      rewrite (@scan_pass_selects_all (List.length rem) (cn + 1)%Z rem Hsel
                 0%nat [] [] k) by (simpl; lia).
      cbn [bind List.length app]. rewrite Nat.sub_0_r. fold m.
      pose proof (picks_prefix rem 0 m) as Hp.
      pose proof (picks_pop_all Hp [] eq_refl) as Hpop.
      cbn [app] in Hpop. rewrite Hpop. cbn [bind].
      assert (Hmin : (1 <= Nat.min m (List.length rem))%nat)
        by (subst rem; simpl; lia).
      rewrite length_seq.
      destruct (Nat.min m (List.length rem)) as [|n'] eqn:En; [lia|].
      cbn [Nat.eqb andb].
      assert (Hcur : nonempty (map vertex_of (firstn m rem)) = true).
      { subst rem. destruct m; [lia|reflexivity]. }
      rewrite Hcur.
      rewrite IH.
      * rewrite <- app_assoc. f_equal. f_equal.
        -- f_equal. subst rem. rewrite (cut_unfold Hm). reflexivity.
        -- rewrite length_skipn. lia.
      * lia.
      * apply Forall_forall. intros e' He'. rewrite Forall_forall in Hdist.
        apply Hdist. rewrite <- (firstn_skipn m rem).
        apply in_or_app. right. exact He'.
      * rewrite length_skipn. subst rem. cbn [List.length] in *. lia.
Qed.

End LowDraws.

Lemma entries_from_distances (sqrt : Q -> Q) vertices :
  forall i e, In e (entries_from sqrt i vertices) ->
  In (vertex_of e) vertices /\
  distance_of e = origin_distance sqrt (vertex_of e).
Proof.
  induction vertices as [|v rest IH]; intros i e Hin; simpl in Hin.
  - contradiction.
  - destruct Hin as [<-|Hin].
    + split; [left|]; reflexivity.
    + apply IH in Hin. destruct Hin as [Hv Hd]. split; [right|]; assumption.
Qed.

(** On vertices whose coordinates are in the range of a 32-bit float, so
    that no square overflows: when every draw is below the float
    [1.0 - 0.8], the least probability a vertex can have
    (0.19999999999999996: a draw below 0.2 is not enough),
    [chunk_vertices_radial] returns what [chunk_vertices_sequential]
    returns on the vertices sorted by distance from the origin (vertices at
    equal distance in their input order), and makes exactly one draw per
    vertex. *)
Theorem low_draws_cut_sorted
        (sqrt : Q -> Q) (random : nat -> Q) (self : PLYChunker)
        (vertices : list Vertex) (k : nat) :
  Forall coords_fit vertices ->
  (forall j, random j < least_probability) ->
  Qeq_bool (max_distance_of sqrt vertices) 0 = false ->
  exists chunks,
    chunk_vertices_sequential
      self (map vertex_of (sort_by_distance (entries_from sqrt 0 vertices)))
    = Ok chunks /\
    chunk_vertices_radial sqrt random self vertices k
    = Ok (chunks, (k + List.length vertices)%nat).
Proof.
  intros _ Hdraw Hmd. eexists. split; [apply chunk_vertices_sequential_cut|].
  rewrite chunk_vertices_radial_unfold.
  pose proof (vertices_per_chunk_positive self) as Hv.
  rewrite (@chunk_loop_low_draws random (vertices_per_chunk_of self)
             (max_distance_of sqrt vertices) Hv
             (max_distance_of_positive sqrt vertices Hmd) Hdraw).
  - simpl app. rewrite cut_map by lia.
    rewrite sort_by_distance_length, entries_from_length. reflexivity.
  - lia.
  - apply Forall_forall. intros e He.
    apply (Permutation_in _ (sort_by_distance_perm _)) in He.
    apply entries_from_distances in He. destruct He as [Hin ->].
    apply max_distance_of_bounds, Hin.
  - rewrite sort_by_distance_length, entries_from_length. lia.
Qed.

Lemma low_draws_cut_sorted_witness :
  Forall coords_fit [vertex_at 3 0 0; vertex_at 1 0 0; vertex_at 0 2 0] /\
  (1 # 10) < least_probability /\
  chunk_vertices_radial sqrt_milli (fun _ => 1 # 10) chunker_of_two
                        [vertex_at 3 0 0; vertex_at 1 0 0; vertex_at 0 2 0] 0
  = Ok ([[vertex_at 1 0 0; vertex_at 0 2 0]; [vertex_at 3 0 0]], 3%nat).
Proof.
  assert (Hfit : Forall coords_fit
                        [vertex_at 3 0 0; vertex_at 1 0 0; vertex_at 0 2 0])
    by (repeat constructor).
  split; [exact Hfit|]. split; [reflexivity|].
  destruct (@low_draws_cut_sorted sqrt_milli (fun _ => 1 # 10) chunker_of_two
              [vertex_at 3 0 0; vertex_at 1 0 0; vertex_at 0 2 0] 0%nat
              Hfit (fun _ => eq_refl) eq_refl) as (chunks & Hseq & Hrad).
  vm_compute in Hseq. inversion Hseq; subst chunks. exact Hrad.
Defined.

(** ** [write_ply_chunk] *)

Lemma pack_uchar_ok (c : Z) : uchar c -> pack_uchar c = Ok c.
Proof.
  unfold uchar, pack_uchar. intro H.
  destruct (Z.leb_spec 0 c); destruct (Z.leb_spec c 255); try lia. reflexivity.
Qed.

Lemma pack_uchar_error (c : Z) : ~ uchar c -> pack_uchar c = Raise StructError.
Proof.
  unfold uchar, pack_uchar. intro H.
  destruct (Z.leb_spec 0 c); destruct (Z.leb_spec c 255); try lia; reflexivity.
Qed.

Lemma uchar_dec (c : Z) : uchar c \/ ~ uchar c.
Proof. unfold uchar. lia. Qed.

Lemma pack_float32_ok (q : Q) : float32 q -> pack_float32 q = Ok q.
Proof.
  unfold float32, pack_float32. intro H. apply Qlt_bool_iff in H.
  rewrite H. reflexivity.
Qed.

Lemma pack_float32_error (q : Q) :
  ~ float32 q -> pack_float32 q = Raise OverflowError.
Proof.
  unfold float32, pack_float32. intro H.
  destruct (Qlt_bool _ _) eqn:E; [|reflexivity].
  apply Qlt_bool_iff in E. contradiction.
Qed.

Lemma float32_dec (q : Q) : float32 q \/ ~ float32 q.
Proof.
  unfold float32. destruct (Qlt_le_dec (Qabs q) float32_limit) as [H|H];
    [left; exact H|right; apply Qle_not_lt, H].
Qed.

Lemma coords_fit_dec (vertex : Vertex) :
  coords_fit vertex \/ ~ coords_fit vertex.
Proof.
  unfold coords_fit.
  destruct (float32_dec (x vertex)), (float32_dec (y vertex)),
    (float32_dec (z vertex)); tauto.
Qed.

Lemma colours_fit_dec (vertex : Vertex) :
  colours_fit vertex \/ ~ colours_fit vertex.
Proof. unfold colours_fit, uchar. lia. Qed.

Lemma pack_vertex_ok vertex : packable vertex -> pack_vertex vertex = Ok vertex.
Proof.
  intros [(Hx & Hy & Hz) (Hr & Hg & Hb)]. unfold pack_vertex.
  rewrite !pack_float32_ok, !pack_uchar_ok by assumption. reflexivity.
Qed.

(** The coordinates are packed first: one out of range raises
    [OverflowError] whatever the colours. *)
Lemma pack_vertex_overflow vertex :
  ~ coords_fit vertex -> pack_vertex vertex = Raise OverflowError.
Proof.
  intro H. unfold pack_vertex.
  destruct (float32_dec (x vertex)) as [Hx|Hx];
    [rewrite (pack_float32_ok Hx)|rewrite (pack_float32_error Hx); reflexivity].
  destruct (float32_dec (y vertex)) as [Hy|Hy];
    [rewrite (pack_float32_ok Hy)|rewrite (pack_float32_error Hy); reflexivity].
  destruct (float32_dec (z vertex)) as [Hz|Hz];
    [|rewrite (pack_float32_error Hz); reflexivity].
  exfalso. apply H. split; [exact Hx|split; [exact Hy|exact Hz]].
Qed.

Lemma pack_vertex_error vertex :
  coords_fit vertex -> ~ colours_fit vertex ->
  pack_vertex vertex = Raise StructError.
Proof.
  intros (Hx & Hy & Hz) H. unfold pack_vertex.
  rewrite !pack_float32_ok by assumption. cbn [bind].
  destruct (uchar_dec (r vertex)) as [Hr|Hr];
    [rewrite (pack_uchar_ok Hr)|rewrite (pack_uchar_error Hr); reflexivity].
  destruct (uchar_dec (g vertex)) as [Hg|Hg];
    [rewrite (pack_uchar_ok Hg)|rewrite (pack_uchar_error Hg); reflexivity].
  destruct (uchar_dec (b vertex)) as [Hb|Hb];
    [|rewrite (pack_uchar_error Hb); reflexivity].
  exfalso. apply H. split; [exact Hr|split; [exact Hg|exact Hb]].
Qed.

Lemma pack_all_fit chunk_vertices :
  Forall packable chunk_vertices -> pack_all chunk_vertices = Ok chunk_vertices.
Proof.
  induction 1 as [|v rest Hv _ IH]; simpl.
  - reflexivity.
  - rewrite (pack_vertex_ok Hv), IH. reflexivity.
Qed.

(** The list is packed in order, so the first vertex that does not fit
    decides the error. *)
Lemma pack_all_unfit chunk_vertices :
  ~ Forall packable chunk_vertices ->
  pack_all chunk_vertices = Raise OverflowError \/
  pack_all chunk_vertices = Raise StructError.
Proof.
  induction chunk_vertices as [|v rest IH]; intro H; simpl.
  - exfalso. apply H. constructor.
  - destruct (coords_fit_dec v) as [Hc|Hc];
      [|rewrite (pack_vertex_overflow Hc); left; reflexivity].
    destruct (colours_fit_dec v) as [Hv|Hv];
      [|rewrite (pack_vertex_error Hc Hv); right; reflexivity].
    rewrite (pack_vertex_ok (conj Hc Hv)). simpl.
    destruct IH as [-> | ->]; [|left; reflexivity|right; reflexivity].
    intro Hrest. apply H. constructor; [split|]; assumption.
Qed.

Lemma pack_all_error chunk_vertices :
  Forall coords_fit chunk_vertices ->
  ~ Forall colours_fit chunk_vertices ->
  pack_all chunk_vertices = Raise StructError.
Proof.
  induction chunk_vertices as [|v rest IH]; intros Hc H; simpl.
  - exfalso. apply H. constructor.
  - inversion Hc as [|v' l Hcv Hcrest]; subst.
    destruct (colours_fit_dec v) as [Hv|Hv].
    + rewrite (pack_vertex_ok (conj Hcv Hv)). simpl.
      rewrite IH; [reflexivity|exact Hcrest|].
      intro Hrest. apply H. constructor; assumption.
    + rewrite (pack_vertex_error Hcv Hv). reflexivity.
Qed.

Lemma pack_all_overflow chunk_vertices :
  Forall colours_fit chunk_vertices ->
  ~ Forall coords_fit chunk_vertices ->
  pack_all chunk_vertices = Raise OverflowError.
Proof.
  induction chunk_vertices as [|v rest IH]; intros Hc H; simpl.
  - exfalso. apply H. constructor.
  - inversion Hc as [|v' l Hcv Hcrest]; subst.
    destruct (coords_fit_dec v) as [Hv|Hv].
    + rewrite (pack_vertex_ok (conj Hv Hcv)). simpl.
      rewrite IH; [reflexivity|exact Hcrest|].
      intro Hrest. apply H. constructor; assumption.
    + rewrite (pack_vertex_overflow Hv). reflexivity.
Qed.

Lemma anchor_points_fit bbox : Forall colours_fit (anchor_points bbox).
Proof.
  unfold anchor_points. repeat constructor; simpl; unfold uchar; lia.
Qed.

(** The anchors can be packed exactly when the six bounds of the box are in
    the range of a 32-bit float. *)
Lemma anchor_points_packable bbox :
  box_fits bbox <-> Forall packable (anchor_points bbox).
Proof.
  split.
  - intro H.
    destruct (H AxisX) as [Hx Hx'], (H AxisY) as [Hy Hy'],
      (H AxisZ) as [Hz Hz']. simpl in *.
    unfold anchor_points.
    repeat (apply Forall_cons;
            [split; [repeat split; simpl; assumption
                    |repeat split; simpl; unfold uchar; lia]|]).
    apply Forall_nil.
  - intros H a. unfold anchor_points in H.
    inversion H as [|v0 l0 [(Hx & Hy & Hz) _] H0]; subst.
    do 7 (inversion H0 as [|? ? ? H1]; subst; clear H0; rename H1 into H0).
    match goal with
    | Hl : packable (Vertex6 (cx (bb_max bbox)) _ _ _ _ _) |- _ =>
        destruct Hl as [(Hx' & Hy' & Hz') _]
    end.
    simpl in *. destruct a; simpl; split; assumption.
Qed.

Lemma write_ply_chunk_header vertices overall_bbox file file_size :
  write_ply_chunk vertices overall_bbox = Ok (file, file_size) ->
  records file = chunk_vertices_of vertices overall_bbox /\
  header_text file = chunk_header (string_of_nat (List.length (records file))) /\
  file_size
  = (String.length (header_text file) + 15 * List.length (records file))%nat.
Proof.
  unfold write_ply_chunk.
  destruct (pack_all _) as [w| |] eqn:E; simpl; try discriminate.
  intro H. apply pack_all_ok in E. subst w. inversion H. simpl.
  repeat split.
Qed.

Lemma Forall_packable_split (vertices : list Vertex) :
  Forall packable vertices
  <-> Forall coords_fit vertices /\ Forall colours_fit vertices.
Proof.
  split.
  - intro H. split; (eapply Forall_impl; [|exact H]); intros v [Hc Hv];
      assumption.
  - intros [Hc Hv]. induction vertices as [|v rest IH]; constructor.
    + inversion Hc; inversion Hv; subst. split; assumption.
    + inversion Hc; inversion Hv; subst. apply IH; assumption.
Qed.

Lemma Forall_packable_dec (vertices : list Vertex) :
  Forall packable vertices \/ ~ Forall packable vertices.
Proof.
  induction vertices as [|v rest IH].
  - left. constructor.
  - destruct (coords_fit_dec v) as [Hc|Hc];
      [|right; intro H; inversion H as [|? ? [Hc' _] _]; contradiction].
    destruct (colours_fit_dec v) as [Hv|Hv];
      [|right; intro H; inversion H as [|? ? [_ Hv'] _]; contradiction].
    destruct IH as [IH|IH].
    + left. constructor; [split|]; assumption.
    + right. intro H. inversion H. contradiction.
Qed.

(** [write_ply_chunk] writes the file exactly when every field of every
    vertex it encodes, the group followed by the eight anchors, fits its
    format: coordinates in the range of a 32-bit float (a magnitude
    below [2^128 - 2^103]) and colours in 0..255.  The file then holds that
    list, its header declares that number of vertices, and its size is the
    length of the header plus 15 bytes per vertex written.  Otherwise the
    first field that does not fit decides: a coordinate raises
    [OverflowError] and a colour [struct.error]; when all the coordinates
    fit the error is [struct.error], when all the colours fit it is
    [OverflowError]. *)
Theorem write_ply_chunk_outcome
        (vertices : list Vertex) (overall_bbox : BoundingBox) :
  let written := vertices ++ anchor_points overall_bbox in
  let run := write_ply_chunk vertices (Some overall_bbox) in
  (Forall packable written ->
   exists file,
     run = Ok (file, (String.length (header_text file)
                      + 15 * (List.length vertices + 8))%nat) /\
     records file = written /\
     header_text file
     = chunk_header (string_of_nat (List.length vertices + 8))) /\
  (~ Forall packable written ->
   run = Raise OverflowError \/ run = Raise StructError) /\
  (Forall coords_fit written -> ~ Forall colours_fit written ->
   run = Raise StructError) /\
  (Forall colours_fit written -> ~ Forall coords_fit written ->
   run = Raise OverflowError).
Proof.
  intros written run. subst run. unfold write_ply_chunk.
  simpl chunk_vertices_of. fold written.
  split; [|split; [|split]].
  - intro Hall. rewrite (pack_all_fit Hall). cbn [bind].
    exists (mkPlyFile (chunk_header (string_of_nat (List.length vertices + 8)))
                      written).
    cbn [records header_text]. split; [|split; reflexivity].
    unfold written. rewrite length_app. reflexivity.
  - intro Hbad. destruct (pack_all_unfit Hbad) as [-> | ->];
      [left|right]; reflexivity.
  - intros Hc Hbad. rewrite (pack_all_error Hc Hbad). reflexivity.
  - intros Hc Hbad. rewrite (pack_all_overflow Hc Hbad). reflexivity.
Qed.

Lemma write_ply_chunk_outcome_witness :
  let overall_bbox := calculate_bounding_box three_on_axis in
  Forall packable (three_on_axis ++ anchor_points overall_bbox) /\
  (exists file,
     write_ply_chunk three_on_axis (Some overall_bbox)
     = Ok (file, (String.length (header_text file) + 15 * (3 + 8))%nat)) /\
  write_ply_chunk [Vertex6 0 0 0 300 0 0] (Some overall_bbox)
  = Raise StructError /\
  write_ply_chunk [Vertex6 (inject_Z (10 ^ 39)) 0 0 300 0 0]
                  (Some overall_bbox)
  = Raise OverflowError.
Proof.
  intro overall_bbox.
  assert (Hfit : Forall packable (three_on_axis ++ anchor_points overall_bbox)).
  { repeat constructor; simpl; unfold uchar; lia. }
  split; [exact Hfit|]. split; [|split].
  - destruct (proj1 (write_ply_chunk_outcome three_on_axis overall_bbox) Hfit)
      as (file & Hw & _).
    exists file. exact Hw.
  - apply (proj1 (proj2 (proj2 (write_ply_chunk_outcome
                                  [Vertex6 0 0 0 300 0 0] overall_bbox)))).
    + repeat constructor.
    + intro H. inversion H as [|v l (Hr & _) _]. unfold uchar in Hr.
      simpl in Hr. lia.
  - destruct (proj1 (proj2 (write_ply_chunk_outcome
                              [Vertex6 (inject_Z (10 ^ 39)) 0 0 300 0 0]
                              overall_bbox))) as [H|H].
    + intro H. inversion H as [|v l [(Hx & _) _] _].
      vm_compute in Hx. discriminate Hx.
    + exact H.
    + exfalso. vm_compute in H. discriminate H.
Defined.

(** ** A written header read back by [analyze_ply_file] *)

Lemma append_assoc (s t u : string) : ((s ++ t) ++ u = s ++ (t ++ u))%string.
Proof. induction s as [|c s IH]; simpl; [reflexivity|rewrite IH; reflexivity]. Qed.

Lemma append_nil_r (s : string) : (s ++ "")%string = s.
Proof. induction s as [|c s IH]; simpl; [reflexivity|rewrite IH; reflexivity]. Qed.

Lemma length_append (s t : string) :
  String.length (s ++ t) = (String.length s + String.length t)%nat.
Proof. induction s as [|c s IH]; simpl; [reflexivity|rewrite IH; reflexivity]. Qed.

Lemma string_of_list_ascii_app (l1 l2 : list ascii) :
  string_of_list_ascii (l1 ++ l2)
  = (string_of_list_ascii l1 ++ string_of_list_ascii l2)%string.
Proof. induction l1 as [|c l1 IH]; simpl; [reflexivity|rewrite IH; reflexivity]. Qed.

Lemma token_char_facts c :
  token_char c = true ->
  is_ascii c = true /\ is_space c = false /\ Ascii.eqb c newline = false.
Proof.
  unfold token_char. intro H. apply andb_true_iff in H.
  destruct H as [Ha Hs]. apply negb_true_iff in Hs.
  repeat split; try assumption.
  destruct (Ascii.eqb c newline) eqn:E; [|reflexivity].
  apply Ascii.eqb_eq in E. subst c. discriminate Hs.
Qed.

Lemma readline_token (count rest : string) :
  all_token count = true ->
  readline (count ++ String newline rest)
  = ((count ++ String newline "")%string, rest).
Proof.
  induction count as [|c count IH]; simpl; intro H.
  - reflexivity.
  - apply andb_true_iff in H. destruct H as [Hc H].
    destruct (token_char_facts c Hc) as (_ & _ & ->).
    rewrite (IH H). reflexivity.
Qed.

Lemma decode_ascii_token (count s s' : string) :
  all_token count = true ->
  decode_ascii s = Ok s' ->
  decode_ascii (count ++ s) = Ok (count ++ s')%string.
Proof.
  induction count as [|c count IH]; simpl; intros H Hs.
  - exact Hs.
  - apply andb_true_iff in H. destruct H as [Hc H].
    destruct (token_char_facts c Hc) as (-> & _ & _).
    rewrite (IH H Hs). reflexivity.
Qed.

Lemma rstrip_token (count : string) :
  all_token count = true ->
  rstrip (count ++ String newline "") = count.
Proof.
  induction count as [|c count IH]; intro H.
  - reflexivity.
  - simpl in H. apply andb_true_iff in H. destruct H as [Hc H].
    destruct (token_char_facts c Hc) as (_ & Hs & _).
    cbn [append rstrip]. rewrite (IH H).
    destruct count; [rewrite Hs|]; reflexivity.
Qed.

Lemma split_from_token (count : string) :
  forall word,
  all_token count = true ->
  word <> [] \/ count <> EmptyString ->
  split_from count word
  = [(string_of_list_ascii (rev word) ++ count)%string].
Proof.
  induction count as [|c count IH]; intros word H Hne.
  - destruct Hne as [Hne|Hne]; [|contradiction].
    destruct word; [contradiction|].
    cbn [split_from]. rewrite append_nil_r. reflexivity.
  - simpl in H. apply andb_true_iff in H. destruct H as [Hc H].
    destruct (token_char_facts c Hc) as (_ & Hs & _).
    cbn [split_from]. rewrite Hs.
    rewrite (IH (c :: word) H) by (left; discriminate).
    simpl rev. rewrite string_of_list_ascii_app, append_assoc. reflexivity.
Qed.

Lemma string_of_uint_token (d : Decimal.uint) :
  all_token (DecimalString.NilEmpty.string_of_uint d) = true.
Proof. induction d; simpl; auto. Qed.

(** The decimal text of a number is a non-empty token. *)
Lemma string_of_nat_token (n : nat) :
  all_token (string_of_nat n) = true /\ string_of_nat n <> EmptyString.
Proof.
  unfold string_of_nat, DecimalString.NilZero.string_of_uint.
  destruct (Nat.to_uint n) eqn:E;
    (split; [first [reflexivity | apply (string_of_uint_token u)]
            |simpl; discriminate]).
Qed.

Lemma rstrip_app (prefix_text s : string) :
  rstrip s <> EmptyString ->
  rstrip (prefix_text ++ s) = (prefix_text ++ rstrip s)%string.
Proof.
  intro Hne. induction prefix_text as [|c p IH]; [reflexivity|].
  cbn [append rstrip]. rewrite IH.
  destruct (p ++ rstrip s)%string eqn:E; [|reflexivity].
  destruct p; [simpl in E; contradiction|discriminate E].
Qed.

Lemma decode_ascii_app (p s s' : string) :
  decode_ascii p = Ok p ->
  decode_ascii s = Ok s' ->
  decode_ascii (p ++ s) = Ok (p ++ s')%string.
Proof.
  induction p as [|c p IH]; simpl; intros Hp Hs.
  - exact Hs.
  - destruct (is_ascii c); [|discriminate].
    destruct (decode_ascii p) as [p'| |]; simpl in Hp; try discriminate.
    inversion Hp; subst p'. rewrite (IH eq_refl Hs). reflexivity.
Qed.

(** One turn of the header loop on a line that [readline], [decode] and
    [strip] treat as expected. *)
Lemma read_header_line fuel (text rest : string) header_lines header_size :
  readline (text ++ String newline rest)
  = ((text ++ String newline "")%string, rest) ->
  decode_ascii (text ++ String newline "")
  = Ok (text ++ String newline "")%string ->
  strip (text ++ String newline "") = text ->
  read_header (S fuel) (text ++ String newline rest) header_lines header_size
  = if String.eqb text "end_header"
    then Ok (header_lines ++ [text],
             (header_size + S (String.length text))%nat)
    else read_header fuel rest (header_lines ++ [text])
                     (header_size + S (String.length text))%nat.
Proof.
  intros Hread Hdecode Hstrip. cbn [read_header].
  rewrite Hread, Hdecode. cbn [bind]. rewrite Hstrip, length_append.
  simpl String.length. rewrite Nat.add_1_r. reflexivity.
Qed.

Lemma read_header_count_line fuel (count rest : string) header_lines header_size :
  all_token count = true -> count <> EmptyString ->
  read_header (S fuel) (("element vertex " ++ count) ++ String newline rest)
              header_lines header_size
  = read_header fuel rest (header_lines ++ ["element vertex " ++ count]%string)
                (header_size + S (15 + String.length count))%nat.
Proof.
  intros Htok Hne.
  rewrite read_header_line.
  - replace ("element vertex " ++ count =? "end_header")%string with false
      by reflexivity.
    rewrite length_append. reflexivity.
  - cbn. rewrite readline_token by exact Htok. reflexivity.
  - rewrite append_assoc.
    apply decode_ascii_app; [reflexivity|].
    apply decode_ascii_token; [exact Htok|reflexivity].
  - unfold strip. rewrite append_assoc.
    replace (lstrip ("element vertex " ++ count ++ String newline ""))
      with ("element vertex " ++ count ++ String newline "")%string
      by reflexivity.
    rewrite rstrip_app; rewrite rstrip_token by exact Htok;
      [reflexivity|exact Hne].
Qed.

Ltac header_line :=
  rewrite read_header_line by reflexivity;
  match goal with
  | |- context [String.eqb ?text "end_header"] =>
      let v := eval vm_compute in (String.eqb text "end_header") in
      replace (String.eqb text "end_header") with v by reflexivity
  end;
  cbv iota.

(** The header of a chunk file, followed by any bytes, is read back by
    [analyze_ply_file] in ten turns of its loop. *)
Lemma chunk_header_reads_back
      (int : string -> result Z) (count : string) (n : Z)
      (body : string) (fuel : nat) :
  all_token count = true -> count <> EmptyString ->
  int count = Ok n ->
  analyze_ply_file int (10 + fuel) (chunk_header count ++ body)
  = Ok (mkPLYHeader (Some "binary_little_endian"%string) n
                    ["property float x"; "property float y";
                     "property float z"; "property uchar red";
                     "property uchar green"; "property uchar blue"]%string
                    (String.length (chunk_header count))).
Proof.
  intros Htok Hne Hint. unfold analyze_ply_file.
  replace (chunk_header count ++ body)%string
    with ("ply" ++ String newline
          ("format binary_little_endian 1.0" ++ String newline
           (("element vertex " ++ count) ++ String newline
            ("property float x" ++ String newline
             ("property float y" ++ String newline
              ("property float z" ++ String newline
               ("property uchar red" ++ String newline
                ("property uchar green" ++ String newline
                 ("property uchar blue" ++ String newline
                  ("end_header" ++ String newline body))))))))))%string
    by (unfold chunk_header, nl; cbn; rewrite append_assoc; reflexivity).
  change (10 + fuel)%nat
    with (S (S (S (S (S (S (S (S (S (S fuel)))))))))).
  header_line. header_line.
  rewrite read_header_count_line by assumption.
  do 7 header_line.
  cbn [bind app].
  simpl parse_header. unfold split. simpl split_from.
  rewrite split_from_token by (auto; right; exact Hne).
  change (string_of_list_ascii (rev []) ++ count)%string with count.
  unfold getitem. cbn [nth_error bind]. rewrite Hint. cbn [bind].
  f_equal. f_equal.
  unfold chunk_header, nl. rewrite !length_append.
  cbn [String.length]. lia.
Qed.

Lemma decimal_int_string_of_nat (n : nat) :
  decimal_int (string_of_nat n) = Ok (Z.of_nat n).
Proof.
  unfold decimal_int, string_of_nat.
  pose proof (DecimalNat.Unsigned.of_to n) as Hn.
  destruct (Nat.to_uint n) as [|u|u|u|u|u|u|u|u|u|u] eqn:E.
  - simpl in Hn. subst n. reflexivity.
  - rewrite DecimalString.NilZero.usu by discriminate. rewrite Hn. reflexivity.
  - rewrite DecimalString.NilZero.usu by discriminate. rewrite Hn. reflexivity.
  - rewrite DecimalString.NilZero.usu by discriminate. rewrite Hn. reflexivity.
  - rewrite DecimalString.NilZero.usu by discriminate. rewrite Hn. reflexivity.
  - rewrite DecimalString.NilZero.usu by discriminate. rewrite Hn. reflexivity.
  - rewrite DecimalString.NilZero.usu by discriminate. rewrite Hn. reflexivity.
  - rewrite DecimalString.NilZero.usu by discriminate. rewrite Hn. reflexivity.
  - rewrite DecimalString.NilZero.usu by discriminate. rewrite Hn. reflexivity.
  - rewrite DecimalString.NilZero.usu by discriminate. rewrite Hn. reflexivity.
  - rewrite DecimalString.NilZero.usu by discriminate. rewrite Hn. reflexivity.
Qed.

(** A chunk file can be analysed again: whatever bytes follow the header
    that [write_ply_chunk] wrote, [analyze_ply_file] returns the binary
    format, the number of vertices written (anchors included), the six
    property lines, and a header size that is the length of the header
    text, so that the 15-byte records start there and end at the file
    size.  [int] only has to read back the decimal text of that number. *)
Theorem written_header_reads_back
        (int : string -> result Z) (vertices : list Vertex)
        (overall_bbox : option BoundingBox) (file : PlyFile)
        (file_size : nat) (body : string) (fuel : nat) :
  write_ply_chunk vertices overall_bbox = Ok (file, file_size) ->
  int (string_of_nat (List.length (records file)))
  = Ok (Z.of_nat (List.length (records file))) ->
  exists header,
    analyze_ply_file int (10 + fuel) (header_text file ++ body) = Ok header /\
    format_type header = Some "binary_little_endian"%string /\
    vertex_count header = Z.of_nat (List.length (records file)) /\
    properties header
    = ["property float x"; "property float y"; "property float z";
       "property uchar red"; "property uchar green";
       "property uchar blue"]%string /\
    header_size header = String.length (header_text file) /\
    file_size
    = (header_size header + 15 * Z.to_nat (vertex_count header))%nat.
Proof.
  intros Hw Hint.
  apply write_ply_chunk_header in Hw. destruct Hw as (_ & Hhead & Hsize).
  destruct (string_of_nat_token (List.length (records file))) as [Htok Hne].
  eexists. split.
  - rewrite Hhead. apply chunk_header_reads_back; eassumption.
  - cbn [format_type vertex_count properties header_size].
    rewrite <- Hhead, Nat2Z.id. repeat split. exact Hsize.
Qed.

Lemma written_header_reads_back_witness :
  exists file file_size header,
    write_ply_chunk three_on_axis None = Ok (file, file_size) /\
    decimal_int (string_of_nat (List.length (records file))) = Ok 3%Z /\
    analyze_ply_file decimal_int 10 (header_text file ++ "some bytes")
    = Ok header /\
    vertex_count header = 3%Z /\
    file_size = (header_size header + 45)%nat.
Proof.
  destruct (write_ply_chunk three_on_axis None) as [[file file_size]| |] eqn:E;
    [|vm_compute in E; discriminate E|vm_compute in E; discriminate E].
  assert (Hlen : List.length (records file) = 3%nat).
  { vm_compute in E. inversion E. reflexivity. }
  assert (Hint : decimal_int (string_of_nat (List.length (records file)))
                 = Ok (Z.of_nat (List.length (records file))))
    by apply decimal_int_string_of_nat.
  destruct (@written_header_reads_back decimal_int three_on_axis None file
              file_size "some bytes" 0%nat E Hint)
    as (header & Hh & _ & Hcount & _ & _ & Hsize).
  exists file, file_size, header.
  rewrite Hlen in Hcount. rewrite Hcount in Hsize.
  split; [reflexivity|]. split; [rewrite Hint, Hlen; reflexivity|].
  split; [exact Hh|]. split; [exact Hcount|exact Hsize].
Defined.

(** ** What a successful analysis returns *)

Lemma readline_app (f : string) :
  (fst (readline f) ++ snd (readline f))%string = f.
Proof.
  induction f as [|c f IH]; simpl.
  - reflexivity.
  - destruct (Ascii.eqb c newline); simpl.
    + reflexivity.
    + destruct (readline f) as [line f']. simpl in *. rewrite IH. reflexivity.
Qed.

Lemma readline_again (f : string) :
  readline (fst (readline f) ++ snd (readline f))
  = (fst (readline f), snd (readline f)).
Proof. rewrite readline_app. destruct (readline f); reflexivity. Qed.

Lemma read_header_ok fuel :
  forall f header_lines header_size header_lines' header_size',
  read_header fuel f header_lines header_size
  = Ok (header_lines', header_size') ->
  exists before last_line body new_lines,
    f = ((before ++ last_line) ++ body)%string /\
    header_size'
    = (header_size + String.length (before ++ last_line))%nat /\
    readline (last_line ++ body) = (last_line, body) /\
    decode_ascii last_line <> Raise UnicodeDecodeError /\
    continues_header last_line = false /\
    header_lines' = header_lines ++ new_lines ++ ["end_header"%string] /\
    Forall (fun line => line <> "end_header"%string) new_lines.
Proof.
  induction fuel as [|fuel IH]; intros f lines size lines' size' H.
  - discriminate.
  - cbn [read_header] in H.
    pose proof (readline_app f) as Happ.
    pose proof (readline_again f) as Hagain.
    destruct (readline f) as [line f']. simpl in Happ, Hagain.
    destruct (decode_ascii line) as [s| |] eqn:Hdec; simpl in H;
      try discriminate.
    destruct (String.eqb (strip s) "end_header") eqn:Heq.
    + inversion H; subst. apply String.eqb_eq in Heq.
      exists EmptyString, line, f', []. simpl.
      repeat split; auto.
      * rewrite Hdec. discriminate.
      * unfold continues_header. rewrite Hdec, Heq. reflexivity.
      * rewrite Heq. reflexivity.
    + apply IH in H.
      destruct H as (before & last_line & body & new_lines
                     & Hf & Hsize & Hread & Hd & Hc & Hlines & Hnew).
      exists (line ++ before)%string, last_line, body, (strip s :: new_lines).
      repeat split; auto.
      * rewrite <- Happ, Hf, !append_assoc. reflexivity.
      * rewrite Hsize, !length_append. lia.
      * rewrite Hlines, <- app_assoc. reflexivity.
      * constructor; [|exact Hnew]. apply String.eqb_neq, Heq.
Qed.

Lemma prefix_property_exclusive (line : string) :
  String.prefix "property" line = true ->
  String.prefix "format" line = false /\
  String.prefix "element vertex" line = false.
Proof.
  destruct line as [|c line]; [discriminate|].
  cbn [String.prefix].
  destruct (ascii_dec "p" c) as [<-|Hc]; [|discriminate].
  intros _. split; reflexivity.
Qed.

Lemma parse_header_ok (int : string -> result Z) header_lines :
  forall format_type vertex_count properties format_type' vertex_count'
         properties',
  parse_header int header_lines format_type vertex_count properties
  = Ok (format_type', vertex_count', properties') ->
  properties'
  = properties ++ filter (String.prefix "property") header_lines /\
  (Forall (fun line => String.prefix "element vertex" line = false)
          header_lines ->
   vertex_count' = vertex_count) /\
  (Forall (fun line => String.prefix "format" line = false) header_lines ->
   format_type' = format_type).
Proof.
  induction header_lines as [|line rest IH];
    intros ft vc props ft' vc' props' H.
  - inversion H; subst. rewrite app_nil_r. auto.
  - cbn [parse_header filter] in H |- *.
    destruct (String.prefix "property" line) eqn:Ep.
    + destruct (prefix_property_exclusive line Ep) as [Ef Ee].
      rewrite Ef, Ee in H. apply IH in H. destruct H as (Hp & Hv & Hf).
      split; [rewrite Hp, <- app_assoc; reflexivity|].
      split; intro Hall; inversion Hall; auto.
    + destruct (String.prefix "format" line) eqn:Ef.
      * destruct (getitem (split line) 1) as [t| |]; simpl in H;
          try discriminate.
        apply IH in H. destruct H as (Hp & Hv & Hf).
        split; [exact Hp|].
        split; intro Hall; inversion Hall; subst; auto. congruence.
      * destruct (String.prefix "element vertex" line) eqn:Ee.
        -- destruct (getitem (split line) 2) as [t| |]; simpl in H;
             try discriminate.
           destruct (int t) as [n| |]; simpl in H; try discriminate.
           apply IH in H. destruct H as (Hp & Hv & Hf).
           split; [exact Hp|].
           split; intro Hall; inversion Hall; subst; auto. congruence.
        -- apply IH in H. destruct H as (Hp & Hv & Hf).
           split; [exact Hp|].
           split; intro Hall; inversion Hall; auto.
Qed.

(** When [analyze_ply_file] returns, [header_size] is the number of bytes
    up to and including a line that strips to [end_header], so it never
    exceeds the length of the file: reading resumes just after that
    line. *)
Theorem analyze_ply_file_header_size
        (int : string -> result Z) (fuel : nat) (file : string)
        (header : PLYHeader) :
  analyze_ply_file int fuel file = Ok header ->
  exists before last_line body,
    file = ((before ++ last_line) ++ body)%string /\
    header_size header = String.length (before ++ last_line) /\
    readline (last_line ++ body) = (last_line, body) /\
    continues_header last_line = false /\
    decode_ascii last_line <> Raise UnicodeDecodeError /\
    (header_size header <= String.length file)%nat.
Proof.
  unfold analyze_ply_file. intro H.
  destruct (read_header fuel file [] 0) as [[lines size]| |] eqn:Hr;
    simpl in H; try discriminate.
  destruct (parse_header int lines None 0 []) as [[[ft vc] props]| |];
    simpl in H; try discriminate.
  inversion H; subst header. cbn [header_size].
  apply read_header_ok in Hr.
  destruct Hr as (before & last_line & body & new_lines
                  & Hf & Hsize & Hread & Hd & Hc & _).
  exists before, last_line, body. simpl in Hsize.
  repeat split; auto.
  rewrite Hf, Hsize, (length_append (before ++ last_line)). lia.
Qed.

Lemma analyze_ply_file_header_size_witness :
  exists header,
    analyze_ply_file decimal_int 10 (chunk_header "11" ++ "some bytes")
    = Ok header /\
    (header_size header
     <= String.length (chunk_header "11" ++ "some bytes"))%nat.
Proof.
  destruct (analyze_ply_file decimal_int 10
              (chunk_header "11" ++ "some bytes")) as [header| |] eqn:E;
    [|vm_compute in E; discriminate E|vm_compute in E; discriminate E].
  exists header. split; [reflexivity|].
  destruct (analyze_ply_file_header_size _ _ _ E)
    as (before & last_line & body & _ & _ & _ & _ & _ & Hle).
  exact Hle.
Defined.

(** The fields of a returned header.  The lines read end with the first
    line that strips to [end_header]; the property list holds exactly the
    lines read that start with [property], in their order; without a line
    starting with [element vertex] the vertex count is 0, and without a
    line starting with [format] there is no format. *)
Theorem analyze_ply_file_fields
        (int : string -> result Z) (fuel : nat) (file : string)
        (header : PLYHeader) :
  analyze_ply_file int fuel file = Ok header ->
  exists earlier_lines,
    let header_lines := earlier_lines ++ ["end_header"%string] in
    read_header fuel file [] 0 = Ok (header_lines, header_size header) /\
    Forall (fun line => line <> "end_header"%string) earlier_lines /\
    properties header = filter (String.prefix "property") header_lines /\
    (Forall (fun line => String.prefix "element vertex" line = false)
            header_lines ->
     vertex_count header = 0%Z) /\
    (Forall (fun line => String.prefix "format" line = false) header_lines ->
     format_type header = None).
Proof.
  unfold analyze_ply_file. intro H.
  destruct (read_header fuel file [] 0) as [[lines size]| |] eqn:Hr;
    simpl in H; try discriminate.
  destruct (parse_header int lines None 0 []) as [[[ft vc] props]| |] eqn:Hp;
    simpl in H; try discriminate.
  inversion H; subst header. cbn [header_size properties vertex_count format_type].
  destruct (read_header_ok _ _ _ _ Hr)
    as (_ & _ & _ & new_lines & _ & _ & _ & _ & _ & Hlines & Hnew).
  simpl in Hlines. subst lines.
  exists new_lines. cbv zeta. split; [reflexivity|]. split; [exact Hnew|].
  apply parse_header_ok in Hp. exact Hp.
Qed.

Lemma analyze_ply_file_fields_witness :
  analyze_ply_file decimal_int 3 ("ply" ++ nl ++ "end_header" ++ nl)
  = Ok (mkPLYHeader None 0 [] 15).
Proof.
  destruct (analyze_ply_file decimal_int 3 ("ply" ++ nl ++ "end_header" ++ nl))
    as [header| |] eqn:E;
    [|vm_compute in E; discriminate E|vm_compute in E; discriminate E].
  destruct (analyze_ply_file_fields _ _ _ E)
    as (lines & Hr & _ & Hp & Hv & Hf).
  cbv zeta in *.
  assert (Hc : read_header 3 ("ply" ++ nl ++ "end_header" ++ nl) [] 0
               = Ok (["ply"%string] ++ ["end_header"%string], 15%nat))
    by (vm_compute; reflexivity).
  rewrite Hc in Hr. inversion Hr as [[Hlines Hsize]].
  change ["ply"%string; "end_header"%string]
    with (["ply"%string] ++ ["end_header"%string]) in Hlines.
  apply app_inj_tail in Hlines. destruct Hlines as [Hlines _]. subst lines.
  destruct header as [ft vc props size]. simpl in *.
  rewrite Hv, Hf, Hp, <- Hsize by (repeat constructor).
  reflexivity.
Defined.

(** ** [read_vertices_from_ply] *)

Lemma read_spec (n : nat) (f : string) :
  (fst (read n f) ++ snd (read n f))%string = f /\
  String.length (fst (read n f)) = Nat.min n (String.length f) /\
  String.length (snd (read n f)) = (String.length f - n)%nat.
Proof.
  revert f. induction n as [|n IH]; intro f.
  - simpl. destruct f; simpl; auto.
  - destruct f as [|c f]; simpl; auto.
    specialize (IH f). destruct (read n f) as [bytes f']. simpl in *.
    destruct IH as (Happ & Hl & Hr). rewrite Happ, Hl, Hr. auto.
Qed.

Lemma byte_value_fits (c : ascii) : uchar (byte_value c).
Proof.
  unfold uchar, byte_value. pose proof (nat_ascii_bounded c). lia.
Qed.

Lemma unpack_BBB_fits (bytes : string) :
  let '(vr, vg, vb) :=
    match unpack_BBB bytes with
    | Ok rgb => rgb
    | _ => (255, 255, 255)%Z
    end in
  uchar vr /\ uchar vg /\ uchar vb.
Proof.
  assert (Hwhite : uchar 255) by (unfold uchar; lia).
  destruct bytes as [|c1 [|c2 [|c3 [|c4 bytes]]]]; simpl; auto.
  repeat split; apply byte_value_fits.
Qed.

(** One binary record: it needs twelve bytes for the position, takes up to
    three more for the colour, and yields a vertex whose colours are
    bytes. *)
Lemma read_binary_vertex_spec (unpack_float : string -> Q) (f : string) :
  ((12 <= String.length f)%nat ->
   exists vertex f',
     read_binary_vertex unpack_float f = Ok (vertex, f') /\
     String.length f' = (String.length f - 15)%nat /\
     colours_fit vertex /\ full_data vertex = None) /\
  ((String.length f < 12)%nat ->
   read_binary_vertex unpack_float f = Raise StructError).
Proof.
  unfold read_binary_vertex.
  destruct (read_spec 12 f) as (_ & Hlen & Hrest).
  destruct (read 12 f) as [position f1]. cbn [fst snd] in Hlen, Hrest.
  unfold unpack_fff. split; intro H.
  - rewrite Hlen, Nat.min_l by exact H. cbn [Nat.eqb bind].
    destruct (read_spec 3 f1) as (_ & _ & Hrest2).
    destruct (read 3 f1) as [colour f2]. cbn [fst snd] in Hrest2.
    pose proof (unpack_BBB_fits colour) as Hfit.
    destruct (match unpack_BBB colour with
              | Ok rgb => rgb
              | _ => (255, 255, 255)%Z
              end) as [[vr vg] vb].
    eexists. eexists. split; [reflexivity|].
    split; [lia|]. split; [exact Hfit|reflexivity].
  - rewrite Hlen, Nat.min_r by lia.
    destruct (String.length f =? 12)%nat eqn:E;
      [apply Nat.eqb_eq in E; lia|reflexivity].
Qed.

Lemma read_vertices_loop_length read_one count :
  forall f vertices result,
  read_vertices_loop read_one count f vertices = Ok result ->
  List.length result = (List.length vertices + count)%nat.
Proof.
  induction count as [|count IH]; intros f acc res H; simpl in H.
  - inversion H. lia.
  - destruct (read_one f) as [[vertex f']| |]; simpl in H; try discriminate.
    apply IH in H. rewrite length_app in H. simpl in H. lia.
Qed.

Lemma read_vertices_loop_forall (P : Vertex -> Prop) read_one count :
  (forall f vertex f', read_one f = Ok (vertex, f') -> P vertex) ->
  forall f vertices result,
  Forall P vertices ->
  read_vertices_loop read_one count f vertices = Ok result ->
  Forall P result.
Proof.
  intro Hone. induction count as [|count IH]; intros f acc res Hacc H;
    simpl in H.
  - inversion H; subst. exact Hacc.
  - destruct (read_one f) as [[vertex f']| |] eqn:E; simpl in H;
      try discriminate.
    eapply IH; [|exact H]. apply Forall_app. split; [exact Hacc|].
    constructor; [|constructor]. eapply Hone, E.
Qed.

(** The reader returns as many vertices as the header declares for the two
    formats it knows, and for any other format, or none, it returns no
    vertex at all, without an error and whatever the declared count. *)
Theorem read_vertices_from_ply_count
        (float : string -> result Q) (int : string -> result Z)
        (unpack_float : string -> Q) (file : string) (header : PLYHeader) :
  (format_type header <> Some "ascii"%string ->
   format_type header <> Some "binary_little_endian"%string ->
   read_vertices_from_ply float int unpack_float file header = Ok []) /\
  (forall vertices,
     read_vertices_from_ply float int unpack_float file header = Ok vertices ->
     format_type header = Some "ascii"%string \/
     format_type header = Some "binary_little_endian"%string ->
     List.length vertices = Z.to_nat (vertex_count header)).
Proof.
  unfold read_vertices_from_ply. split.
  - intros Ha Hb. destruct (format_type header) as [fmt|]; [|reflexivity].
    destruct (String.eqb_spec fmt "ascii") as [->|_]; [contradiction|].
    destruct (String.eqb_spec fmt "binary_little_endian") as [->|_];
      [contradiction|reflexivity].
  - intros vertices H [Hf|Hf]; rewrite Hf in H; cbn [String.eqb] in H.
    + change (String.eqb "ascii" "ascii") with true in H.
      apply read_vertices_loop_length in H. exact H.
    + change (String.eqb "binary_little_endian" "ascii") with false in H.
      change (String.eqb "binary_little_endian" "binary_little_endian")
        with true in H.
      apply read_vertices_loop_length in H. exact H.
Qed.

Lemma read_vertices_from_ply_count_witness :
  read_vertices_from_ply (fun _ => Ok 0) decimal_int (fun _ => 0)
                         "any bytes"
                         (mkPLYHeader (Some "binary_big_endian"%string) 7 [] 3)
  = Ok [].
Proof.
  apply (proj1 (read_vertices_from_ply_count (fun _ => Ok 0) decimal_int
                  (fun _ => 0) "any bytes"
                  (mkPLYHeader (Some "binary_big_endian"%string) 7 [] 3)));
    discriminate.
Defined.

Lemma read_binary_loop_spec (unpack_float : string -> Q) count :
  forall f vertices,
  ((15 * count <= String.length f + 3)%nat ->
   exists result,
     read_vertices_loop (read_binary_vertex unpack_float) count f vertices
     = Ok result) /\
  ((String.length f + 3 < 15 * count)%nat ->
   read_vertices_loop (read_binary_vertex unpack_float) count f vertices
   = Raise StructError).
Proof.
  induction count as [|count IH]; intros f acc.
  - split; intro H; [simpl; eauto|lia].
  - destruct (read_binary_vertex_spec unpack_float f) as [Hok Hbad].
    cbn [read_vertices_loop].
    destruct (Nat.le_gt_cases 12 (String.length f)) as [H12|H12].
    + destruct (Hok H12) as (v & f' & Hv & Hlen & _). rewrite Hv. cbn [bind].
      destruct (IH f' (acc ++ [v])) as [IHok IHbad].
      split; intro H; [apply IHok|apply IHbad]; lia.
    + rewrite (Hbad H12). split; intro H; [lia|reflexivity].
Qed.

(** The binary reader and truncated files.  With [n] vertices declared and
    [avail] bytes after the header, the read succeeds exactly when the
    last position is complete ([15 * n <= avail + 3]): the bytes missing
    from the last colour are replaced by white.  A shorter file raises
    [struct.error].  The vertices returned have colours between 0 and 255
    and no raw fields. *)
Theorem read_binary_vertices
        (float : string -> result Q) (int : string -> result Z)
        (unpack_float : string -> Q) (file : string) (header : PLYHeader) :
  format_type header = Some "binary_little_endian"%string ->
  let avail := String.length (seek (header_size header) file) in
  let n := Z.to_nat (vertex_count header) in
  ((15 * n <= avail + 3)%nat ->
   exists vertices,
     read_vertices_from_ply float int unpack_float file header = Ok vertices /\
     List.length vertices = n /\
     Forall (fun vertex => colours_fit vertex /\ full_data vertex = None)
            vertices) /\
  ((avail + 3 < 15 * n)%nat ->
   read_vertices_from_ply float int unpack_float file header
   = Raise StructError).
Proof.
  intros Hf avail n. unfold read_vertices_from_ply. rewrite Hf.
  change (String.eqb "binary_little_endian" "ascii") with false.
  change (String.eqb "binary_little_endian" "binary_little_endian") with true.
  cbv iota.
  destruct (read_binary_loop_spec unpack_float n
              (seek (header_size header) file) []) as [Hok Hbad].
  split; intro H.
  - destruct (Hok H) as [vertices Hv]. exists vertices.
    split; [exact Hv|]. split.
    + apply read_vertices_loop_length in Hv. exact Hv.
    + eapply read_vertices_loop_forall
        with (P := fun vertex => colours_fit vertex /\ full_data vertex = None);
        [|constructor|exact Hv].
      intros f0 v f' Hone.
      destruct (read_binary_vertex_spec unpack_float f0) as [Hok1 Hbad1].
      destruct (Nat.le_gt_cases 12 (String.length f0)) as [H12|H12].
      * destruct (Hok1 H12) as (v1 & f1 & Hv1 & _ & Hfit & Hnone).
        rewrite Hv1 in Hone. inversion Hone; subst. auto.
      * rewrite (Hbad1 H12) in Hone. discriminate.
  - apply Hbad, H.
Qed.

Lemma read_binary_vertices_witness :
  let header := mkPLYHeader (Some "binary_little_endian"%string) 2 [] 3 in
  read_vertices_from_ply (fun _ => Ok 0) decimal_int (fun _ => 0)
                         "hdr123456789012abc12345678901" header
  = Raise StructError /\
  exists vertices,
    read_vertices_from_ply (fun _ => Ok 0) decimal_int (fun _ => 0)
                           "hdr123456789012abc123456789012a" header
    = Ok vertices /\
    List.length vertices = 2%nat.
Proof.
  intro header.
  destruct (@read_binary_vertices (fun _ => Ok 0) decimal_int (fun _ => 0)
              "hdr123456789012abc12345678901" header eq_refl) as [_ Hbad].
  destruct (@read_binary_vertices (fun _ => Ok 0) decimal_int (fun _ => 0)
              "hdr123456789012abc123456789012a" header eq_refl) as [Hok _].
  split.
  - apply Hbad. vm_compute. lia.
  - destruct Hok as (vertices & Hv & Hlen & _); [vm_compute; lia|].
    exists vertices. split; assumption.
Defined.

Lemma getitem_ok {A : Type} (l : list A) (i : nat) (a : A) :
  getitem l i = Ok a -> (i < List.length l)%nat.
Proof.
  unfold getitem. destruct (nth_error l i) eqn:E; [|discriminate].
  intros _. apply nth_error_Some. congruence.
Qed.

Lemma colour_field_white int values i c :
  colour_field int values i = Ok c ->
  (List.length values <= i)%nat -> c = 255%Z.
Proof.
  unfold colour_field. intros H Hle.
  destruct (Nat.ltb_spec i (List.length values)); [lia|].
  inversion H. reflexivity.
Qed.

(** One ASCII line read as a vertex: the line is not the empty line of the
    end of the file, it has at least three fields, which the vertex keeps,
    and a colour that has no field is white. *)
Lemma read_ascii_vertex_ok float int f vertex f' :
  read_ascii_vertex float int f = Ok (vertex, f') ->
  f <> EmptyString /\ f' = snd (readline f) /\
  exists values,
    full_data vertex = Some values /\
    (3 <= List.length values)%nat /\
    ((List.length values <= 3)%nat -> r vertex = 255%Z) /\
    ((List.length values <= 4)%nat -> g vertex = 255%Z) /\
    ((List.length values <= 5)%nat -> b vertex = 255%Z).
Proof.
  unfold read_ascii_vertex. intro H. split.
  - intro Hf. subst f. discriminate H.
  - destruct (readline f) as [raw f1].
    destruct (decode_ascii raw) as [line| |]; simpl in H; try discriminate.
    set (values := split (strip line)) in *.
    destruct (getitem values 0) as [t0| |]; simpl in H; try discriminate.
    destruct (float t0) as [vx| |]; simpl in H; try discriminate.
    destruct (getitem values 1) as [t1| |]; simpl in H; try discriminate.
    destruct (float t1) as [vy| |]; simpl in H; try discriminate.
    destruct (getitem values 2) as [t2| |] eqn:E2; simpl in H;
      try discriminate.
    destruct (float t2) as [vz| |]; simpl in H; try discriminate.
    destruct (colour_field int values 3) as [vr| |] eqn:Er; simpl in H;
      try discriminate.
    destruct (colour_field int values 4) as [vg| |] eqn:Eg; simpl in H;
      try discriminate.
    destruct (colour_field int values 5) as [vb| |] eqn:Eb; simpl in H;
      try discriminate.
    inversion H; subst. split; [reflexivity|].
    exists values. simpl. split; [reflexivity|].
    split; [apply getitem_ok in E2; lia|].
    repeat split; intro Hle; eapply colour_field_white; eassumption.
Qed.

Lemma read_ascii_loop_lines float int count :
  forall f vertices result m,
  read_vertices_loop (read_ascii_vertex float int) count f vertices
  = Ok result ->
  (String.length f <= m)%nat ->
  (count <= List.length (lines_from m f))%nat.
Proof.
  induction count as [|count IH]; intros f acc res m H Hm; [lia|].
  cbn [read_vertices_loop] in H.
  destruct (read_ascii_vertex float int f) as [[vertex f']| |] eqn:E;
    simpl in H; try discriminate.
  apply read_ascii_vertex_ok in E. destruct E as (Hne & Hf' & _).
  destruct f as [|c f]; [contradiction|].
  destruct m as [|m]; [simpl in Hm; lia|].
  cbn [lines_from].
  pose proof (readline_rest_length (String c f)) as Hlen.
  destruct (readline (String c f)) as [line rest]. simpl in Hf', Hlen.
  subst f'. simpl. apply le_n_S.
  eapply IH; [exact H|]. simpl in Hm. lia.
Qed.

(** The ASCII reader never accepts a file that ends early: when it returns,
    the file holds at least one line per declared vertex after the header.
    Every vertex returned keeps the fields of its line, at least three, and
    has the colour white for each of the fields 4, 5 and 6 its line
    lacks. *)
Theorem read_ascii_vertices
        (float : string -> result Q) (int : string -> result Z)
        (unpack_float : string -> Q) (file : string) (header : PLYHeader)
        (vertices : list Vertex) :
  format_type header = Some "ascii"%string ->
  read_vertices_from_ply float int unpack_float file header = Ok vertices ->
  (Z.to_nat (vertex_count header)
   <= List.length (file_lines (seek (header_size header) file)))%nat /\
  Forall (fun vertex =>
            exists values,
              full_data vertex = Some values /\
              (3 <= List.length values)%nat /\
              ((List.length values <= 3)%nat -> r vertex = 255%Z) /\
              ((List.length values <= 4)%nat -> g vertex = 255%Z) /\
              ((List.length values <= 5)%nat -> b vertex = 255%Z))
         vertices.
Proof.
  intros Hf H. unfold read_vertices_from_ply in H. rewrite Hf in H.
  change (String.eqb "ascii" "ascii") with true in H. cbv iota in H.
  split.
  - eapply read_ascii_loop_lines; [exact H|]. apply Nat.le_refl.
  - eapply read_vertices_loop_forall; [|constructor|exact H].
    intros f0 v f' Hone. apply read_ascii_vertex_ok in Hone. apply Hone.
Qed.

Lemma read_ascii_vertices_witness :
  let file := ("hdr" ++ "1 2 3" ++ nl ++ "4 5 6 7" ++ nl)%string in
  let header := mkPLYHeader (Some "ascii"%string) 2 [] 3 in
  let parse s := match decimal_int s with
                 | Ok n => Ok (inject_Z n)
                 | Raise e => Raise e
                 | OutOfFuel => OutOfFuel
                 end in
  read_vertices_from_ply parse decimal_int (fun _ => 0) file header
  = Ok [mkVertex 1 2 3 255 255 255 (Some ["1"; "2"; "3"]%string);
        mkVertex 4 5 6 7 255 255 (Some ["4"; "5"; "6"; "7"]%string)] /\
  (2 <= List.length (file_lines (seek 3 file)))%nat.
Proof.
  intros file header parse.
  assert (H : read_vertices_from_ply parse decimal_int (fun _ => 0) file header
              = Ok [mkVertex 1 2 3 255 255 255 (Some ["1"; "2"; "3"]%string);
                    mkVertex 4 5 6 7 255 255
                             (Some ["4"; "5"; "6"; "7"]%string)])
    by (vm_compute; reflexivity).
  split; [exact H|].
  exact (proj1 (@read_ascii_vertices parse decimal_int (fun _ => 0) file
                  header _ eq_refl H)).
Defined.

(** ** A chunk file read again *)

Lemma seek_app (head body : string) :
  seek (String.length head) (head ++ body) = body.
Proof.
  induction head as [|c head IH]; simpl.
  - destruct body; reflexivity.
  - exact IH.
Qed.

Lemma read_app (bytes rest : string) :
  read (String.length bytes) (bytes ++ rest) = (bytes, rest).
Proof.
  induction bytes as [|c bytes IH]; simpl.
  - destruct rest; reflexivity.
  - rewrite IH. reflexivity.
Qed.

Lemma substring_prefix (s t : string) :
  substring 0 (String.length s) (s ++ t) = s.
Proof.
  induction s as [|c s IH]; simpl.
  - destruct t; reflexivity.
  - rewrite IH. reflexivity.
Qed.

Lemma substring_skip (s t : string) (n m : nat) :
  substring (String.length s + n) m (s ++ t) = substring n m t.
Proof. induction s as [|c s IH]; simpl; [reflexivity|exact IH]. Qed.

Lemma byte_value_uchar_byte (c : Z) : uchar c -> byte_value (uchar_byte c) = c.
Proof.
  unfold uchar, byte_value, uchar_byte. intro H.
  rewrite nat_ascii_embedding by lia. lia.
Qed.

Section RoundTrip.

Variable pack_float : Q -> string.
Variable unpack_float : string -> Q.
Hypothesis pack_float_length : forall q, String.length (pack_float q) = 4%nat.

Lemma pack_fffBBB_length vertex :
  String.length (pack_fffBBB pack_float vertex) = 15%nat.
Proof.
  unfold pack_fffBBB. rewrite !length_append, !pack_float_length. reflexivity.
Qed.

Lemma unpack_fff_pack (a c d : Q) :
  unpack_fff unpack_float (pack_float a ++ pack_float c ++ pack_float d)
  = Ok (unpack_float (pack_float a), unpack_float (pack_float c),
        unpack_float (pack_float d)).
Proof.
  unfold unpack_fff.
  rewrite !length_append, !pack_float_length. cbn [Nat.add Nat.eqb].
  f_equal. f_equal; [f_equal|].
  - rewrite <- (pack_float_length a) at 1. rewrite substring_prefix.
    reflexivity.
  - change 4%nat with (4 + 0)%nat at 1.
    rewrite <- (pack_float_length a) at 1. rewrite substring_skip.
    rewrite <- (pack_float_length c) at 1. rewrite substring_prefix.
    reflexivity.
  - change 8%nat with (4 + (4 + 0))%nat.
    rewrite <- (pack_float_length a) at 1. rewrite substring_skip.
    rewrite <- (pack_float_length c) at 1. rewrite substring_skip.
    rewrite <- (append_nil_r (pack_float d)) at 1.
    rewrite <- (pack_float_length d) at 1. rewrite substring_prefix.
    reflexivity.
Qed.

Lemma read_binary_vertex_pack vertex rest :
  colours_fit vertex ->
  read_binary_vertex unpack_float (pack_fffBBB pack_float vertex ++ rest)
  = Ok (read_back pack_float unpack_float vertex, rest).
Proof.
  intros (Hr & Hg & Hb). unfold read_binary_vertex, pack_fffBBB.
  set (position := (pack_float (x vertex) ++ pack_float (y vertex)
                    ++ pack_float (z vertex))%string).
  assert (Hpos : String.length position = 12%nat)
    by (subst position; rewrite !length_append, !pack_float_length;
        reflexivity).
  replace ((pack_float (x vertex) ++ pack_float (y vertex)
            ++ pack_float (z vertex)
            ++ String (uchar_byte (r vertex))
                 (String (uchar_byte (g vertex))
                    (String (uchar_byte (b vertex)) ""))) ++ rest)%string
    with (position
          ++ String (uchar_byte (r vertex))
               (String (uchar_byte (g vertex))
                  (String (uchar_byte (b vertex)) rest)))%string
    by (subst position; rewrite !append_assoc; reflexivity).
  rewrite <- Hpos, read_app.
  subst position. rewrite unpack_fff_pack. cbn [bind read unpack_BBB].
  rewrite !byte_value_uchar_byte by assumption.
  destruct rest; reflexivity.
Qed.

Lemma read_binary_loop_pack vertices :
  forall rest acc,
  Forall colours_fit vertices ->
  read_vertices_loop (read_binary_vertex unpack_float) (List.length vertices)
    (fold_right append EmptyString (map (pack_fffBBB pack_float) vertices)
     ++ rest) acc
  = Ok (acc ++ map (read_back pack_float unpack_float) vertices).
Proof.
  induction vertices as [|v vertices IH]; intros rest acc Hfit.
  - simpl. rewrite app_nil_r. reflexivity.
  - inversion Hfit as [|v' l Hv Hrest]; subst.
    cbn [List.length map fold_right read_vertices_loop].
    rewrite append_assoc, (read_binary_vertex_pack _ Hv). cbn [bind].
    rewrite (IH rest _ Hrest), <- app_assoc. reflexivity.
Qed.

Lemma ply_bytes_length file :
  String.length (ply_bytes pack_float file)
  = (String.length (header_text file) + 15 * List.length (records file))%nat.
Proof.
  unfold ply_bytes. rewrite length_append. f_equal.
  induction (records file) as [|v vertices IH]; [reflexivity|].
  cbn [map fold_right List.length].
  rewrite length_append, pack_fffBBB_length, IH. lia.
Qed.

End RoundTrip.

Lemma pack_all_fits chunk_vertices written :
  pack_all chunk_vertices = Ok written -> Forall colours_fit chunk_vertices.
Proof.
  intro H. destruct (Forall_packable_dec chunk_vertices) as [Hall|Hbad].
  - apply Forall_packable_split, Hall.
  - destruct (pack_all_unfit Hbad) as [E|E]; rewrite E in H; discriminate H.
Qed.

(** A chunk file read again.  The bytes [write_ply_chunk] wrote are as many
    as the size it returned, and analysing then reading them gives back
    the vertices written, anchors included and in order: each with its
    colours, and with its coordinates as the four-byte float encoding
    returns them.  [pack_float] only has to produce four bytes and [int] to
    read back the decimal text of the count. *)
Theorem chunk_file_round_trip
        (pack_float : Q -> string) (unpack_float : string -> Q)
        (float : string -> result Q) (int : string -> result Z)
        (vertices : list Vertex) (overall_bbox : option BoundingBox)
        (file : PlyFile) (file_size : nat) (fuel : nat) :
  (forall q, String.length (pack_float q) = 4%nat) ->
  write_ply_chunk vertices overall_bbox = Ok (file, file_size) ->
  int (string_of_nat (List.length (records file)))
  = Ok (Z.of_nat (List.length (records file))) ->
  String.length (ply_bytes pack_float file) = file_size /\
  exists header,
    analyze_ply_file int (10 + fuel) (ply_bytes pack_float file) = Ok header /\
    read_vertices_from_ply float int unpack_float
                           (ply_bytes pack_float file) header
    = Ok (map (read_back pack_float unpack_float) (records file)).
Proof.
  intros Hpack Hw Hint.
  assert (Hfit : Forall colours_fit (records file)).
  { unfold write_ply_chunk in Hw.
    destruct (pack_all _) as [w| |] eqn:E; simpl in Hw; try discriminate.
    inversion Hw; subst. simpl.
    pose proof (pack_all_ok _ E) as Hwritten. subst w.
    eapply pack_all_fits, E. }
  destruct (write_ply_chunk_header _ _ Hw) as (_ & Hhead & Hsize).
  destruct (string_of_nat_token (List.length (records file))) as [Htok Hne].
  split; [rewrite ply_bytes_length by exact Hpack; symmetry; exact Hsize|].
  eexists. split.
  - unfold ply_bytes. rewrite Hhead.
    apply chunk_header_reads_back; eassumption.
  - unfold read_vertices_from_ply. cbn [format_type header_size vertex_count].
    change (String.eqb "binary_little_endian" "ascii") with false.
    change (String.eqb "binary_little_endian" "binary_little_endian")
      with true.
    cbv iota. rewrite Nat2Z.id, <- Hhead.
    unfold ply_bytes. rewrite seek_app.
    rewrite <- (append_nil_r (fold_right append EmptyString _)).
    rewrite read_binary_loop_pack by assumption. reflexivity.
Qed.

Lemma chunk_file_round_trip_witness :
  let pack_float := fun _ : Q => "abcd"%string in
  exists file file_size header,
    write_ply_chunk [Vertex6 1 2 3 65 66 67] None = Ok (file, file_size) /\
    String.length (ply_bytes pack_float file) = file_size /\
    analyze_ply_file decimal_int 10 (ply_bytes pack_float file) = Ok header /\
    read_vertices_from_ply (fun _ => Ok 0) decimal_int (fun _ => 9)
                           (ply_bytes pack_float file) header
    = Ok [Vertex6 9 9 9 65 66 67].
Proof.
  intro pack_float.
  destruct (write_ply_chunk [Vertex6 1 2 3 65 66 67] None)
    as [[file file_size]| |] eqn:E;
    [|vm_compute in E; discriminate E|vm_compute in E; discriminate E].
  assert (Hrec : records file = [Vertex6 1 2 3 65 66 67]).
  { unfold write_ply_chunk in E. simpl in E. inversion E. reflexivity. }
  destruct (@chunk_file_round_trip pack_float (fun _ => 9) (fun _ => Ok 0)
              decimal_int _ _ file file_size 0%nat (fun _ => eq_refl) E
              (decimal_int_string_of_nat _))
    as (Hsize & header & Hh & Hread).
  exists file, file_size, header. rewrite Hrec in Hread.
  repeat split; assumption.
Defined.

(** ** The pipeline as a whole *)

(** The two cases of the scale normalisation, for the proofs below. *)
Lemma normalize_scale_cases (vertices : list Vertex) :
  let extent := max_dimension_of (calculate_bounding_box vertices) in
  (extent <= 50 /\ normalize_scale vertices = (1, vertices)) \/
  (50 < extent /\
   normalize_scale vertices
   = (fdiv 20 extent, map (scale_vertex (fdiv 20 extent)) vertices) /\
   0 <= fdiv 20 extent /\ fdiv 20 extent <= round_double (4 # 10) /\
   vertices <> []).
Proof.
  intro extent. unfold normalize_scale. fold extent.
  destruct (Qlt_bool 50 extent) eqn:E.
  - right. apply Qlt_bool_iff in E.
    destruct (scale_factor_range E) as [Hs Hs'].
    assert (Hne : vertices <> []).
    { intro Hnil. subst extent. rewrite Hnil in E.
      vm_compute in E. discriminate E. }
    repeat split; auto.
  - left. apply Qlt_bool_false_iff in E. auto.
Qed.

(** The bounds of the box of vertices within the limit are within it. *)
Lemma calculate_bounding_box_within (vertices : list Vertex) :
  Forall coords_within_limit vertices ->
  forall a,
    Qabs (coord a (bb_min (calculate_bounding_box vertices)))
    <= coordinate_limit /\
    Qabs (coord a (bb_max (calculate_bounding_box vertices)))
    <= coordinate_limit.
Proof.
  intros H a. destruct vertices as [|v0 rest].
  - destruct a; split; discriminate.
  - assert (Hne : v0 :: rest <> []) by discriminate.
    destruct (calculate_bounding_box_min a Hne) as [_ Hmin].
    destruct (calculate_bounding_box_max a Hne) as [_ Hmax].
    apply in_map_iff in Hmin, Hmax.
    destruct Hmin as (lo & <- & Hlo). destruct Hmax as (hi & <- & Hhi).
    rewrite Forall_forall in H.
    destruct (H lo Hlo) as (Hx & Hy & Hz).
    destruct (H hi Hhi) as (Hx' & Hy' & Hz').
    destruct a; split; assumption.
Qed.

Lemma fsub_within (a c : Q) :
  Qabs a <= coordinate_limit -> Qabs c <= coordinate_limit ->
  fsub c a <= 2 ^ 1024.
Proof.
  intros Ha Hc. apply Qabs_Qle_condition in Ha, Hc.
  apply Qle_trans with (round_double (2 * coordinate_limit));
    [|vm_compute; discriminate].
  apply round_double_le. lra.
Qed.

(** Within the limit, the largest size of the normalised model is at most
    50: 20 and less than 1 more when the model was scaled. *)
Lemma max_dimension_of_normalized (vertices : list Vertex) :
  Forall coords_within_limit vertices ->
  max_dimension_of (calculate_bounding_box (snd (normalize_scale vertices)))
  <= 50.
Proof.
  intro Hlim.
  pose proof (calculate_bounding_box_within Hlim) as Hbox.
  destruct (normalize_scale_cases vertices)
    as [[Hle ->]|(Hwide & Hnorm & Hs & Hs' & Hne)]; [exact Hle|].
  rewrite Hnorm. simpl snd.
  set (bbox := calculate_bounding_box vertices) in *.
  set (extent := max_dimension_of bbox) in *.
  set (scale_factor := fdiv 20 extent) in *.
  rewrite (max_dimension_of_compat
             (calculate_bounding_box_scale Hs Hne)).
  fold bbox.
  destruct (Hbox AxisX) as [Hax Hbx], (Hbox AxisY) as [Hay Hby],
    (Hbox AxisZ) as [Haz Hbz].
  simpl in Hax, Hbx, Hay, Hby, Haz, Hbz.
  assert (Hfinite : extent <= 2 ^ 1024).
  { unfold extent, max_dimension_of.
    destruct (pymax3_cases (fsub (cx (bb_max bbox)) (cx (bb_min bbox)))
                           (fsub (cy (bb_max bbox)) (cy (bb_min bbox)))
                           (fsub (cz (bb_max bbox)) (cz (bb_min bbox))))
      as ([E|[E|E]] & _); cbv zeta in E; rewrite E;
      apply fsub_within; assumption. }
  assert (Horder : forall a,
             coord a (bb_min bbox) <= coord a (bb_max bbox)).
  { intro a.
    destruct (calculate_bounding_box_min a Hne) as [Hlow Hin].
    destruct (calculate_bounding_box_max a Hne) as [Hup _].
    apply Hup, Hin. }
  pose proof (scaled_extent_tolerance bbox Horder Hwide Hfinite) as Htol.
  fold extent scale_factor in Htol.
  apply Qabs_Qle_condition in Htol. destruct Htol as [_ Htol].
  assert (Hreach : box_reach bbox <= 6 * coordinate_limit)
    by (unfold box_reach; lra).
  assert (Hprod : scale_factor * box_reach bbox
                  <= round_double (4 # 10) * (6 * coordinate_limit)).
  { apply Qle_trans with (scale_factor * (6 * coordinate_limit)).
    - rewrite !(Qmult_comm scale_factor).
      apply Qmult_le_compat_r; [exact Hreach|exact Hs].
    - apply Qmult_le_compat_r; [exact Hs'|vm_compute; discriminate]. }
  pose proof (scaling_tolerance_le Hprod) as Hbound.
  assert (Hnum : scaling_tolerance
                   (round_double (4 # 10) * (6 * coordinate_limit)) <= 1)
    by (vm_compute; discriminate).
  lra.
Qed.

(** For a model whose coordinates do not exceed [2^48] in magnitude,
    normalising twice changes nothing more: the largest size of a
    normalised model is at most 50 (within 1 of 20 when the model was
    scaled), so a model is never scaled again. *)
Theorem normalize_scale_idempotent (vertices : list Vertex) :
  Forall coords_within_limit vertices ->
  max_dimension_of (calculate_bounding_box (snd (normalize_scale vertices)))
  <= 50 /\
  normalize_scale (snd (normalize_scale vertices))
  = (1, snd (normalize_scale vertices)).
Proof.
  intro Hlim. pose proof (max_dimension_of_normalized Hlim) as H.
  split; [exact H|].
  unfold normalize_scale at 1.
  apply Qlt_bool_false_iff in H. rewrite H. reflexivity.
Qed.

Lemma normalize_scale_idempotent_witness :
  Forall coords_within_limit wide_model /\
  fst (normalize_scale wide_model) = fdiv 20 59 /\
  normalize_scale (snd (normalize_scale wide_model))
  = (1, snd (normalize_scale wide_model)).
Proof.
  assert (Hlim : Forall coords_within_limit wide_model)
    by (repeat constructor; discriminate).
  split; [exact Hlim|]. split; [reflexivity|].
  exact (proj2 (normalize_scale_idempotent Hlim)).
Defined.

Lemma scale_vertex_colours (s : Q) vertex :
  colours_fit (scale_vertex s vertex) <-> colours_fit vertex.
Proof. unfold colours_fit, scale_vertex. simpl. tauto. Qed.

Lemma normalize_scale_colours (vertices : list Vertex) :
  Forall colours_fit (snd (normalize_scale vertices))
  <-> Forall colours_fit vertices.
Proof.
  unfold normalize_scale. destruct (Qlt_bool 50 _); simpl; [|tauto].
  rewrite Forall_map. split; intro H; eapply Forall_impl; try exact H;
    intro v; apply scale_vertex_colours.
Qed.

(** A coordinate in the range of a 32-bit float stays there when it is
    multiplied by a factor between 0 and 0.4. *)
Lemma fmul_float32 (q s : Q) :
  float32 q -> 0 <= s -> s <= round_double (4 # 10) ->
  float32 (fmul q s).
Proof.
  unfold float32. intros Hq Hs Hs'.
  apply Qabs_Qlt_condition in Hq. destruct Hq as [Hlow Hup].
  set (c := round_double (4 # 10)) in *.
  assert (Hc : 0 <= c) by (vm_compute; discriminate).
  assert (HL : 0 < float32_limit) by reflexivity.
  assert (H1 : q * s <= float32_limit * c).
  { destruct (Qlt_le_dec q 0) as [Hn|Hp].
    - apply Qle_trans with 0; [|apply Qmult_le_0_compat; lra].
      setoid_replace (q * s) with (- ((- q) * s)) by ring.
      assert (0 <= - q * s) by (apply Qmult_le_0_compat; lra). lra.
    - apply Qle_trans with (float32_limit * s).
      + apply Qmult_le_compat_r; lra.
      + apply Qmult_le_l; lra. }
  assert (H2 : - (float32_limit * c) <= q * s).
  { destruct (Qlt_le_dec q 0) as [Hn|Hp].
    - setoid_replace (q * s) with (- ((- q) * s)) by ring.
      apply Qopp_le_compat.
      apply Qle_trans with (float32_limit * s).
      + apply Qmult_le_compat_r; lra.
      + apply Qmult_le_l; lra.
    - apply Qle_trans with 0; [|apply Qmult_le_0_compat; lra].
      assert (0 <= float32_limit * c) by (apply Qmult_le_0_compat; lra).
      lra. }
  apply Qabs_Qlt_condition. unfold fmul. split.
  - apply Qlt_le_trans with (round_double (- (float32_limit * c)));
      [vm_compute; reflexivity|apply round_double_le, H2].
  - apply Qle_lt_trans with (round_double (float32_limit * c));
      [apply round_double_le, H1|vm_compute; reflexivity].
Qed.

Lemma normalize_scale_coords (vertices : list Vertex) :
  Forall coords_fit vertices ->
  Forall coords_fit (snd (normalize_scale vertices)).
Proof.
  intro H.
  destruct (normalize_scale_cases vertices)
    as [[_ ->]|(_ & -> & Hs & Hs' & _)]; simpl snd; [exact H|].
  apply Forall_map. eapply Forall_impl; [|exact H].
  intros v (Hx & Hy & Hz). unfold coords_fit, scale_vertex. simpl.
  repeat split; apply fmul_float32; assumption.
Qed.

(** The bounds of a box are coordinates of the vertices, or zero. *)
Lemma calculate_bounding_box_fits (vertices : list Vertex) :
  Forall coords_fit vertices -> box_fits (calculate_bounding_box vertices).
Proof.
  intros H a. destruct vertices as [|v0 rest].
  - destruct a; split; reflexivity.
  - assert (Hne : v0 :: rest <> []) by discriminate.
    destruct (calculate_bounding_box_min a Hne) as [_ Hmin].
    destruct (calculate_bounding_box_max a Hne) as [_ Hmax].
    apply in_map_iff in Hmin, Hmax.
    destruct Hmin as (lo & <- & Hlo). destruct Hmax as (hi & <- & Hhi).
    rewrite Forall_forall in H.
    destruct (H lo Hlo) as (Hx & Hy & Hz).
    destruct (H hi Hhi) as (Hx' & Hy' & Hz').
    destruct a; split; assumption.
Qed.

Lemma Forall_colours_fit_dec (vertices : list Vertex) :
  Forall colours_fit vertices \/ ~ Forall colours_fit vertices.
Proof.
  induction vertices as [|v vertices [IH|IH]].
  - left. constructor.
  - destruct (colours_fit_dec v) as [Hv|Hv].
    + left. constructor; assumption.
    + right. intro H. inversion H. contradiction.
  - right. intro H. inversion H. contradiction.
Qed.

Lemma written_coords_fit vertices overall_bbox :
  Forall coords_fit vertices -> box_fits overall_bbox ->
  Forall coords_fit (vertices ++ anchor_points overall_bbox).
Proof.
  intros Hv Hbox. apply Forall_app. split; [exact Hv|].
  apply anchor_points_packable in Hbox.
  apply Forall_packable_split in Hbox. apply Hbox.
Qed.

Lemma write_ply_chunk_fit vertices overall_bbox :
  Forall coords_fit vertices -> box_fits overall_bbox ->
  Forall colours_fit vertices ->
  exists file file_size,
    write_ply_chunk vertices (Some overall_bbox) = Ok (file, file_size).
Proof.
  intros Hc Hbox Hfit.
  assert (Hall : Forall packable (vertices ++ anchor_points overall_bbox)).
  { apply Forall_packable_split. split.
    - apply written_coords_fit; assumption.
    - apply Forall_app; split; [exact Hfit|apply anchor_points_fit]. }
  unfold write_ply_chunk. simpl chunk_vertices_of.
  rewrite (pack_all_fit Hall). cbn [bind]. eauto.
Qed.

Lemma write_ply_chunk_unfit vertices overall_bbox :
  Forall coords_fit vertices -> box_fits overall_bbox ->
  ~ Forall colours_fit vertices ->
  write_ply_chunk vertices (Some overall_bbox) = Raise StructError.
Proof.
  intros Hc Hbox Hbad. unfold write_ply_chunk. simpl chunk_vertices_of.
  rewrite pack_all_error; [reflexivity| |].
  - apply written_coords_fit; assumption.
  - intro Hall. apply Hbad. apply Forall_app in Hall. apply Hall.
Qed.

(** The writing loop on coordinates that fit: it returns when the colours
    of every group fit, and raises [struct.error] at the first group in
    which one does not. *)
Lemma write_chunks_outcome base_name overall_bbox vertex_chunks :
  box_fits overall_bbox ->
  Forall (Forall coords_fit) vertex_chunks ->
  forall i chunk_infos files,
  (Forall (Forall colours_fit) vertex_chunks ->
   exists chunk_infos' files',
     write_chunks base_name overall_bbox i vertex_chunks chunk_infos files
     = Ok (chunk_infos', files')) /\
  (~ Forall (Forall colours_fit) vertex_chunks ->
   write_chunks base_name overall_bbox i vertex_chunks chunk_infos files
   = Raise StructError).
Proof.
  intros Hbox Hc.
  induction vertex_chunks as [|group rest IH]; intros i infos files.
  - split; intro H; [simpl; eauto|exfalso; apply H; constructor].
  - cbn [write_chunks].
    inversion Hc as [|g l Hcg Hcrest]; subst.
    destruct (Forall_colours_fit_dec group) as [Hg|Hg].
    + destruct (write_ply_chunk_fit Hcg Hbox Hg) as (file & size & Hw).
      rewrite Hw. cbn [bind].
      match goal with
      | |- context [write_chunks _ _ ?j rest ?a ?c] =>
          destruct (IH Hcrest j a c) as [IHok IHbad]
      end.
      split; intro H.
      * apply IHok. inversion H. assumption.
      * apply IHbad. intro Hrest. apply H. constructor; assumption.
    + rewrite (write_ply_chunk_unfit Hcg Hbox Hg).
      split; intro H; [|reflexivity].
      inversion H. contradiction.
Qed.

Lemma Forall_concat_groups (P : Vertex -> Prop) (groups : list (list Vertex)) :
  Forall (Forall P) groups <-> Forall P (concat groups).
Proof.
  induction groups as [|group groups IH]; simpl.
  - split; constructor.
  - rewrite Forall_app, <- IH. split.
    + intro H. inversion H. auto.
    + intros [Hg Hr]. constructor; assumption.
Qed.

Lemma Forall_perm (P : Vertex -> Prop) (l l' : list Vertex) :
  Permutation l l' -> Forall P l -> Forall P l'.
Proof.
  intros Hp H. rewrite Forall_forall in *. intros v Hv.
  apply H. eapply Permutation_in; [apply Permutation_sym, Hp|exact Hv].
Qed.

(** How a run of [chunk_ply_file] ends on decoded vertices whose
    coordinates are in the range of a 32-bit float, as those of every
    binary file are.  It raises [ZeroDivisionError] when the scaled model
    is not empty and lies at the origin; otherwise it returns a manifest
    when all colours are bytes and raises [struct.error] when one is not.
    It ends in no other way: scaling keeps the coordinates in range, so no
    coordinate is refused when the chunks are written. *)
Theorem chunk_ply_file_outcome
        (sqrt : Q -> Q) (random : nat -> Q) (self : PLYChunker)
        (input_name base_name : string) (vertices : list Vertex) (k : nat) :
  Forall coords_fit vertices ->
  let scaled := snd (normalize_scale vertices) in
  let run := chunk_ply_file sqrt random self input_name base_name vertices k in
  (vertices <> [] -> Qeq_bool (max_distance_of sqrt scaled) 0 = true ->
   run = Raise ZeroDivisionError) /\
  (vertices = [] \/ Qeq_bool (max_distance_of sqrt scaled) 0 = false ->
   (Forall colours_fit vertices ->
    exists manifest files k', run = Ok (manifest, files, k')) /\
   (~ Forall colours_fit vertices -> run = Raise StructError)).
Proof.
  intros Hcoords scaled run. subst run scaled. unfold chunk_ply_file.
  pose proof (normalize_scale_length vertices) as Hlen.
  pose proof (normalize_scale_colours vertices) as Hcol.
  pose proof (normalize_scale_coords Hcoords) as Hfit32.
  destruct (normalize_scale vertices) as [scale_factor scaled].
  cbn [snd] in *.
  split.
  - intros Hne Hmd.
    rewrite chunk_vertices_radial_raises; [reflexivity| |exact Hmd].
    intro Hs. rewrite Hs in Hlen. destruct vertices; [contradiction|].
    discriminate Hlen.
  - intro Hret.
    destruct (@chunk_vertices_radial_returns sqrt random self scaled k)
      as (chunks & k' & Hchunk).
    { destruct Hret as [Hnil|Hmd]; [left|right; exact Hmd].
      subst vertices. destruct scaled; [reflexivity|discriminate Hlen]. }
    rewrite Hchunk. cbn [bind].
    pose proof (chunk_vertices_radial_perm _ _ _ _ _ Hchunk) as Hperm.
    assert (Hgroups : Forall (Forall coords_fit) chunks).
    { apply Forall_concat_groups.
      eapply Forall_perm; [apply Permutation_sym, Hperm|exact Hfit32]. }
    destruct (write_chunks_outcome base_name
                (calculate_bounding_box_fits Hfit32) Hgroups 0 [] [])
      as [Hok Hbad].
    split; intro Hfit.
    + destruct Hok as (infos & files & Hw).
      { apply Forall_concat_groups.
        eapply Forall_perm; [apply Permutation_sym, Hperm|].
        apply Hcol, Hfit. }
      rewrite Hw. cbn [bind]. eauto.
    + rewrite Hbad; [reflexivity|].
      intro Hall. apply Hfit, Hcol.
      eapply Forall_perm; [exact Hperm|].
      apply Forall_concat_groups, Hall.
Qed.

Lemma chunk_ply_file_outcome_witness :
  chunk_ply_file sqrt_milli draws_half chunker_of_two "m.ply" "m"
                 [vertex_at 0 0 0] 0
  = Raise ZeroDivisionError /\
  chunk_ply_file sqrt_milli draws_half chunker_of_two "m.ply" "m"
                 [Vertex6 1 0 0 256 0 0] 0
  = Raise StructError /\
  exists manifest files k',
    chunk_ply_file sqrt_milli draws_half chunker_of_two "m.ply" "m"
                   wide_model 0 = Ok (manifest, files, k').
Proof.
  split; [|split].
  - apply (proj1 (@chunk_ply_file_outcome sqrt_milli draws_half chunker_of_two
                    "m.ply" "m" [vertex_at 0 0 0] 0%nat
                    ltac:(repeat constructor)));
      [discriminate|reflexivity].
  - apply (proj2 (@chunk_ply_file_outcome sqrt_milli draws_half chunker_of_two
                    "m.ply" "m" [Vertex6 1 0 0 256 0 0] 0%nat
                    ltac:(repeat constructor)));
      [right; reflexivity|].
    intro H. inversion H as [|v l (Hr & _) _]. unfold uchar in Hr.
    simpl in Hr. lia.
  - apply (proj2 (@chunk_ply_file_outcome sqrt_milli draws_half chunker_of_two
                    "m.ply" "m" wide_model 0%nat
                    ltac:(repeat constructor)));
      [right; reflexivity|].
    repeat constructor; simpl; unfold uchar; lia.
Defined.

(** ** The manifest and the chunk files *)

Lemma decimal_int_leading_zero (s : string) :
  s <> EmptyString -> decimal_int (String "0" s) = decimal_int s.
Proof.
  intro Hne. unfold decimal_int.
  destruct s as [|c s]; [contradiction|].
  cbn [DecimalString.NilZero.uint_of_string
         DecimalString.NilEmpty.uint_of_string].
  destruct (DecimalString.uint_of_char c _) as [d|]; reflexivity.
Qed.

Lemma decimal_int_format_03d (i : nat) :
  decimal_int (format_03d i) = Ok (Z.of_nat i).
Proof.
  unfold format_03d.
  destruct (string_of_nat_token i) as [_ Hne].
  induction (3 - String.length (string_of_nat i))%nat as [|n IH]; simpl.
  - apply decimal_int_string_of_nat.
  - rewrite decimal_int_leading_zero; [exact IH|].
    destruct n; simpl; [exact Hne|discriminate].
Qed.

Lemma append_inv_head (s a c : string) : (s ++ a = s ++ c)%string -> a = c.
Proof.
  induction s as [|ch s IH]; simpl; intro H; [exact H|].
  inversion H. auto.
Qed.

Lemma append_inv_tail (a c s : string) : (a ++ s = c ++ s)%string -> a = c.
Proof.
  intro H.
  assert (Hlen : String.length a = String.length c).
  { apply (f_equal String.length) in H. rewrite !length_append in H. lia. }
  revert c H Hlen. induction a as [|ch a IH]; intros [|ch' c] H Hlen;
    try discriminate Hlen; [reflexivity|].
  simpl in H. inversion H. f_equal. apply IH; [assumption|].
  simpl in Hlen. lia.
Qed.

Lemma chunk_filename_inj (base_name : string) (i j : nat) :
  chunk_filename base_name i = chunk_filename base_name j -> i = j.
Proof.
  unfold chunk_filename. intro H.
  apply append_inv_head, append_inv_head, append_inv_tail in H.
  apply (f_equal decimal_int) in H.
  rewrite !decimal_int_format_03d in H. inversion H. lia.
Qed.

Lemma chunk_filenames_distinct (base_name : string) (i n : nat) :
  NoDup (map (chunk_filename base_name) (seq i n)).
Proof.
  revert i. induction n as [|n IH]; intro i; simpl; constructor.
  - intro Hin. apply in_map_iff in Hin. destruct Hin as (j & Hj & Hin).
    apply chunk_filename_inj in Hj. apply in_seq in Hin. lia.
  - apply IH.
Qed.

Lemma write_chunks_index base_name overall_bbox vertex_chunks :
  forall i chunk_infos files chunk_infos' files',
  write_chunks base_name overall_bbox i vertex_chunks chunk_infos files
    = Ok (chunk_infos', files') ->
  exists new_infos new_files,
    chunk_infos' = chunk_infos ++ new_infos /\
    files' = files ++ new_files /\
    List.length new_infos = List.length vertex_chunks /\
    List.length new_files = List.length vertex_chunks /\
    map priority new_infos = seq i (List.length vertex_chunks) /\
    map filename new_infos
    = map (chunk_filename base_name) (seq i (List.length vertex_chunks)) /\
    map fst new_files
    = map (chunk_filename base_name) (seq i (List.length vertex_chunks)) /\
    Forall2 (fun info file =>
               file_size info
               = (String.length (header_text (snd file))
                  + 15 * (ci_vertex_count info + 8))%nat)
            new_infos new_files.
Proof.
  induction vertex_chunks as [|group rest IH];
    intros i infos files infos' files' H; simpl in H.
  - inversion H; subst. exists [], []. rewrite !app_nil_r.
    repeat split; constructor.
  - destruct (write_ply_chunk group (Some overall_bbox)) as [[file size]| |]
      eqn:Hw; simpl in H; try discriminate.
    apply IH in H.
    destruct H as (new_infos & new_files & Hi & Hf & Hli & Hlf & Hp & Hn
                   & Hfn & Hs).
    eexists (_ :: new_infos), (_ :: new_files).
    rewrite <- !app_assoc in Hi, Hf. simpl in Hi, Hf.
    split; [exact Hi|]. split; [exact Hf|].
    simpl. rewrite Hli, Hlf, Hp, Hn, Hfn.
    repeat split; try reflexivity.
    constructor; [|exact Hs]. simpl.
    destruct (write_ply_chunk_header _ _ Hw) as (Hrec & _ & Hsize).
    rewrite Hsize, Hrec. simpl. rewrite length_app. reflexivity.
Qed.

(** The layout of a run's output.  The manifest counts as many chunks as
    files were written; the descriptors are in the order of the files, with
    the priorities 0, 1, 2, ... and the names of the files, which are the
    base name followed by [_chunk_], the index on three digits at least,
    and [.ply]; no two files have the same name, so no chunk overwrites
    another. *)
Theorem manifest_layout
        (sqrt : Q -> Q) (random : nat -> Q) (self : PLYChunker)
        (input_name base_name : string) (vertices : list Vertex) (k : nat)
        (manifest : Manifest) (files : list (string * PlyFile)) (k' : nat) :
  chunk_ply_file sqrt random self input_name base_name vertices k
    = Ok (manifest, files, k') ->
  original_file manifest = input_name /\
  m_target_chunk_size_mb manifest = target_chunk_size_mb self /\
  chunk_count manifest = List.length files /\
  map m_priority (chunks manifest) = seq 0 (List.length files) /\
  map m_filename (chunks manifest) = map fst files /\
  map fst files = map (chunk_filename base_name) (seq 0 (List.length files)) /\
  NoDup (map fst files).
Proof.
  intro H. apply chunk_ply_file_steps in H. cbv zeta in H.
  destruct H as (vertex_chunks & chunk_infos & _ & Hwrite & ->).
  apply write_chunks_index in Hwrite.
  destruct Hwrite as (new_infos & new_files & -> & -> & Hli & Hlf & Hp & Hn
                      & Hfn & _).
  simpl. rewrite !map_map. simpl.
  change (fun x : ChunkInfo => priority x) with priority.
  change (fun x : ChunkInfo => filename x) with filename.
  rewrite Hli, Hlf, Hp, Hn, Hfn.
  repeat split. apply chunk_filenames_distinct.
Qed.

Lemma manifest_layout_witness :
  exists manifest files k',
    chunk_ply_file sqrt_milli draws_half chunker_of_two "m.ply" "m"
                   wide_model 0 = Ok (manifest, files, k') /\
    map fst files = ["m_chunk_000.ply"; "m_chunk_001.ply"]%string /\
    map m_priority (chunks manifest) = [0; 1]%nat.
Proof.
  destruct (chunk_ply_file sqrt_milli draws_half chunker_of_two "m.ply" "m"
              wide_model 0) as [[[manifest files] k']| |] eqn:E;
    [|vm_compute in E; discriminate E|vm_compute in E; discriminate E].
  exists manifest, files, k'. split; [reflexivity|].
  destruct (manifest_layout _ _ _ _ _ _ _ E)
    as (_ & _ & _ & Hp & _ & Hn & _).
  assert (Hlen : List.length files = 2%nat)
    by (vm_compute in E; inversion E; reflexivity).
  rewrite Hlen in Hp, Hn. split; [exact Hn|exact Hp].
Defined.

Lemma calculate_bounding_box_nested a group vertices :
  group <> [] ->
  (forall vertex, In vertex group -> In vertex vertices) ->
  coord a (bb_min (calculate_bounding_box vertices))
  <= coord a (bb_min (calculate_bounding_box group)) /\
  coord a (bb_min (calculate_bounding_box group))
  <= coord a (bb_max (calculate_bounding_box group)) /\
  coord a (bb_max (calculate_bounding_box group))
  <= coord a (bb_max (calculate_bounding_box vertices)).
Proof.
  intros Hne Hincl.
  assert (Hvs : vertices <> []).
  { destruct group as [|v g]; [contradiction|].
    intro Hnil. specialize (Hincl v (or_introl eq_refl)).
    rewrite Hnil in Hincl. exact Hincl. }
  destruct (calculate_bounding_box_min a Hne) as [Hlow Hmin].
  destruct (calculate_bounding_box_max a Hne) as [Hup Hmax].
  destruct (calculate_bounding_box_min a Hvs) as [Hlow' _].
  destruct (calculate_bounding_box_max a Hvs) as [Hup' _].
  split; [|split].
  - apply in_map_iff in Hmin. destruct Hmin as (v & <- & Hv).
    apply Hlow', in_map, Hincl, Hv.
  - apply Hlow, Hmax.
  - apply in_map_iff in Hmax. destruct Hmax as (v & <- & Hv).
    apply Hup', in_map, Hincl, Hv.
Qed.

(** The boxes of a run's manifest, for a model whose coordinates are
    numbers.  The box of every chunk descriptor lies inside the overall
    box, which is that of the scaled model: on each axis the descriptor's
    minimum is at least the overall minimum, its maximum at most the overall
    maximum, and its minimum at most its maximum.  The size recorded for a
    chunk is the length of its header plus fifteen bytes for each of its
    vertices and each of the eight anchors. *)
Theorem manifest_boxes_nested
        (sqrt : Q -> Q) (random : nat -> Q) (self : PLYChunker)
        (input_name base_name : string) (vertices : list Vertex) (k : nat)
        (manifest : Manifest) (files : list (string * PlyFile)) (k' : nat) :
  chunk_ply_file sqrt random self input_name base_name vertices k
    = Ok (manifest, files, k') ->
  overall_bounding_box manifest
  = calculate_bounding_box (snd (normalize_scale vertices)) /\
  Forall
    (fun descriptor =>
       forall a,
         coord a (bb_min (overall_bounding_box manifest))
         <= coord a (bb_min (m_bounding_box descriptor)) /\
         coord a (bb_min (m_bounding_box descriptor))
         <= coord a (bb_max (m_bounding_box descriptor)) /\
         coord a (bb_max (m_bounding_box descriptor))
         <= coord a (bb_max (overall_bounding_box manifest)))
    (chunks manifest) /\
  Forall2
    (fun descriptor file =>
       m_file_size_bytes descriptor
       = (String.length (header_text (snd file))
          + 15 * (m_vertex_count descriptor + 8))%nat)
    (chunks manifest) files.
Proof.
  intro H. apply chunk_ply_file_steps in H. cbv zeta in H.
  destruct H as (vertex_chunks & chunk_infos & Hchunk & Hwrite & ->).
  simpl overall_bounding_box. simpl chunks.
  split; [reflexivity|].
  set (scaled := snd (normalize_scale vertices)) in *.
  pose proof (chunk_vertices_radial_no_empty_group _ _ _ _ _ Hchunk) as Hne.
  pose proof (chunk_vertices_radial_group_incl _ _ _ _ _ Hchunk) as Hincl.
  split.
  - apply write_chunks_spec in Hwrite.
    destruct Hwrite as (new_infos & new_files & Hi & _ & Hgroups & _).
    simpl in Hi. subst chunk_infos. apply Forall_map.
    clear Hchunk. induction Hgroups as [|group info groups infos [_ Hb] _ IH].
    + constructor.
    + constructor.
      * intro a. simpl. rewrite Hb.
        apply calculate_bounding_box_nested.
        -- inversion Hne; assumption.
        -- intros v Hv. apply (Hincl group v); [left; reflexivity|exact Hv].
      * apply IH.
        -- inversion Hne; assumption.
        -- intros g v Hg Hv. apply (Hincl g v); [right; exact Hg|exact Hv].
  - apply write_chunks_index in Hwrite.
    destruct Hwrite as (new_infos & new_files & -> & -> & _ & _ & _ & _ & _
                        & Hs).
    simpl. clear - Hs. induction Hs; simpl; constructor; auto.
Qed.

Lemma manifest_boxes_nested_witness :
  exists manifest files k',
    chunk_ply_file sqrt_milli draws_half chunker_of_two "m.ply" "m"
                   wide_model 0 = Ok (manifest, files, k') /\
    Forall
      (fun descriptor =>
         coord AxisX (bb_min (overall_bounding_box manifest))
         <= coord AxisX (bb_min (m_bounding_box descriptor)))
      (chunks manifest) /\
    List.length (chunks manifest) = 2%nat.
Proof.
  destruct (chunk_ply_file sqrt_milli draws_half chunker_of_two "m.ply" "m"
              wide_model 0) as [[[manifest files] k']| |] eqn:E;
    [|vm_compute in E; discriminate E|vm_compute in E; discriminate E].
  exists manifest, files, k'. split; [reflexivity|]. split.
  - destruct (manifest_boxes_nested _ _ _ _ _ _ _ E) as (_ & Hnested & _).
    eapply Forall_impl; [|exact Hnested].
    intros descriptor H. apply (H AxisX).
  - vm_compute in E. inversion E. reflexivity.
Defined.

(** ** Two runs at the edges of the theorems above *)

(** A draw just below 0.2 is not below every probability: it is the float
    [1.0 - 0.8] itself, the probability of a vertex at [max_distance] in the
    first pass.  On four such vertices and two vertices per chunk the first
    pass selects nothing and one group of four is forced. *)
Example draw_below_fifth_stalls :
  let draw := 1801439850948198 # 2 ^ 53 in
  let vertices :=
    [vertex_at 1 0 0; vertex_at 0 1 0; vertex_at 0 0 1; vertex_at (-1) 0 0] in
  draw < 2 # 10 /\
  draw == least_probability /\
  chunk_vertices_radial sqrt_milli (fun _ => draw) chunker_of_two vertices 0
  = Ok ([vertices], 4%nat).
Proof.
  cbv zeta. split; [reflexivity|]. split; [reflexivity|].
  vm_compute. reflexivity.
Qed.

(** A coordinate beyond the range of a 32-bit float: the run chunks the
    model and fails when the first chunk is written. *)
Example far_vertex_overflows :
  chunk_ply_file sqrt_milli draws_half chunker_of_two "m.ply" "m"
                 [Vertex6 (inject_Z (10 ^ 39)) 0 0 255 255 255] 0
  = Raise OverflowError.
Proof. vm_compute. reflexivity. Qed.
